(** * Broker connection core of the kgo Kafka client (broker.go)

    A shallow embedding of the request pump ([broker.handleReq]), the
    connection ([brokerCxn.writeRequest], [readResponse], [parseReadSize],
    [requestAPIVersions], [doSasl]) and of the few pieces of the Go
    standard library they lean on ([encoding/binary], fixed-width integer
    conversions), followed by the properties of the broker connection
    specification that can be settled on this code. *)

From Stdlib Require Import ZArith List Bool Lia String Ascii.
From Stdlib Require Import Strings.Byte.
From Stdlib Require Import Numbers.DecimalString Numbers.HexadecimalString.
From Stdlib Require Import Numbers.DecimalZ Numbers.DecimalPos.
From Stdlib Require Import Floats.SpecFloat.
Import ListNotations.

Local Open Scope Z_scope.

(* ================================================================== *)
(** ** Fixed-width integers *)
(* ================================================================== *)

Module Int.

(** Go's conversion to a signed [w]-bit integer: keep the low [w] bits and
    read them in two's complement. *)
Definition wrap (w : Z) (z : Z) : Z :=
  (z + 2 ^ (w - 1)) mod 2 ^ w - 2 ^ (w - 1).

Definition int16 (z : Z) : Z := wrap 16 z.
Definition int32 (z : Z) : Z := wrap 32 z.
Definition int64 (z : Z) : Z := wrap 64 z.

(** Conversions to unsigned types keep the low bits. *)
Definition uint16 (z : Z) : Z := z mod 2 ^ 16.
Definition uint32 (z : Z) : Z := z mod 2 ^ 32.

Definition MaxInt32 : Z := 2147483647.
Definition MinInt32 : Z := -2147483648.

Definition in_int16 (z : Z) : Prop := - 2 ^ 15 <= z < 2 ^ 15.
Definition in_int32 (z : Z) : Prop := MinInt32 <= z <= MaxInt32.

End Int.

(* ================================================================== *)
(** ** Bytes and [encoding/binary] *)
(* ================================================================== *)

(** The numeric value of a byte. *)
Definition byteZ (b : byte) : Z := Z.of_N (Byte.to_N b).

(** Go's [byte(v)]: the low eight bits of [v]. *)
Definition toByte (v : Z) : byte :=
  match Byte.of_N (Z.to_N (v mod 256)) with
  | Some b => b
  | None => x00
  end.

(** What running a piece of Go code gives: a value, or a run-time panic. *)
Inductive panic : Type :=
| IndexOutOfRange (index len : Z)
| NilDereference.

Inductive run (A : Type) : Type :=
| Returns (a : A)
| Panics (p : panic)
| OutOfFuel.   (* a loop of the model was cut short; never the code's doing *)
Arguments Returns {A} a.
Arguments Panics {A} p.
Arguments OutOfFuel {A}.

Module BigEndian.

(** [binary.BigEndian.Uint32]:
    [uint32(b[3]) | uint32(b[2])<<8 | uint32(b[1])<<16 | uint32(b[0])<<24],
    after the bounds check [_ = b[3]]. *)
Definition Uint32 (b : list byte) : run Z :=
  match b with
  | b0 :: b1 :: b2 :: b3 :: _ =>
      Returns (Z.lor (Z.lor (Z.lor (byteZ b3) (Z.shiftl (byteZ b2) 8))
                            (Z.shiftl (byteZ b1) 16))
                     (Z.shiftl (byteZ b0) 24))
  | _ => Panics (IndexOutOfRange 3 (Z.of_nat (List.length b)))
  end.

(** [binary.BigEndian.PutUint32] into a buffer: the first four bytes are
    overwritten with [byte(v>>24), byte(v>>16), byte(v>>8), byte(v)]. *)
Definition PutUint32 (b : list byte) (v : Z) : run (list byte) :=
  match b with
  | _ :: _ :: _ :: _ :: rest =>
      Returns (toByte (Z.shiftr v 24) :: toByte (Z.shiftr v 16)
                 :: toByte (Z.shiftr v 8) :: toByte v :: rest)
  | _ => Panics (IndexOutOfRange 3 (Z.of_nat (List.length b)))
  end.

(** The length prefix of a frame, as [doSasl] builds it for a raw
    write: [buf = append(buf[:0], 0, 0, 0, 0)] followed by
    [PutUint32(buf, uint32(n))]. *)
Definition lenPrefix (n : Z) : list byte :=
  [toByte (Z.shiftr (Int.uint32 n) 24); toByte (Z.shiftr (Int.uint32 n) 16);
   toByte (Z.shiftr (Int.uint32 n) 8); toByte (Int.uint32 n)].

End BigEndian.

(** Sequencing of computations that may panic. *)
Definition run_bind {A B} (m : run A) (k : A -> run B) : run B :=
  match m with
  | Returns a => k a
  | Panics p => Panics p
  | OutOfFuel => OutOfFuel
  end.

Declare Scope run_scope.
Delimit Scope run_scope with run.
Notation "x <- m ;; k" := (run_bind m (fun x => k))
  (at level 61, m at next level, right associativity) : run_scope.

(** [s[i]] on a slice. *)
Definition index {A} (s : list A) (i : Z) : run A :=
  if i <? 0 then Panics (IndexOutOfRange i (Z.of_nat (List.length s)))
  else match nth_error s (Z.to_nat i) with
       | Some a => Returns a
       | None => Panics (IndexOutOfRange i (Z.of_nat (List.length s)))
       end.

(* ================================================================== *)
(** ** Errors *)
(* ================================================================== *)

(** The error values that flow through broker.go.  The sentinel errors of
    the package and of its collaborators are constructors of their own;
    each [fmt.Errorf] / [errors.New] call site of broker.go has one
    constructor carrying the values it formats. *)
Inductive error : Type :=
(* package-level sentinels *)
| errUnknownRequestKey
| errBrokerTooOld
| errChosenBrokerDead
| errCorrelationIDMismatch
| errSaslReauthLoop
| ErrClientClosed
(* kbin.ErrNotEnoughData *)
| ErrNotEnoughData
(* context.Canceled and context.DeadlineExceeded *)
| ctxCanceled
| ctxDeadlineExceeded
(* parseReadSize *)
| errNegativeSize (size : Z)
| errLargeSizeHTTP (size maxSize : Z)
| errLargeSizeTLS (size maxSize : Z) (versionGuess : string)
| errLargeSize (size maxSize : Z)
(* requestAPIVersions *)
| errShortApiVersions (len : Z)
| errUnsupportedApiVersions0
| errReadApiVersions (cause : error)
| errNoApiKeys
(* connect *)
| errUnableToDial (cause : error)
(* doSasl *)
| errUnexpectedServerWrite (mechanism : string)
| errWithMessage (msg : string) (cause : error)
(* kerr.ErrorForCode for a non-zero code *)
| kerrError (code : Z)
(* anything produced by the dialer, the socket or a SASL mechanism *)
| otherError (msg : string).

(** The two ways a context ends. *)
Inductive ctxEnd : Type := Canceled | DeadlineExceeded.

(** [ctx.Err()] of a context that is done. *)
Definition ctxErr (e : ctxEnd) : error :=
  match e with
  | Canceled => ctxCanceled
  | DeadlineExceeded => ctxDeadlineExceeded
  end.

Module Fmt.

(** [%d] on an integer. *)
Definition d (z : Z) : string :=
  DecimalString.NilZero.string_of_int (Z.to_int z).

(** [%x] on an unsigned integer. *)
Definition x (z : Z) : string :=
  HexadecimalString.NilZero.string_of_uint (N.to_hex_uint (Z.to_N z)).

End Fmt.

(** [Error()] for the errors that broker.go formats itself; the texts of the
    other errors live in files that are not part of this development. *)
Definition Error (e : error) : option string :=
  let cat := String.append in
  match e with
  | errNegativeSize size =>
      Some (cat "invalid negative response size "%string (Fmt.d size))
  | errLargeSizeHTTP size maxSize =>
      Some (cat "invalid large response size "%string (cat (Fmt.d size)
           (cat " > limit "%string (cat (Fmt.d maxSize)
           "; the four size bytes are 'HTTP' in ascii, the beginning of an HTTP response; is your broker port correct?"%string))))
  | errLargeSizeTLS size maxSize versionGuess =>
      Some (cat "invalid large response size "%string (cat (Fmt.d size)
           (cat " > limit "%string (cat (Fmt.d maxSize)
           (cat "; the first three bytes received appear to be a tls alert record for "%string
           (cat versionGuess
           "; is this a plaintext connection speaking to a tls endpoint?"%string))))))
  | errLargeSize size maxSize =>
      Some (cat "invalid large response size "%string (cat (Fmt.d size)
           (cat " > limit "%string (Fmt.d maxSize))))
  | errShortApiVersions len =>
      Some (cat "invalid length "%string (cat (Fmt.d len)
           " short response from ApiVersions request"%string))
  | errUnsupportedApiVersions0 =>
      Some "Kafka replied with UNSUPPORTED_VERSION to an ApiVersions request of version 0"%string
  | errNoApiKeys =>
      Some "ApiVersions response invalidly contained no ApiKeys"%string
  | errUnexpectedServerWrite mechanism =>
      Some (cat "unexpected server-write sasl with mechanism "%string mechanism)
  | _ => None
  end.

(* ================================================================== *)
(** ** Reading a length prefix: [brokerCxn.parseReadSize] *)
(* ================================================================== *)

Module tls.
(** The version numbers of [crypto/tls]. *)
Definition VersionSSL30 : Z := 0x0300.
Definition VersionTLS10 : Z := 0x0301.
Definition VersionTLS11 : Z := 0x0302.
Definition VersionTLS12 : Z := 0x0303.
Definition VersionTLS13 : Z := 0x0304.
End tls.

(** The table [parseReadSize] walks to name a TLS version. *)
Definition tlsGuesses : list (Z * string) :=
  [ (tls.VersionSSL30, "SSL v3"%string);
    (tls.VersionTLS10, "TLS v1.0"%string);
    (tls.VersionTLS11, "TLS v1.1"%string);
    (tls.VersionTLS12, "TLS v1.2"%string);
    (tls.VersionTLS13, "TLS v1.3"%string) ].

(** The [for _, guess := range ...] loop: the last matching entry wins, and
    without a match the guess stays ["unknown TLS version (hex %x)"]. *)
Definition versionGuess (tlsVersion : Z) : string :=
  fold_left
    (fun versionGuess guess =>
       if tlsVersion =? fst guess then snd guess else versionGuess)
    tlsGuesses
    (String.append "unknown TLS version (hex "
                   (String.append (Fmt.x tlsVersion) ")")).

(** [uint16(sizeBuf[1])<<8 | uint16(sizeBuf[2])]. *)
Definition tlsVersionOf (b1 b2 : byte) : Z :=
  Z.lor (Int.uint16 (Z.shiftl (Int.uint16 (byteZ b1)) 8))
        (Int.uint16 (byteZ b2)).

(** [parseReadSize]: [maxBrokerReadBytes] is [cxn.b.cl.cfg.maxBrokerReadBytes],
    an [int32].  The result is the pair the Go function returns. *)
Definition parseReadSize (maxBrokerReadBytes : Z) (sizeBuf : list byte)
  : run (Z * option error) :=
  (u <- BigEndian.Uint32 sizeBuf ;;
   let size := Int.int32 u in
   if size <? 0 then Returns (0, Some (errNegativeSize size))
   else
     let maxSize := maxBrokerReadBytes in
     if size >? maxSize then
       if maxSize =? 0x48545450 then (* "HTTP" *)
         Returns (0, Some (errLargeSizeHTTP size maxSize))
       else
         b1 <- index sizeBuf 1 ;;
         b2 <- index sizeBuf 2 ;;
         let tlsVersion := tlsVersionOf b1 b2 in
         b0 <- index sizeBuf 0 ;;
         if (byteZ b0 =? 21) && negb (Z.land tlsVersion 0x0300 =? 0) then
           Returns (0, Some (errLargeSizeTLS size maxSize
                                             (versionGuess tlsVersion)))
         else
           Returns (0, Some (errLargeSize size maxSize))
     else Returns (size, None))%run.


(* ================================================================== *)
(** ** Time and float64, as far as [doSasl] uses them *)
(* ================================================================== *)

Module time.

(** A [time.Time] is kept as the number of nanoseconds since the Unix epoch
    and a [time.Duration] as its [int64] count of nanoseconds. *)
Definition Time : Type := Z.
Definition Duration : Type := Z.

Definition Millisecond : Duration := 1000000.

(** [time.Time{}], January 1 of year 1, 00:00 UTC. *)
Definition zero : Time := -62135596800000000000.

Definition IsZero (t : Time) : bool := t =? zero.
Definition After (t u : Time) : bool := t >? u.
Definition Add (t : Time) (d : Duration) : Time := t + d.

Definition maxDuration : Duration := 2 ^ 63 - 1.
Definition minDuration : Duration := - 2 ^ 63.

(** [t.Sub(u)] saturates at the ends of [int64]. *)
Definition Sub (t u : Time) : Duration :=
  Z.max minDuration (Z.min maxDuration (t - u)).

(** [d.Milliseconds()]: integer division by [1e6], truncated. *)
Definition Milliseconds (d : Duration) : Z := Z.quot d 1000000.

(** [time.Unix(0, nsec)]. *)
Definition Unix (sec nsec : Z) : Time := sec * 1000000000 + nsec.

End time.

Module float64.

Definition prec : Z := 53.
Definition emax : Z := 1024.

(** [float64(n)] for an integer [n], rounded to nearest even. *)
Definition ofInt (n : Z) : spec_float := binary_normalize prec emax n 0 false.

Definition mul (x y : spec_float) : spec_float := SFmul prec emax x y.

(** The constant [1.1], that is [0x3FF199999999999A]. *)
Definition c1_1 : spec_float := S754_finite false 4953959590107546 (-52).

(** [int64(f)]: truncation toward zero.  For what is outside of [int64],
    and for NaN, the language leaves the result to the implementation;
    the value here is the one amd64 gives. *)
Definition toInt64 (f : spec_float) : Z :=
  match f with
  | S754_zero _ => 0
  | S754_finite s m e =>
      let v := if 0 <=? e then Z.pos m * 2 ^ e
               else Z.quot (Z.pos m) (2 ^ (- e)) in
      let v := if s then - v else v in
      if (- 2 ^ 63 <=? v) && (v <? 2 ^ 63) then v else - 2 ^ 63
  | _ => - 2 ^ 63
  end.

End float64.

(* ================================================================== *)
(** ** Requests, responses and configuration *)
(* ================================================================== *)

Definition bytes : Type := list byte.

(** [len(s)] as the [int] Go gives. *)
Definition len {A} (s : list A) : Z := Z.of_nat (List.length s).

(** What the request pump can tell about the dynamic type of a
    [kmsg.Request], with the fields it reads or writes. *)
Inductive payload : Type :=
| produceRequest (acks : Z)                       (* kgo's own *produceRequest *)
| ProduceRequest (Acks : Z) (TimeoutMillis : Z)   (* *kmsg.ProduceRequest *)
| ApiVersionsRequest (ClientSoftwareName ClientSoftwareVersion : string)
| SASLHandshakeRequest (Mechanism : string)
| SASLAuthenticateRequest (SASLAuthBytes : bytes)
| otherRequest (key : Z) (timeoutRequest : bool) (data : bytes).

Record Request : Type := mkRequest {
  body : payload;
  Version : Z        (* int16 *)
}.

(** [req.Key()]. *)
Definition Key (req : Request) : Z :=
  match body req with
  | produceRequest _ => 0
  | ProduceRequest _ _ => 0
  | ApiVersionsRequest _ _ => 18
  | SASLHandshakeRequest _ => 17
  | SASLAuthenticateRequest _ => 36
  | otherRequest key _ _ => key
  end.

Definition SetVersion (req : Request) (v : Z) : Request :=
  mkRequest (body req) v.

(** [_, isTimeout := req.(kmsg.TimeoutRequest)].  For the message types
    named above the key settles the connection before this is looked at
    (produce) or the request never reaches [loadConnection]. *)
Definition isTimeoutRequest (req : Request) : bool :=
  match body req with
  | otherRequest _ t _ => t
  | _ => false
  end.

(** The [kmsg.Response] values the pump hands to a promise. *)
Inductive Response : Type :=
| nilProduceResponse                 (* [var noResp *kmsg.ProduceResponse] *)
| newProduceResponse (Version : Z)   (* [kmsg.NewPtrProduceResponse()], version set *)
| ResponseKind (key version : Z).    (* [req.ResponseKind()] *)

Definition ResponseKey (r : Response) : Z :=
  match r with
  | nilProduceResponse => 0
  | newProduceResponse _ => 0
  | ResponseKind key _ => key
  end.

(** [kversion.Versions], through the two methods broker.go calls. *)
Record Versions : Type := {
  HasKey : Z -> bool;
  LookupMaxKeyVersion : Z -> Z * bool
}.

(** A [sasl.Mechanism]; what [Authenticate] and the session answer comes
    from the environment. *)
Record Mechanism : Type := { Name : string }.

Record cfg : Type := {
  maxBrokerReadBytes : Z;              (* int32 *)
  acks : Z;                            (* cfg.acks.val, int16 *)
  produceTimeout : time.Duration;
  maxVersions : option Versions;
  minVersions : option Versions;
  sasls : list Mechanism;
  softwareName : string;
  softwareVersion : string
}.

(** The decoded parts of the three responses broker.go looks into. *)
Record ApiVersionsResponseApiKey : Type := {
  ApiKey : Z;
  ApiKeyMaxVersion : Z
}.

Record SASLHandshakeResponse : Type := {
  HandshakeErrorCode : Z;
  SupportedMechanisms : list string
}.

Record SASLAuthenticateResponse : Type := {
  AuthErrorCode : Z;
  ErrorMessage : option string;
  AuthBytes : bytes;
  SessionLifetimeMillis : Z
}.

(** The collaborators of package kmsg / kbin and the timeouts of the
    client, none of which broker.go defines. *)
Record Codec : Type := {
  MaxKey : Z;                                             (* kmsg.MaxKey *)
  AppendRequest : bytes -> Request -> Z -> bytes;         (* reqFormatter *)
  MaxVersion : Request -> Z;                              (* int16 *)
  IsFlexible : Request -> bool;
  timeouts : Request -> time.Duration * time.Duration;    (* connTimeouter: read, write *)
  (* [resp.ReadFrom(raw)] at a response version *)
  readApiVersions : Z -> bytes -> list ApiVersionsResponseApiKey * option error;
  readSASLHandshake : Z -> bytes -> SASLHandshakeResponse * option error;
  readSASLAuthenticate : Z -> bytes -> SASLAuthenticateResponse * option error;
  (* [kmsg.SkipTags] on a reader: what is left, and [b.Complete()] *)
  SkipTags : bytes -> bytes * option error
}.

(** [kerr.ErrorForCode]. *)
Definition ErrorForCode (code : Z) : option error :=
  if code =? 0 then None else Some (kerrError code).

Definition UnsupportedSaslMechanism : error := kerrError 33.

(** Equality of the two errors [sasl] compares with [==]. *)
Definition error_is_kerr (e : error) (code : Z) : bool :=
  match e with
  | kerrError c => c =? code
  | _ => false
  end.

(* ================================================================== *)
(** ** The state of a broker and of its connections *)
(* ================================================================== *)

(** A [context.Context] as the pump sees it: whether it is the client's own
    context, and the request id it carries. *)
Record Context : Type := {
  isClientCtx : bool;                  (* [ctx == cl.ctx] *)
  requestIdValue : option string       (* [ctx.Value("requestId")] *)
}.

Record BrokerE2E : Type := {
  BytesWritten : Z;
  BytesRead : Z;
  WriteWait : time.Duration;
  TimeToWrite : time.Duration;
  ReadWait : time.Duration;
  TimeToRead : time.Duration;
  WriteErr : option error;
  ReadErr : option error
}.

Record promisedReq : Type := {
  pr_ctx : option Context;
  pr_req : Request;
  pr_promise : nat;                    (* which callback *)
  pr_enqueue : time.Time
}.

Record promisedResp : Type := {
  resp_ctx : option Context;
  resp_corrID : Z;
  flexibleHeader : bool;
  resp : Response;
  resp_promise : nat;
  readTimeout : time.Duration;
  bytesWritten : Z;
  writeWait : time.Duration;
  timeToWrite : time.Duration;
  readEnqueue : time.Time
}.

(** Modelled from the spec: the queue [ringResp] of a connection (ring.go is
    not part of this development).  The spec gives it as "a mutex-protected
    list with push -> (was_empty, is_dead), drop_peek and die"; a push on a
    dead queue enqueues nothing. *)
Record ringResp : Type := {
  elems : list promisedResp;
  ringDead : bool
}.

Definition ringResp_push (r : ringResp) (pr : promisedResp)
  : ringResp * (bool * bool) :=
  if ringDead r then (r, (false, true))
  else ({| elems := elems r ++ [pr]; ringDead := false |},
        (match elems r with [] => true | _ => false end, false)).

Definition ringResp_die (r : ringResp) : ringResp :=
  {| elems := elems r; ringDead := true |}.

(** The fields of [brokerCxn] that the modelled functions read or write.
    The socket is the environment's; the four reaper fields and [successes]
    are kept beside the heap, see [reapFields] and [respWorker]. *)
Record brokerCxn : Type := {
  addr : string;
  mechanism : option Mechanism;
  expiry : time.Time;
  throttleUntil : Z;                   (* atomic, Unix nanoseconds *)
  corrID : Z;                          (* int32 *)
  resps : ringResp;
  dead : bool;
  AuthRequestId : string
}.

(** brokerVersions: the array [[kmsg.MaxKey + 1]int16]. *)
Definition brokerVersions : Type := list Z.

(** Connections are shared by pointer: the broker's five slots and the
    local variable of the pump name the same object. *)
Definition ptr : Type := nat.

Record broker : Type := {
  b_addr : string;
  versions : option brokerVersions;    (* atomic.Value, nil until stored *)
  cxnNormal : option ptr;
  cxnProduce : option ptr;
  cxnFetch : option ptr;
  cxnGroup : option ptr;
  cxnSlow : option ptr
}.

Inductive slot : Type := slotNormal | slotProduce | slotFetch | slotGroup | slotSlow.

Definition getSlot (b : broker) (s : slot) : option ptr :=
  match s with
  | slotNormal => cxnNormal b
  | slotProduce => cxnProduce b
  | slotFetch => cxnFetch b
  | slotGroup => cxnGroup b
  | slotSlow => cxnSlow b
  end.

Definition setSlot (b : broker) (s : slot) (p : option ptr) : broker :=
  match s with
  | slotNormal => {| b_addr := b_addr b; versions := versions b; cxnNormal := p;
                     cxnProduce := cxnProduce b; cxnFetch := cxnFetch b;
                     cxnGroup := cxnGroup b; cxnSlow := cxnSlow b |}
  | slotProduce => {| b_addr := b_addr b; versions := versions b; cxnNormal := cxnNormal b;
                      cxnProduce := p; cxnFetch := cxnFetch b;
                      cxnGroup := cxnGroup b; cxnSlow := cxnSlow b |}
  | slotFetch => {| b_addr := b_addr b; versions := versions b; cxnNormal := cxnNormal b;
                    cxnProduce := cxnProduce b; cxnFetch := p;
                    cxnGroup := cxnGroup b; cxnSlow := cxnSlow b |}
  | slotGroup => {| b_addr := b_addr b; versions := versions b; cxnNormal := cxnNormal b;
                    cxnProduce := cxnProduce b; cxnFetch := cxnFetch b;
                    cxnGroup := p; cxnSlow := cxnSlow b |}
  | slotSlow => {| b_addr := b_addr b; versions := versions b; cxnNormal := cxnNormal b;
                   cxnProduce := cxnProduce b; cxnFetch := cxnFetch b;
                   cxnGroup := cxnGroup b; cxnSlow := p |}
  end.

Definition setVersions (b : broker) (v : option brokerVersions) : broker :=
  {| b_addr := b_addr b; versions := v; cxnNormal := cxnNormal b;
     cxnProduce := cxnProduce b; cxnFetch := cxnFetch b;
     cxnGroup := cxnGroup b; cxnSlow := cxnSlow b |}.

(* ================================================================== *)
(** ** The environment *)
(* ================================================================== *)

(** What the outside world answers, in the order it is asked: the clock,
    the dialer, the socket, the contexts and the SASL mechanism.  A script
    that runs dry answers as a world that has gone quiet: the clock stands
    still, the socket is closed, nobody cancels. *)

Inductive writeOutcome : Type :=
| WriteAll                             (* [conn.Write] wrote the buffer *)
| WriteFail (n : Z) (msg : string).    (* it wrote [n] bytes and failed *)

(** Which case of the [select] around a blocking read or write fired. *)
Inductive selectCase : Type :=
| IODone
| ClientCtxDone
| CtxDone (e : ctxEnd).                (* [ctx.Done()], with how it ended *)

(** Which case ended a throttle wait. *)
Inductive throttleWake : Type :=
| TimerFired
| ThrottleCtxDone (e : ctxEnd)
| ThrottleClientDone
| ThrottleCxnDead.

Record World : Type := {
  clock : list time.Time;              (* the coming readings of [time.Now()] *)
  lastNow : time.Time;
  dials : list (option string);        (* the coming errors of [cfg.dialFn] *)
  connWrites : list writeOutcome;
  inbound : bytes;                     (* what the broker sends *)
  selects : list selectCase;
  throttleWakes : list throttleWake;
  ctxPolls : list (option ctxEnd);     (* each poll of [ctx.Done()] *)
  authenticates : list (bytes * option string);       (* [mechanism.Authenticate] *)
  challenges : list (bool * bytes * option string)    (* [session.Challenge] *)
}.

Inductive LogLevel : Type := LogLevelError | LogLevelWarn | LogLevelInfo | LogLevelDebug.

(** What the code does to the outside, in order. *)
Inductive event : Type :=
| Promise (id : nat) (resp : option Response) (err : option error)
| ConnWrite (c : ptr) (buf : bytes)
| ConnClose (c : ptr)
| HookConnect (err : option error)
| HookDisconnect (c : ptr)
| HookWrite (key bytesWritten : Z) (writeWait timeToWrite : time.Duration)
            (err : option error)
| HookRead (key bytesRead : Z) (readWait timeToRead : time.Duration)
           (err : option error)
| HookE2E (key : Z) (e2e : BrokerE2E)
| Sleep (d : time.Duration)
| Log (level : LogLevel) (msg : string)
| GoHandleResps (c : ptr) (pr : promisedResp)
| GoDiscard (c : ptr).

Record State : Type := mkState {
  b : broker;
  heap : list brokerCxn;
  world : World;
  trace : list event
}.

(* ================================================================== *)
(** ** A state monad for code that may panic *)
(* ================================================================== *)

Definition M (A : Type) : Type := State -> run A * State.

Definition ret {A} (a : A) : M A := fun s => (Returns a, s).

Definition bind {A B} (m : M A) (k : A -> M B) : M B :=
  fun s =>
    match m s with
    | (Returns a, s') => k a s'
    | (Panics p, s') => (Panics p, s')
    | (OutOfFuel, s') => (OutOfFuel, s')
    end.

Declare Scope go_scope.
Delimit Scope go_scope with go.
Notation "x <- m ;; k" := (bind m (fun x => k))
  (at level 61, m at next level, right associativity) : go_scope.
Notation "' pat <- m ;; k" := (bind m (fun x => match x with pat => k end))
  (at level 61, pat pattern, m at next level, right associativity) : go_scope.
Notation "m ;; k" := (bind m (fun _ => k))
  (at level 61, right associativity) : go_scope.

Definition lift {A} (r : run A) : M A := fun s => (r, s).
Definition throw {A} (p : panic) : M A := fun s => (Panics p, s).
Definition outOfFuel {A} : M A := fun s => (OutOfFuel, s).

Definition getBroker : M broker := fun s => (Returns (b s), s).
Definition putBroker (x : broker) : M unit :=
  fun s => (Returns tt, mkState x (heap s) (world s) (trace s)).
Definition getWorld : M World := fun s => (Returns (world s), s).
Definition putWorld (x : World) : M unit :=
  fun s => (Returns tt, mkState (b s) (heap s) x (trace s)).

(** An observable effect. *)
Definition emit (e : event) : M unit :=
  fun s => (Returns tt, mkState (b s) (heap s) (world s) (trace s ++ [e])).

(** *** The heap of connections *)

Fixpoint update {A} (l : list A) (i : nat) (x : A) : list A :=
  match l, i with
  | [], _ => []
  | _ :: t, O => x :: t
  | h :: t, S i' => h :: update t i' x
  end.

(** [*cxn], for a pointer that may be nil or dangling. *)
Definition getCxn (c : ptr) : M brokerCxn :=
  fun s =>
    match nth_error (heap s) c with
    | Some x => (Returns x, s)
    | None => (Panics NilDereference, s)
    end.

Definition putCxn (c : ptr) (x : brokerCxn) : M unit :=
  fun s => (Returns tt, mkState (b s) (update (heap s) c x) (world s) (trace s)).

(** [&brokerCxn{...}]. *)
Definition newCxn (x : brokerCxn) : M ptr :=
  fun s => (Returns (List.length (heap s)),
            mkState (b s) (heap s ++ [x]) (world s) (trace s)).

Definition set_mechanism (x : brokerCxn) (m : option Mechanism) : brokerCxn :=
  {| addr := addr x; mechanism := m; expiry := expiry x;
     throttleUntil := throttleUntil x; corrID := corrID x; resps := resps x;
     dead := dead x; AuthRequestId := AuthRequestId x |}.

Definition set_expiry (x : brokerCxn) (t : time.Time) : brokerCxn :=
  {| addr := addr x; mechanism := mechanism x; expiry := t;
     throttleUntil := throttleUntil x; corrID := corrID x; resps := resps x;
     dead := dead x; AuthRequestId := AuthRequestId x |}.

Definition set_corrID (x : brokerCxn) (n : Z) : brokerCxn :=
  {| addr := addr x; mechanism := mechanism x; expiry := expiry x;
     throttleUntil := throttleUntil x; corrID := n; resps := resps x;
     dead := dead x; AuthRequestId := AuthRequestId x |}.

Definition set_resps (x : brokerCxn) (r : ringResp) : brokerCxn :=
  {| addr := addr x; mechanism := mechanism x; expiry := expiry x;
     throttleUntil := throttleUntil x; corrID := corrID x; resps := r;
     dead := dead x; AuthRequestId := AuthRequestId x |}.

Definition set_dead (x : brokerCxn) (d : bool) : brokerCxn :=
  {| addr := addr x; mechanism := mechanism x; expiry := expiry x;
     throttleUntil := throttleUntil x; corrID := corrID x; resps := resps x;
     dead := d; AuthRequestId := AuthRequestId x |}.

Definition set_AuthRequestId (x : brokerCxn) (id : string) : brokerCxn :=
  {| addr := addr x; mechanism := mechanism x; expiry := expiry x;
     throttleUntil := throttleUntil x; corrID := corrID x; resps := resps x;
     dead := dead x; AuthRequestId := id |}.

(** *** Asking the environment *)

Definition set_clock (w : World) (c : list time.Time) (l : time.Time) : World :=
  {| clock := c; lastNow := l; dials := dials w; connWrites := connWrites w;
     inbound := inbound w; selects := selects w; throttleWakes := throttleWakes w;
     ctxPolls := ctxPolls w; authenticates := authenticates w;
     challenges := challenges w |}.

Definition set_dials (w : World) (d : list (option string)) : World :=
  {| clock := clock w; lastNow := lastNow w; dials := d; connWrites := connWrites w;
     inbound := inbound w; selects := selects w; throttleWakes := throttleWakes w;
     ctxPolls := ctxPolls w; authenticates := authenticates w;
     challenges := challenges w |}.

Definition set_connWrites (w : World) (x : list writeOutcome) : World :=
  {| clock := clock w; lastNow := lastNow w; dials := dials w; connWrites := x;
     inbound := inbound w; selects := selects w; throttleWakes := throttleWakes w;
     ctxPolls := ctxPolls w; authenticates := authenticates w;
     challenges := challenges w |}.

Definition set_inbound (w : World) (x : bytes) : World :=
  {| clock := clock w; lastNow := lastNow w; dials := dials w;
     connWrites := connWrites w; inbound := x; selects := selects w;
     throttleWakes := throttleWakes w; ctxPolls := ctxPolls w;
     authenticates := authenticates w; challenges := challenges w |}.

Definition set_selects (w : World) (x : list selectCase) : World :=
  {| clock := clock w; lastNow := lastNow w; dials := dials w;
     connWrites := connWrites w; inbound := inbound w; selects := x;
     throttleWakes := throttleWakes w; ctxPolls := ctxPolls w;
     authenticates := authenticates w; challenges := challenges w |}.

Definition set_throttleWakes (w : World) (x : list throttleWake) : World :=
  {| clock := clock w; lastNow := lastNow w; dials := dials w;
     connWrites := connWrites w; inbound := inbound w; selects := selects w;
     throttleWakes := x; ctxPolls := ctxPolls w;
     authenticates := authenticates w; challenges := challenges w |}.

Definition set_ctxPolls (w : World) (x : list (option ctxEnd)) : World :=
  {| clock := clock w; lastNow := lastNow w; dials := dials w;
     connWrites := connWrites w; inbound := inbound w; selects := selects w;
     throttleWakes := throttleWakes w; ctxPolls := x;
     authenticates := authenticates w; challenges := challenges w |}.

Definition set_authenticates (w : World) (x : list (bytes * option string)) : World :=
  {| clock := clock w; lastNow := lastNow w; dials := dials w;
     connWrites := connWrites w; inbound := inbound w; selects := selects w;
     throttleWakes := throttleWakes w; ctxPolls := ctxPolls w;
     authenticates := x; challenges := challenges w |}.

Definition set_challenges (w : World) (x : list (bool * bytes * option string)) : World :=
  {| clock := clock w; lastNow := lastNow w; dials := dials w;
     connWrites := connWrites w; inbound := inbound w; selects := selects w;
     throttleWakes := throttleWakes w; ctxPolls := ctxPolls w;
     authenticates := authenticates w; challenges := x |}.

(** [time.Now()]. *)
Definition Now : M time.Time :=
  (w <- getWorld ;;
   match clock w with
   | t :: rest => putWorld (set_clock w rest t) ;; ret t
   | [] => ret (lastNow w)
   end)%go.

(** [time.Since(t)] and [time.Until(t)]. *)
Definition Since (t : time.Time) : M time.Duration :=
  (n <- Now ;; ret (time.Sub n t))%go.
Definition Until (t : time.Time) : M time.Duration :=
  (n <- Now ;; ret (time.Sub t n))%go.

(** [cfg.dialFn(ctx, "tcp", addr)]. *)
Definition dial : M (option error) :=
  (w <- getWorld ;;
   match dials w with
   | r :: rest => putWorld (set_dials w rest) ;; ret (option_map otherError r)
   | [] => ret (Some (otherError "dial: no route to host"))
   end)%go.

(** [conn.Write(buf)]: the bytes written and the error. *)
Definition connWrite (c : ptr) (buf : bytes) : M (Z * option error) :=
  (emit (ConnWrite c buf) ;;
   w <- getWorld ;;
   match connWrites w with
   | WriteAll :: rest => putWorld (set_connWrites w rest) ;; ret (len buf, None)
   | WriteFail n msg :: rest =>
       putWorld (set_connWrites w rest) ;; ret (n, Some (otherError msg))
   | [] => ret (0, Some (otherError "write: broken pipe"))
   end)%go.

(** [io.ReadFull(conn, buf)] for a buffer of [n] bytes: the bytes read and
    the error, [io.EOF] when nothing came and [io.ErrUnexpectedEOF] when too
    little did. *)
Definition readFull (n : Z) : M (bytes * option error) :=
  (w <- getWorld ;;
   let k := Z.to_nat n in
   if (k <=? List.length (inbound w))%nat then
     putWorld (set_inbound w (skipn k (inbound w))) ;;
     ret (firstn k (inbound w), None)
   else
     putWorld (set_inbound w []) ;;
     ret (inbound w,
          Some (otherError (match inbound w with
                            | [] => "EOF"
                            | _ => "unexpected EOF"
                            end))))%go.

(** The case of the [select] that wins around a blocking read or write. *)
Definition selected : M selectCase :=
  (w <- getWorld ;;
   match selects w with
   | x :: rest => putWorld (set_selects w rest) ;; ret x
   | [] => ret IODone
   end)%go.

Definition throttleWoken : M throttleWake :=
  (w <- getWorld ;;
   match throttleWakes w with
   | x :: rest => putWorld (set_throttleWakes w rest) ;; ret x
   | [] => ret TimerFired
   end)%go.

(** [select { case <-ctx.Done(): ...; default: }]: [ctx.Err()] if done. *)
Definition ctxDone : M (option error) :=
  (w <- getWorld ;;
   match ctxPolls w with
   | x :: rest => putWorld (set_ctxPolls w rest) ;; ret (option_map ctxErr x)
   | [] => ret None
   end)%go.

(** [cxn.mechanism.Authenticate(authCtx, cxn.addr)]: the first client
    write and the error (the session is the environment's). *)
Definition Authenticate : M (bytes * option error) :=
  (w <- getWorld ;;
   match authenticates w with
   | (clientWrite, err) :: rest =>
       putWorld (set_authenticates w rest) ;;
       ret (clientWrite, option_map otherError err)
   | [] => ret ([], Some (otherError "sasl: no session"))
   end)%go.

(** [session.Challenge(challenge)]. *)
Definition Challenge (challenge : bytes) : M (bool * bytes * option error) :=
  (w <- getWorld ;;
   match challenges w with
   | (done, clientWrite, err) :: rest =>
       putWorld (set_challenges w rest) ;;
       ret (done, clientWrite, option_map otherError err)
   | [] => ret (false, [], Some (otherError "sasl: session ended"))
   end)%go.

(* ================================================================== *)
(** ** The connection: writing and reading frames *)
(* ================================================================== *)

Fixpoint bytes_eqb (x y : bytes) : bool :=
  match x, y with
  | [], [] => true
  | a :: x', c :: y' => Byte.eqb a c && bytes_eqb x' y'
  | _, _ => false
  end.

(** What [writeRequest] returns. *)
Record written : Type := {
  w_corrID : Z;
  w_bytesWritten : Z;
  w_writeWait : time.Duration;
  w_timeToWrite : time.Duration;
  w_readEnqueue : time.Time;
  w_writeErr : option error
}.

(** What [readConn] returns. *)
Record wasRead : Type := {
  r_nread : Z;
  r_buf : bytes;
  r_readWait : time.Duration;
  r_timeToRead : time.Duration;
  r_err : option error
}.

(** [err = ctx.Err()] followed by [maybeUpdateCtxErr(cl.ctx, ctx, &err)]. *)
Definition maybeUpdateCtxErr (reqCtx : Context) (e : ctxEnd) : error :=
  if isClientCtx reqCtx then ErrClientClosed else ctxErr e.

Section Broker.

Variable codec : Codec.
Variable config : cfg.

Definition newBrokerVersions : brokerVersions :=
  repeat (-1) (Z.to_nat (MaxKey codec + 1)).

(** The method [len] of brokerVersions; it does not look at its receiver. *)
Definition brokerVersions_len : Z := MaxKey codec + 1.

Definition loadVersions : M (option brokerVersions) :=
  (x <- getBroker ;; ret (versions x))%go.

Definition storeVersions (v : brokerVersions) : M unit :=
  (x <- getBroker ;; putBroker (setVersions x (Some v)))%go.

(** [v.versions[key]] for a [v] that may be nil. *)
Definition versionsAt (v : option brokerVersions) (key : Z) : M Z :=
  match v with
  | None => throw NilDereference
  | Some a => lift (index a key)
  end.

Definition hookWriteE2E (key bytesWritten : Z) (writeWait timeToWrite : time.Duration)
           (writeErr : option error) : M unit :=
  emit (HookE2E key {| BytesWritten := bytesWritten; BytesRead := 0;
                       WriteWait := writeWait; TimeToWrite := timeToWrite;
                       ReadWait := 0; TimeToRead := 0;
                       WriteErr := writeErr; ReadErr := None |}).

(** [writeConn]: the write itself, its two timestamps, and the [select]
    that may turn a failed write into the error of the context that cut it
    short.  A nil [ctx] stands for [context.Background()], which is never
    done. *)
Definition writeConn (c : ptr) (ctx : option Context) (buf : bytes)
           (timeout : time.Duration) (enqueuedForWritingAt : time.Time)
  : M (Z * time.Duration * time.Duration * time.Time * option error) :=
  (writeStart <- Now ;;
   '(bytesWritten, writeErr) <- connWrite c buf ;;
   readEnqueue <- Now ;;
   let writeWait := time.Sub writeStart enqueuedForWritingAt in
   let timeToWrite := time.Sub readEnqueue writeStart in
   sel <- selected ;;
   let writeErr :=
     match sel, writeErr with
     | IODone, _ => writeErr
     | _, None => None
     | ClientCtxDone, Some _ => Some ErrClientClosed
     | CtxDone e, Some w =>
         match ctx with
         | None => Some w
         | Some cx => Some (maybeUpdateCtxErr cx e)
         end
     end in
   ret (bytesWritten, writeWait, timeToWrite, readEnqueue, writeErr))%go.

(** The throttle wait at the head of [writeRequest]: the error that ends
    the wait early, if any.  A nil [ctx] cannot be throttled. *)
Definition throttleWait (c : ptr) (ctx : option Context) : M (option error) :=
  match ctx with
  | None => ret None
  | Some cx =>
      (cxn <- getCxn c ;;
       sleep <- Until (time.Unix 0 (throttleUntil cxn)) ;;
       if 0 <? sleep then
         wake <- throttleWoken ;;
         ret (match wake with
              | TimerFired => None
              | ThrottleCtxDone e => Some (maybeUpdateCtxErr cx e)
              | ThrottleClientDone => Some ErrClientClosed
              | ThrottleCxnDead => Some errChosenBrokerDead
              end)
       else ret None)%go
  end.

(** [writeRequest]. *)
Definition writeRequest (c : ptr) (ctx : option Context)
           (enqueuedForWritingAt : time.Time) (req : Request) (requestId : string)
  : M written :=
  (throttled <- throttleWait c ctx ;;
   match throttled with
   | Some writeErr =>
       writeWait <- Since enqueuedForWritingAt ;;
       ret {| w_corrID := 0; w_bytesWritten := 0; w_writeWait := writeWait;
              w_timeToWrite := 0; w_readEnqueue := time.zero;
              w_writeErr := Some writeErr |}
   | None =>
       cxn <- getCxn c ;;
       let buf := AppendRequest codec [] req (corrID cxn) in
       let wt := snd (timeouts codec req) in
       '(bytesWritten, writeWait, timeToWrite, readEnqueue, writeErr) <-
          writeConn c ctx buf wt enqueuedForWritingAt ;;
       emit (HookWrite (Key req) bytesWritten writeWait timeToWrite writeErr) ;;
       match writeErr with
       | Some e =>
           ret {| w_corrID := 0; w_bytesWritten := bytesWritten;
                  w_writeWait := writeWait; w_timeToWrite := timeToWrite;
                  w_readEnqueue := readEnqueue; w_writeErr := Some e |}
       | None =>
           cxn <- getCxn c ;;
           let id := corrID cxn in
           putCxn c (set_corrID cxn (Int.int32 (id + 1))) ;;
           ret {| w_corrID := id; w_bytesWritten := bytesWritten;
                  w_writeWait := writeWait; w_timeToWrite := timeToWrite;
                  w_readEnqueue := readEnqueue; w_writeErr := None |}
       end
   end)%go.

(** The reading goroutine of [readConn]: the bytes read so far, the
    payload, the error. *)
Definition readFrame : M (Z * bytes * option error) :=
  ('(sizeBuf, err) <- readFull 4 ;;
   let nread := len sizeBuf in
   match err with
   | Some e => ret (nread, [], Some e)
   | None =>
       '(size, err) <- lift (parseReadSize (maxBrokerReadBytes config) sizeBuf) ;;
       match err with
       | Some e => ret (nread, [], Some e)
       | None =>
           '(buf, err) <- readFull size ;;
           ret (nread + len buf, buf, err)
       end
   end)%go.

(** [readConn]. *)
Definition readConn (c : ptr) (ctx : option Context) (timeout : time.Duration)
           (enqueuedForReadingAt : time.Time) : M wasRead :=
  (readStart <- Now ;;
   '(nread, buf, err) <- readFrame ;;
   timeToRead <- Since readStart ;;
   let readWait := time.Sub readStart enqueuedForReadingAt in
   sel <- selected ;;
   let err :=
     match sel, err with
     | IODone, _ => err
     | _, None => None
     | ClientCtxDone, Some _ => Some ErrClientClosed
     | CtxDone e, Some r =>
         match ctx with
         | None => Some r
         | Some cx => Some (maybeUpdateCtxErr cx e)
         end
     end in
   ret {| r_nread := nread; r_buf := buf; r_readWait := readWait;
          r_timeToRead := timeToRead; r_err := err |})%go.

(** What [readResponse] does with what [readConn] gave it. *)
Definition checkResponse (buf : bytes) (readErr : option error) (corrID : Z)
           (flexibleHeader : bool) : run (bytes * option error) :=
  match readErr with
  | Some e => Returns ([], Some e)
  | None =>
      if len buf <? 4 then Returns ([], Some ErrNotEnoughData)
      else
        (u <- BigEndian.Uint32 buf ;;
         let gotID := Int.int32 u in
         if negb (gotID =? corrID) then Returns ([], Some errCorrelationIDMismatch)
         else if flexibleHeader then Returns (SkipTags codec (skipn 4 buf))
         else Returns (skipn 4 buf, None))%run
  end.

(** [readResponse]. *)
Definition readResponse (c : ptr) (ctx : option Context) (key version corrID : Z)
           (flexibleHeader : bool) (timeout : time.Duration)
           (bytesWritten : Z) (writeWait timeToWrite : time.Duration)
           (readEnqueue : time.Time) : M (bytes * option error) :=
  (r <- readConn c ctx timeout readEnqueue ;;
   emit (HookRead key (r_nread r) (r_readWait r) (r_timeToRead r) (r_err r)) ;;
   emit (HookE2E key {| BytesWritten := bytesWritten; BytesRead := r_nread r;
                        WriteWait := writeWait; TimeToWrite := timeToWrite;
                        ReadWait := r_readWait r; TimeToRead := r_timeToRead r;
                        WriteErr := None; ReadErr := r_err r |}) ;;
   lift (checkResponse (r_buf r) (r_err r) corrID flexibleHeader))%go.

(** [closeConn] and [die]. *)
Definition closeConn (c : ptr) : M unit :=
  (emit (HookDisconnect c) ;; emit (ConnClose c))%go.

Definition die (c : ptr) : M unit :=
  (cxn <- getCxn c ;;
   if dead cxn then ret tt
   else
     putCxn c (set_dead cxn true) ;;
     closeConn c ;;
     cxn <- getCxn c ;;
     putCxn c (set_resps cxn (ringResp_die (resps cxn))))%go.

(** [waitResp]. *)
Definition waitResp (c : ptr) (pr : promisedResp) : M unit :=
  (cxn <- getCxn c ;;
   let '(r, (first, isDead)) := ringResp_push (resps cxn) pr in
   putCxn c (set_resps cxn r) ;;
   if first then emit (GoHandleResps c pr)
   else if isDead then
     emit (Promise (resp_promise pr) None (Some errChosenBrokerDead)) ;;
     hookWriteE2E (ResponseKey (resp pr)) (bytesWritten pr) (writeWait pr)
                  (timeToWrite pr) (Some errChosenBrokerDead)
   else ret tt)%go.

(* ================================================================== *)
(** ** API version negotiation: [requestAPIVersions] *)
(* ================================================================== *)

(** The two raw responses that make the client fall back to version 0:
    what Kafka before 2.4.0 answers, and what EventHubs answers. *)
Definition unsupportedV0 : bytes := [x00; x23; x00; x00; x00; x00].
Definition unsupportedEventHubs : bytes :=
  [x00; x23; x00; x00; x00; x00; x00; x00; x00; x00].

(** The loop over [resp.ApiKeys] that fills a fresh table. *)
Definition fillVersions (keys : list ApiVersionsResponseApiKey) : brokerVersions :=
  fold_left
    (fun v key =>
       if (ApiKey key >? MaxKey codec) || (ApiKey key <? 0) then v
       else update v (Z.to_nat (ApiKey key)) (ApiKeyMaxVersion key))
    keys newBrokerVersions.

(** The version [requestAPIVersions] starts at: 3, or the user's cap on
    key 18. *)
Definition apiVersionsStart : Z :=
  match maxVersions config with
  | None => 3
  | Some mv =>
      let '(userMax, exists_) := LookupMaxKeyVersion mv 18 in
      if exists_ && (0 <=? userMax) then userMax else 3
  end.

(** The first half of a pass of [requestAPIVersions]: the request at
    [maxVersion] is written and the raw response read.  It gives the error
    that ends the function, or the raw response. *)
Definition apiVersionsExchange (c : ptr) (req : Request) : M (error + bytes) :=
  (emit (Log LogLevelDebug "issuing api versions request") ;;
   t <- Now ;;
   w <- writeRequest c None t req "requestAPIVersions" ;;
   match w_writeErr w with
   | Some writeErr =>
       hookWriteE2E (Key req) (w_bytesWritten w) (w_writeWait w)
                    (w_timeToWrite w) (Some writeErr) ;;
       ret (inl writeErr)
   | None =>
       let rt := fst (timeouts codec req) in
       (* api versions does not use flexible response headers *)
       '(rawResp, err) <- readResponse c None (Key req) (Version req)
                            (w_corrID w) false rt (w_bytesWritten w)
                            (w_writeWait w) (w_timeToWrite w) (w_readEnqueue w) ;;
       match err with
       | Some e => ret (inl e)
       | None => ret (inr rawResp)
       end
   end)%go.

(** The end of a pass: decoding at [respVersion] and storing the table. *)
Definition apiVersionsDecode (respVersion : Z) (rawResp : bytes) : M (option error) :=
  let '(keys, err) := readApiVersions codec respVersion rawResp in
  match err with
  | Some e => ret (Some (errReadApiVersions e))
  | None =>
      if len keys =? 0 then ret (Some errNoApiKeys)
      else (storeVersions (fillVersions keys) ;; ret None)%go
  end.

Definition downgradeMsg : string :=
  "kafka does not know our ApiVersions version, downgrading to version 0 and retrying".

(** The body of [requestAPIVersions] from the label [start] on; [fuel]
    bounds the jumps back to it. *)
Fixpoint requestAPIVersionsFrom (fuel : nat) (c : ptr) (maxVersion : Z)
  : M (option error) :=
  match fuel with
  | O => outOfFuel
  | S fuel' =>
      (let req := mkRequest (ApiVersionsRequest (softwareName config)
                                                 (softwareVersion config))
                            maxVersion in
       exchanged <- apiVersionsExchange c req ;;
       match exchanged with
       | inl e => ret (Some e)
       | inr rawResp =>
           if len rawResp <? 2 then ret (Some (errShortApiVersions (len rawResp)))
           else
             b1 <- lift (index rawResp 1) ;;
             if byteZ b1 =? 35 then
               if maxVersion =? 0 then ret (Some errUnsupportedApiVersions0)
               else if bytes_eqb rawResp unsupportedV0
                       || bytes_eqb rawResp unsupportedEventHubs then
                 emit (Log LogLevelDebug downgradeMsg) ;;
                 requestAPIVersionsFrom fuel' c 0
               else apiVersionsDecode 0 rawResp
             else apiVersionsDecode (Version req) rawResp
       end)%go
  end.

(** [requestAPIVersions]: the jump back is taken at most once, since it
    sets [maxVersion] to 0 and is guarded by [maxVersion != 0]. *)
Definition requestAPIVersions (c : ptr) : M (option error) :=
  requestAPIVersionsFrom 2 c apiVersionsStart.

(* ================================================================== *)
(** ** SASL: [sasl] and [doSasl] *)
(* ================================================================== *)

(** The lower bound, in milliseconds, that [doSasl] puts on the latency it
    takes off a session lifetime. *)
Definition latencyFloor : Z := 2500.

(** [int64(float64(d.Milliseconds()) * 1.1)], floored at 2500. *)
Definition saslLatency (sincePrereq : time.Duration) : Z :=
  let latency :=
    float64.toInt64
      (float64.mul (float64.ofInt (time.Milliseconds sincePrereq)) float64.c1_1) in
  if latency <? latencyFloor then latencyFloor else latency.

Definition lifetimeMsg : string := "sasl has a limited lifetime".

Definition spinLoopMsg : string :=
  "sasl lifetime minus 2.5s lower bound latency results in immediate reauthentication, sleeping 100ms to avoid spin-loop".

(** The tail of [doSasl], after the challenge loop: what a session lifetime
    does to the connection. *)
Definition saslLifetime (c : ptr) (prereq : time.Time) (lifetimeMillis : Z)
  : M unit :=
  (if 0 <? lifetimeMillis then
     since <- Since prereq ;;
     let latency := saslLatency since in
     let useLifetime := Int.int64 (lifetimeMillis - latency) in
     now <- Now ;;
     cxn <- getCxn c ;;
     putCxn c (set_expiry cxn
                 (time.Add now (Int.int64 (useLifetime * time.Millisecond)))) ;;
     emit (Log LogLevelDebug lifetimeMsg) ;;
     if useLifetime <? 0 then
       emit (Log LogLevelInfo spinLoopMsg) ;;
       emit (Sleep (100 * time.Millisecond))
     else ret tt
   else ret tt)%go.

(** One round of the challenge loop of [doSasl]: the write, the read if the
    session is not done, and the session's answer.  It gives the error that
    ends [doSasl], or the loop variables for the next round. *)
Definition saslRound (c : ptr) (authenticate : bool) (requestId : string)
           (done : bool) (clientWrite : bytes) (prereq : time.Time)
           (lifetimeMillis : Z)
  : M (error + (bool * bytes * time.Time * Z)) :=
  (let authReq := mkRequest (SASLAuthenticateRequest []) 0 in
   let '(rt, wt) := timeouts codec authReq in
   exchanged <-
     (if negb authenticate then
        let buf := BigEndian.lenPrefix (len clientWrite) ++ clientWrite in
        emit (Log LogLevelDebug "issuing raw sasl authenticate") ;;
        t <- Now ;;
        '(_, _, _, _, err) <- writeConn c None buf wt t ;;
        match err with
        | Some e => ret (inl e)
        | None =>
            if negb done then
              t <- Now ;;
              r <- readConn c None rt t ;;
              match r_err r with
              | Some e => ret (inl e)
              | None => ret (inr (r_buf r, prereq, lifetimeMillis))
              end
            else ret (inr ([], prereq, lifetimeMillis))
        end
      else
        v <- loadVersions ;;
        version <- versionsAt v 36 ;;
        let req := mkRequest (SASLAuthenticateRequest clientWrite) version in
        emit (Log LogLevelDebug "issuing SASLAuthenticate") ;;
        prereq <- Now ;;
        t <- Now ;;
        w <- writeRequest c None t req requestId ;;
        (if (match w_writeErr w with Some _ => true | None => false end) || done
         then hookWriteE2E (Key req) (w_bytesWritten w) (w_writeWait w)
                           (w_timeToWrite w) (w_writeErr w)
         else ret tt) ;;
        match w_writeErr w with
        | Some writeErr => ret (inl writeErr)
        | None =>
            if negb done then
              '(rawResp, err) <- readResponse c None (Key req) (Version req)
                                   (w_corrID w) (IsFlexible codec req) rt
                                   (w_bytesWritten w) (w_writeWait w)
                                   (w_timeToWrite w) (w_readEnqueue w) ;;
              match err with
              | Some e => ret (inl e)
              | None =>
                  let '(resp, err) := readSASLAuthenticate codec (Version req) rawResp in
                  match err with
                  | Some e => ret (inl e)
                  | None =>
                      match ErrorForCode (AuthErrorCode resp) with
                      | Some e =>
                          match ErrorMessage resp with
                          | Some msg => ret (inl (errWithMessage msg e))
                          | None => ret (inl e)
                          end
                      | None =>
                          ret (inr (AuthBytes resp, prereq,
                                    SessionLifetimeMillis resp))
                      end
                  end
              end
            else ret (inr ([], prereq, lifetimeMillis))
        end) ;;
   match exchanged with
   | inl e => ret (inl e)
   | inr (challenge, prereq, lifetimeMillis) =>
       if negb done then
         '(done, clientWrite, err) <- Challenge challenge ;;
         match err with
         | Some e => ret (inl e)
         | None => ret (inr (done, clientWrite, prereq, lifetimeMillis))
         end
       else ret (inr (done, [], prereq, lifetimeMillis))
   end)%go.

(** The loop [for done := false; !done || len(clientWrite) > 0; {...}]. *)
Fixpoint saslLoop (fuel : nat) (c : ptr) (authenticate : bool) (requestId : string)
         (done : bool) (clientWrite : bytes) (prereq : time.Time)
         (lifetimeMillis : Z) : M (error + (time.Time * Z)) :=
  if negb done || (0 <? len clientWrite) then
    match fuel with
    | O => outOfFuel
    | S fuel' =>
        (r <- saslRound c authenticate requestId done clientWrite prereq
                        lifetimeMillis ;;
         match r with
         | inl e => ret (inl e)
         | inr (done, clientWrite, prereq, lifetimeMillis) =>
             saslLoop fuel' c authenticate requestId done clientWrite prereq
                      lifetimeMillis
         end)%go
    end
  else ret (inr (prereq, lifetimeMillis)).

(** The fuel that is always enough: every round but the last asks the
    session for its answer, which takes one entry of the script of
    challenges or fails for want of one. *)
Definition saslFuel : M nat :=
  (w <- getWorld ;; ret (S (S (List.length (challenges w)))))%go.

(** The first part of [doSasl], up to the end of the challenge loop: the
    error that ends [doSasl], or [prereq] and [lifetimeMillis] as the loop
    left them. *)
Definition saslChallenges (c : ptr) (authenticate : bool) (requestId : string)
  : M (error + (time.Time * Z)) :=
  ('(clientWrite, err) <- Authenticate ;;
   match err with
   | Some e => ret (inl e)
   | None =>
       if len clientWrite =? 0 then
         cxn <- getCxn c ;;
         ret (inl (errUnexpectedServerWrite
                     (match mechanism cxn with
                      | Some m => Name m
                      | None => EmptyString
                      end)))
       else
         cxn <- getCxn c ;;
         putCxn c (set_AuthRequestId cxn requestId) ;;
         prereq <- Now ;;
         fuel <- saslFuel ;;
         saslLoop fuel c authenticate requestId false clientWrite prereq 0
   end)%go.

(** [doSasl]. *)
Definition doSasl (c : ptr) (authenticate : bool) (requestId : string)
  : M (option error) :=
  (r <- saslChallenges c authenticate requestId ;;
   match r with
   | inl e => ret (Some e)
   | inr (prereq, lifetimeMillis) =>
       saslLifetime c prereq lifetimeMillis ;;
       ret None
   end)%go.

(** The body of [sasl] from the label [start] on. *)
Fixpoint saslFrom (fuel : nat) (c : ptr) (requestId : string)
         (v : option brokerVersions) (mech : Mechanism) (retried : bool)
  : M (option error) :=
  match fuel with
  | O => outOfFuel
  | S fuel' =>
      (handshakeVersion <-
         (if String.eqb (Name mech) "GSSAPI" then ret (-1)
          else versionsAt v 17) ;;
       let finish (authenticate : bool) : M (option error) :=
         emit (Log LogLevelDebug "beginning sasl authentication") ;;
         cxn <- getCxn c ;;
         putCxn c (set_mechanism cxn (Some mech)) ;;
         doSasl c authenticate requestId in
       if negb (String.eqb (Name mech) "GSSAPI") && (0 <=? handshakeVersion) then
         let req := mkRequest (SASLHandshakeRequest (Name mech)) handshakeVersion in
         emit (Log LogLevelDebug "issuing SASLHandshakeRequest") ;;
         t <- Now ;;
         w <- writeRequest c None t req requestId ;;
         match w_writeErr w with
         | Some writeErr =>
             hookWriteE2E (Key req) (w_bytesWritten w) (w_writeWait w)
                          (w_timeToWrite w) (Some writeErr) ;;
             ret (Some writeErr)
         | None =>
             let rt := fst (timeouts codec req) in
             '(rawResp, err) <- readResponse c None (Key req) (Version req)
                                  (w_corrID w) (IsFlexible codec req) rt
                                  (w_bytesWritten w) (w_writeWait w)
                                  (w_timeToWrite w) (w_readEnqueue w) ;;
             match err with
             | Some e => ret (Some e)
             | None =>
                 let '(resp, err) := readSASLHandshake codec (Version req) rawResp in
                 match err with
                 | Some e => ret (Some e)
                 | None =>
                     match ErrorForCode (HandshakeErrorCode resp) with
                     | Some e =>
                         if negb retried && error_is_kerr e 33 then
                           match find (fun ours =>
                                         existsb (fun supported =>
                                                    String.eqb supported (Name ours))
                                                 (SupportedMechanisms resp))
                                      (tl (sasls config)) with
                           | Some ours => saslFrom fuel' c requestId v ours true
                           | None => ret (Some e)
                           end
                         else ret (Some e)
                     | None => finish (Version req =? 1)
                     end
                 end
             end
         end
       else finish false)%go
  end.

(** [sasl]: the jump back to [start] is taken at most once, since it sets
    [retried]. *)
Definition sasl (c : ptr) (requestId : string) : M (option error) :=
  match sasls config with
  | [] => ret None
  | mech :: _ =>
      (v <- loadVersions ;; saslFrom 2 c requestId v mech false)%go
  end.

(* ================================================================== *)
(** ** Opening a connection: [connect], [init], [loadConnection] *)
(* ================================================================== *)

(** [connect]: only the error matters, the socket is the environment's. *)
Definition connect (requestId : string) : M (option error) :=
  (emit (Log LogLevelDebug "opening connection to broker") ;;
   err <- dial ;;
   emit (HookConnect err) ;;
   match err with
   | Some e => ret (Some (errUnableToDial e))
   | None => ret None
   end)%go.

(** [init]. *)
Definition init (c : ptr) (isProduceCxn : bool) (requestId : string)
  : M (option error) :=
  (v <- loadVersions ;;
   err <-
     match v with
     | Some _ => ret None
     | None =>
         if match maxVersions config with
            | None => true
            | Some mv => HasKey mv 18
            end
         then requestAPIVersions c
         else storeVersions newBrokerVersions ;; ret None
     end ;;
   match err with
   | Some e => ret (Some e)
   | None =>
       err <- sasl c requestId ;;
       match err with
       | Some e => ret (Some e)
       | None =>
           (if isProduceCxn && (acks config =? 0) then emit (GoDiscard c)
            else ret tt) ;;
           ret None
       end
   end)%go.

(** The connection a request goes to. *)
Definition route (req : Request) : slot :=
  let reqKey := Key req in
  if reqKey =? 0 then slotProduce
  else if reqKey =? 1 then slotFetch
  else if (reqKey =? 11) || (reqKey =? 14) then slotGroup
  else if isTimeoutRequest req then slotSlow
  else slotNormal.

(** [loadConnection]. *)
Definition loadConnection (requestId : string) (ctx : option Context)
           (req : Request) : M (error + ptr) :=
  (let pcxn := route req in
   let isProduceCxn := Key req =? 0 in
   x <- getBroker ;;
   existing <-
     match getSlot x pcxn with
     | None => ret None
     | Some c => cxn <- getCxn c ;; ret (if dead cxn then None else Some c)
     end ;;
   match existing with
   | Some c => ret (inr c)
   | None =>
       err <- connect requestId ;;
       match err with
       | Some e => ret (inl e)
       | None =>
           c <- newCxn {| addr := b_addr x; mechanism := None;
                          expiry := time.zero; throttleUntil := 0; corrID := 0;
                          resps := {| elems := []; ringDead := false |};
                          dead := false; AuthRequestId := EmptyString |} ;;
           err <- init c isProduceCxn requestId ;;
           match err with
           | Some e => closeConn c ;; ret (inl e)
           | None =>
               x <- getBroker ;;
               putBroker (setSlot x pcxn (Some c)) ;;
               ret (inr c)
           end
       end
   end)%go.

(* ================================================================== *)
(** ** The request pump: [handleReq] *)
(* ================================================================== *)

(** The message that announces each reauthentication. *)
Definition reauthMsg : string := "sasl expiry limit reached, reauthenticating".

Definition reauthLoopMsg : string :=
  "the broker has repeatedly given us short sasl lifetimes, we are forcefully killing our own connection to retry on a new connection ".

(** The loop
    [for reauthentications := 1; !cxn.expiry.IsZero() && time.Now().After(cxn.expiry); reauthentications++].
    It answers whether [handleReq] returned from inside it. *)
Fixpoint reauthenticate (fuel : nat) (c : ptr) (promise : nat)
         (requestId : string) (reauthentications : Z) : M bool :=
  match fuel with
  | O => outOfFuel
  | S fuel' =>
      (cxn <- getCxn c ;;
       expired <-
         (if time.IsZero (expiry cxn) then ret false
          else n <- Now ;; ret (time.After n (expiry cxn))) ;;
       if expired then
         if 15 <? reauthentications then
           emit (Log LogLevelError reauthLoopMsg) ;;
           emit (Promise promise None (Some errSaslReauthLoop)) ;;
           die c ;;
           ret true
         else
           emit (Log LogLevelDebug reauthMsg) ;;
           err <- sasl c requestId ;;
           match err with
           | Some e =>
               die c ;;
               emit (Promise promise None (Some e)) ;;
               ret true
           | None => reauthenticate fuel' c promise requestId (reauthentications + 1)
           end
       else ret false)%go
  end.

(** The type switch on the request just before it is written: the request
    as it goes out, [isNoResp] and [noResp]. *)
Definition produceSpecial (req : Request) : Request * bool * Response :=
  match body req with
  | produceRequest a => (req, a =? 0, nilProduceResponse)
  | ProduceRequest _ timeoutMillis =>
      let Acks := acks config in
      if Acks =? 0 then
        (mkRequest (ProduceRequest Acks
                      (Int.int32 (time.Milliseconds (produceTimeout config))))
                   (Version req),
         true, newProduceResponse (Version req))
      else
        (mkRequest (ProduceRequest Acks timeoutMillis) (Version req),
         false, newProduceResponse (Version req))
  | _ => (req, false, nilProduceResponse)
  end.

(** The [promisedResp] that [handleReq] hands to [waitResp] once [req] is
    written. *)
Definition pendingResponse (pr : promisedReq) (req : Request) (w : written)
  : promisedResp :=
  {| resp_ctx := pr_ctx pr;
     resp_corrID := w_corrID w;
     (* response header not flexible if ApiVersions *)
     flexibleHeader := IsFlexible codec req && negb (Key req =? 18);
     resp := ResponseKind (Key req) (Version req);
     resp_promise := pr_promise pr;
     readTimeout := fst (timeouts codec req);
     bytesWritten := w_bytesWritten w;
     writeWait := w_writeWait w;
     timeToWrite := w_timeToWrite w;
     readEnqueue := w_readEnqueue w |}.

(** The end of [handleReq], from the type switch on: the write and what
    becomes of the promise. *)
Definition dispatch (cxn : ptr) (pr : promisedReq) (req : Request)
           (requestId : string) : M unit :=
  (let promise := fun resp err => emit (Promise (pr_promise pr) resp err) in
   let '(req, isNoResp, noResp) := produceSpecial req in
   w <- writeRequest cxn (pr_ctx pr) (pr_enqueue pr) req requestId ;;
   match w_writeErr w with
   | Some writeErr =>
       promise None (Some writeErr) ;;
       die cxn ;;
       hookWriteE2E (Key req) (w_bytesWritten w) (w_writeWait w)
                    (w_timeToWrite w) (Some writeErr)
   | None =>
       if isNoResp then
         promise (Some noResp) None ;;
         hookWriteE2E (Key req) (w_bytesWritten w) (w_writeWait w)
                      (w_timeToWrite w) None
       else
         waitResp cxn (pendingResponse pr req w)
   end)%go.

(** [handleReq]. *)
Definition handleReq (pr : promisedReq) : M unit :=
  (let req := pr_req pr in
   let promise := fun resp err => emit (Promise (pr_promise pr) resp err) in
   ctx <- match pr_ctx pr with
          | None => throw NilDereference       (* pr.ctx.Value on a nil ctx *)
          | Some cx => ret cx
          end ;;
   let requestId := match requestIdValue ctx with
                    | Some id => id
                    | None => "empty-request-id"%string
                    end in
   loaded <- loadConnection requestId (pr_ctx pr) req ;;
   match loaded with
   | inl err => promise None (Some err)
   | inr cxn =>
       v <- loadVersions ;;
       if (brokerVersions_len <? Key req)
          || match maxVersions config with
             | None => false
             | Some mv => negb (HasKey mv (Key req))
             end
       then promise None (Some errUnknownRequestKey)
       else
         v0 <- versionsAt v 0 ;;
         tooOld <- (if 0 <=? v0 then vk <- versionsAt v (Key req) ;; ret (vk <? 0)
                    else ret false) ;;
         if tooOld then promise None (Some errBrokerTooOld)
         else
           let ourMax := MaxVersion codec req in
           let ourMax :=
             match maxVersions config with
             | None => ourMax
             | Some mv =>
                 let userMax := fst (LookupMaxKeyVersion mv (Key req)) in
                 if userMax <? ourMax then userMax else ourMax
             end in
           brokerMax <- versionsAt v (Key req) ;;
           let version :=
             if (0 <=? brokerMax) && (brokerMax <? ourMax) then brokerMax
             else ourMax in
           if match minVersions config with
              | None => false
              | Some mv =>
                  let '(minVersion, minVersionExists) :=
                    LookupMaxKeyVersion mv (Key req) in
                  minVersionExists && (version <? minVersion)
              end
           then promise None (Some errBrokerTooOld)
           else
             let req := SetVersion req version in
             _ <- Now ;;
             returned <- reauthenticate 16 cxn (pr_promise pr) requestId 1 ;;
             if returned then ret tt
             else
               cancelled <- ctxDone ;;
               match cancelled with
               | Some e => promise None (Some e)
               | None =>
                   dispatch cxn pr req requestId
               end
   end)%go.

(* ================================================================== *)
(** ** Successive writes on one connection *)
(* ================================================================== *)




End Broker.

(* ================================================================== *)
(** ** A small instance *)
(* ================================================================== *)

(** A codec, a configuration and an environment to run the functions
    above on: requests are framed as key, version and correlation ID, the
    broker advertises keys 0, 3, 17 and 36, and a SASLAuthenticate response
    carries its session lifetime, in units of 100 ms, in its fifth byte. *)
Module Example.

Definition codec : Codec :=
  {| MaxKey := 40;
     AppendRequest := fun buf req corrID =>
       buf ++ [toByte (Key req); toByte (Version req)]
           ++ BigEndian.lenPrefix corrID;
     MaxVersion := fun _ => 9;
     IsFlexible := fun _ => false;
     timeouts := fun _ => (10 * time.Millisecond, 10 * time.Millisecond);
     readApiVersions := fun _ _ =>
       ([ {| ApiKey := 0; ApiKeyMaxVersion := 7 |};
          {| ApiKey := 3; ApiKeyMaxVersion := 9 |};
          {| ApiKey := 17; ApiKeyMaxVersion := 1 |};
          {| ApiKey := 36; ApiKeyMaxVersion := 1 |} ], None);
     readSASLHandshake := fun _ _ =>
       ({| HandshakeErrorCode := 0; SupportedMechanisms := [] |}, None);
     readSASLAuthenticate := fun _ raw =>
       ({| AuthErrorCode := 0; ErrorMessage := None; AuthBytes := raw;
           SessionLifetimeMillis :=
             match raw with
             | l :: _ => byteZ l * 100
             | [] => 0
             end |}, None);
     SkipTags := fun x => (x, None) |}.

(** No SASL, acks as given. *)
Definition config (acks : Z) : cfg :=
  {| maxBrokerReadBytes := 104857600;
     acks := acks;
     produceTimeout := 10000 * time.Millisecond;
     maxVersions := None;
     minVersions := None;
     sasls := [];
     softwareName := "kgo";
     softwareVersion := "1" |}.

(** One SASL mechanism. *)
Definition saslConfig : cfg :=
  {| maxBrokerReadBytes := 104857600;
     acks := 1;
     produceTimeout := 10000 * time.Millisecond;
     maxVersions := None;
     minVersions := None;
     sasls := [ {| Name := "PLAIN" |} ];
     softwareName := "kgo";
     softwareVersion := "1" |}.

(** An environment with the given clock, socket and SASL sessions, in
    which the dialer connects once and nobody cancels. *)
Definition env (clock : list time.Time) (lastNow : time.Time)
           (writes : list writeOutcome) (inbound : bytes)
           (auths : list (bytes * option string))
           (chals : list (bool * bytes * option string)) : World :=
  {| clock := clock; lastNow := lastNow; dials := [None];
     connWrites := writes; inbound := inbound;
     selects := []; throttleWakes := []; ctxPolls := [];
     authenticates := auths; challenges := chals |}.

(** An environment that only has the given clock, socket writes and
    inbound bytes to offer. *)
Definition quiet (clock : list time.Time) (writes : list writeOutcome)
           (inbound : bytes) : World :=
  env clock 0 writes inbound [] [].

(** A response frame: the length prefix, the correlation ID, the body. *)
Definition frame (corrID : Z) (body : bytes) : bytes :=
  BigEndian.lenPrefix (4 + len body) ++ BigEndian.lenPrefix corrID ++ body.

Definition noBroker : broker :=
  {| b_addr := "localhost:9092"; versions := None;
     cxnNormal := None; cxnProduce := None; cxnFetch := None;
     cxnGroup := None; cxnSlow := None |}.

(** A connection as [loadConnection] creates it. *)
Definition freshCxn : brokerCxn :=
  {| addr := "localhost:9092"; mechanism := None; expiry := time.zero;
     throttleUntil := 0; corrID := 0;
     resps := {| elems := []; ringDead := false |};
     dead := false; AuthRequestId := EmptyString |}.

(** A broker whose versions are loaded and that has the connection 0 in
    its slot for ordinary requests. *)
Definition loadedBroker : broker :=
  {| b_addr := "localhost:9092";
     versions := Some (fillVersions codec (fst (readApiVersions codec 0 [])));
     cxnNormal := Some 0%nat; cxnProduce := None; cxnFetch := None;
     cxnGroup := None; cxnSlow := None |}.

(** The same broker with a connection whose SASL session ran out at
    [expiry]. *)
Definition expiredCxn (expiry : time.Time) : brokerCxn :=
  {| addr := "localhost:9092"; mechanism := Some {| Name := "PLAIN" |};
     expiry := expiry; throttleUntil := 0; corrID := 0;
     resps := {| elems := []; ringDead := false |};
     dead := false; AuthRequestId := EmptyString |}.

(** What the broker sends during the [n] SASL exchanges that start at
    correlation ID [k]: the handshake response and one SASLAuthenticate
    response with a session lifetime of [lifetime] * 100 ms. *)
Fixpoint saslInbound (n : nat) (k : Z) (lifetime : byte) : bytes :=
  match n with
  | O => []
  | S n' => frame k [] ++ frame (k + 1) [lifetime] ++ saslInbound n' (k + 2) lifetime
  end.

Definition ctx : Context := {| isClientCtx := false; requestIdValue := None |}.

Definition request (body : payload) : promisedReq :=
  {| pr_ctx := Some ctx; pr_req := mkRequest body 0; pr_promise := 1;
     pr_enqueue := 50 |}.


(** One SASLAuthenticate exchange on the small instance: the time before
    the write is read at 1010 ms, the response (lifetime 10000 ms) is there
    at 1200 ms, and the clock reads 1201 ms when the expiry is set. *)
Definition saslRun : State :=
  mkState loadedBroker [freshCxn]
          (env
             (map (fun ms => ms * time.Millisecond)
                  [1000; 1010; 1010; 1020; 1030; 1040; 1200; 1200; 1201])
             0 [WriteAll] (frame 0 [x64])
             [([x01], None)] [(true, [], None)])
          [].

(** Three SASLAuthenticate requests on the small instance.  The first
    is written after the clock read 1010 ms and answered with a lifetime of
    5000 ms; the second is written after 2010 ms and answered with a
    lifetime of 10000 ms, upon which the session is done but has one more
    thing to send; the third is written after 3010 ms and not answered.
    The clock reads 6010 ms and then 6011 ms when the expiry is set. *)
Definition saslExchanges : State :=
  mkState loadedBroker [freshCxn]
          (env
             (map (fun ms => ms * time.Millisecond)
                  [1000;
                   1010; 1010; 1020; 1030; 1040; 1200;
                   2010; 2010; 2020; 2030; 2040; 2200;
                   3010; 3010; 3020; 3030;
                   6010; 6011])
             0 [WriteAll; WriteAll; WriteAll]
             (frame 0 [x32] ++ frame 1 [x64])
             [([x01], None)] [(false, [x02], None); (true, [x03], None)])
          [].

(** Sixteen short lifetimes in a row: the broker answers every
    SASLAuthenticate with a session lifetime of 1000 ms, less than the
    2500 ms taken off it.  The dispatch reauthenticates 15 times, sleeping
    100 ms each time, then fails the promise and kills the connection; the
    next request dials. *)
Definition shortLifetimes : State :=
  mkState loadedBroker [expiredCxn 1]
          (env [] 1000000000000 (repeat WriteAll 30)
             (saslInbound 15 0 x0a)
             (repeat ([x01], None) 15) (repeat (true, [], None) 15))
          [].

End Example.

(* ================================================================== *)
(** ** Counting reauthentications *)
(* ================================================================== *)

(** Whether an event is the announcement of a reauthentication. *)
Definition isReauth (e : event) : bool :=
  match e with
  | Log LogLevelDebug msg => String.eqb msg reauthMsg
  | _ => false
  end.

(** The number of reauthentications announced in a trace. *)
Definition reauths (evs : list event) : nat :=
  List.length (filter isReauth evs).

(** The events a run added to the trace. *)
Definition emitted (s s' : State) : list event :=
  skipn (List.length (trace s)) (trace s').

(* ================================================================== *)
(** ** Predicates on runs *)
(* ================================================================== *)

(** What a step that only asks the environment leaves alone: the broker,
    the heap, the trace and the script of socket writes. *)
Definition quietly (s s' : State) : Prop :=
  b s' = b s /\ heap s' = heap s /\ trace s' = trace s /\
  connWrites (world s') = connWrites (world s).

(** A computation that does not end for want of fuel. *)
Definition noOut {A} (m : M A) : Prop := forall s, fst (m s) <> OutOfFuel.

(** [s'] comes after [s] with at most [n] reauthentications announced in
    between, and without the script of challenges having grown. *)
Definition after (n : nat) (s s' : State) : Prop :=
  (List.length (challenges (world s')) <= List.length (challenges (world s)))%nat /\
  exists evs, trace s' = trace s ++ evs /\ (reauths evs <= n)%nat.

Definition bounded (n : nat) {A} (m : M A) : Prop :=
  forall s, after n s (snd (m s)).


(* ================================================================== *)
(** ** Broker identity: [logID], [unknownSeedID], [BrokerMetadata.equals] *)
(* ================================================================== *)

(** [logID]: [strconv.FormatInt(_, 10)] is [%d]. *)
Definition logID (id : Z) : string :=
  if id >=? -10 then Fmt.d (Int.int64 id)
  else String.append "seed " (Fmt.d (Int.int64 (Int.int64 id - Int.MinInt32))).

(** [unknownSeedID]: the sum is made in [int], then cut to [int32]. *)
Definition unknownSeedID (seedNum : Z) : Z :=
  Int.int32 (Int.int64 (Int.MinInt32 + seedNum)).

Definition unknownControllerID : Z := -1.

Record BrokerMetadata : Type := {
  NodeID : Z;                          (* int32 *)
  Port : Z;                            (* int32 *)
  Host : string;
  Rack : option string                 (* *string *)
}.

Module kmsg.

(** The four fields of [kmsg.MetadataResponseBroker] that [equals] reads. *)
Record MetadataResponseBroker : Type := {
  NodeID : Z;
  Host : string;
  Port : Z;
  Rack : option string
}.

End kmsg.

Definition unknownBrokerMetadata : BrokerMetadata :=
  {| NodeID := -1; Port := 0; Host := EmptyString; Rack := None |}.

(** [p == nil] and [*p == *q] on string pointers; the second is only
    reached behind the guard that both are non-nil. *)
Definition isNil {A} (p : option A) : bool :=
  match p with
  | None => true
  | Some _ => false
  end.

Definition derefEqb (p q : option string) : bool :=
  match p, q with
  | Some x, Some y => String.eqb x y
  | _, _ => false
  end.

(** [BrokerMetadata.equals]. *)
Definition equals (me : BrokerMetadata) (other : kmsg.MetadataResponseBroker) : bool :=
  (NodeID me =? kmsg.NodeID other) &&
  (Port me =? kmsg.Port other) &&
  String.eqb (Host me) (kmsg.Host other) &&
  (isNil (Rack me) && isNil (kmsg.Rack other)
   || negb (isNil (Rack me)) && negb (isNil (kmsg.Rack other))
      && derefEqb (Rack me) (kmsg.Rack other)).

(* ================================================================== *)
(** ** Relations that every step of a run keeps *)
(* ================================================================== *)

(** A computation keeps [R] when [R] holds between the state it starts in
    and the state it ends in, however it ends. *)
Definition preserves (R : State -> State -> Prop) {A} (m : M A) : Prop :=
  forall s, R s (snd (m s)).

(** [s'] continues the trace of [s] with events that all satisfy [P]. *)
Definition extends (P : event -> Prop) (s s' : State) : Prop :=
  exists evs, trace s' = trace s ++ evs /\ Forall P evs.

(** A step that talks to the environment and does nothing else. *)
Definition worldOnly {A} (m : M A) : Prop :=
  forall s, b (snd (m s)) = b s /\ heap (snd (m s)) = heap s /\
            trace (snd (m s)) = trace s.

Definition isPromise (e : event) : bool :=
  match e with
  | Promise _ _ _ => true
  | _ => false
  end.

(** The number of calls of a promise in a trace. *)
Definition promises (evs : list event) : nat :=
  List.length (filter isPromise evs).

(** An event that is not a call of a promise other than [id]. *)
Definition promiseOf (id : nat) (e : event) : Prop :=
  match e with
  | Promise id' _ _ => id' = id
  | _ => True
  end.

(** An event that is not a call of a promise at all. *)
Definition notPromise (e : event) : Prop := isPromise e = false.

(** A computation that calls no promise but [id], and this one no more
    often than the bound [q] allows for the way the run ends. *)
Definition answersBy (id : nat) {A} (q : run A -> nat) (m : M A) : Prop :=
  forall s, exists evs,
    trace (snd (m s)) = trace s ++ evs /\
    Forall (promiseOf id) evs /\
    (promises evs <= q (fst (m s)))%nat.

(** The bound on the loop of [handleReq]: it has called the promise if it
    says that [handleReq] returned from inside it. *)
Definition reauthBound (r : run bool) : nat :=
  match r with
  | Returns false => 0
  | _ => 1
  end.

(** Between [s] and [s'] the promise [id] has been called. *)
Definition answered (id : nat) (s s' : State) : Prop :=
  exists evs r e, trace s' = trace s ++ evs /\ In (Promise id r e) evs.

(** In [s'] a response for the promise [id] waits on the queue of a
    connection. *)
Definition queued (id : nat) (s' : State) : Prop :=
  exists c x p,
    nth_error (heap s') c = Some x /\ In p (elems (resps x)) /\
    resp_promise p = id.

(** A computation that, when it returns a result that [Q] marks, has
    called the promise [id] or has queued a response for it. *)
Definition settles (id : nat) {A} (Q : A -> bool) (m : M A) : Prop :=
  forall s a s',
    m s = (Returns a, s') -> Q a = true -> answered id s s' \/ queued id s'.

(** Every result. *)
Definition always {A} (a : A) : bool := true.

Definition anyEvent (e : event) : Prop := True.

(** An event that is not a write to a socket. *)
Definition notConnWrite (e : event) : Prop :=
  match e with
  | ConnWrite _ _ => False
  | _ => True
  end.

(** An event that is not a write to a socket other than the write of
    [buf] to the connection [c]. *)
Definition writeOf (c : ptr) (buf : bytes) (e : event) : Prop :=
  match e with
  | ConnWrite c' buf' => c' = c /\ buf' = buf
  | _ => True
  end.

(* ================================================================== *)
(** ** The response worker: [handleResps], [handleResp] *)
(* ================================================================== *)

Definition set_throttleUntil (x : brokerCxn) (t : Z) : brokerCxn :=
  {| addr := addr x; mechanism := mechanism x; expiry := expiry x;
     throttleUntil := t; corrID := corrID x; resps := resps x;
     dead := dead x; AuthRequestId := AuthRequestId x |}.

(** [t.UnixNano()]. *)
Definition UnixNano (t : time.Time) : Z := Int.int64 t.

(** [resp.GetVersion()]; on the nil produce response it reads through a
    nil pointer. *)
Definition GetVersion (r : Response) : run Z :=
  match r with
  | nilProduceResponse => Panics NilDereference
  | newProduceResponse v => Returns v
  | ResponseKind _ v => Returns v
  end.

(** [errors.Is(err, target)] for the sentinel [target] that [eq]
    recognises: the chain of [%w] wrappers of broker.go is followed. *)
Fixpoint errorsIs (eq : error -> bool) (err : error) : bool :=
  eq err ||
  match err with
  | errReadApiVersions cause => errorsIs eq cause
  | errUnableToDial cause => errorsIs eq cause
  | errWithMessage _ cause => errorsIs eq cause
  | _ => false
  end.

Definition isErrClientClosed (e : error) : bool :=
  match e with
  | ErrClientClosed => true
  | _ => false
  end.

Definition isContextCanceled (e : error) : bool :=
  match e with
  | ctxCanceled => true
  | _ => false
  end.

(** What [handleResp] asks of a response shell: to read itself from the
    raw bytes, and, when its type is a [kmsg.ThrottleResponse], the
    throttle it then reports ([millis], an [int32], and
    [throttlesAfterResp]). *)
Record Decoder : Type := {
  ReadFrom : Response -> bytes -> option error;
  Throttle : Response -> bytes -> option (Z * bool)
}.

(** What the response worker of a connection keeps besides the state
    above: the connection's count of successful reads ([cxn.successes], a
    [uint64]) and the calls it made of the throttle hook
    ([OnBrokerThrottle], with the throttle interval and
    [throttlesAfterResp]), in order. *)
Record respWorker : Type := {
  successes : Z;
  throttleHooks : list (time.Duration * bool)
}.

Definition set_successes (w : respWorker) (n : Z) : respWorker :=
  {| successes := n; throttleHooks := throttleHooks w |}.

Definition hookThrottle (w : respWorker) (d : time.Duration) (after : bool)
  : respWorker :=
  {| successes := successes w; throttleHooks := throttleHooks w ++ [(d, after)] |}.

(** Modelled from the spec: [dropPeek] on the queue of a connection, "pop
    the head, peek at the new head, report more, dead".  The new head is
    given when there is more. *)
Definition ringResp_dropPeek (r : ringResp)
  : ringResp * (option promisedResp * bool) :=
  let rest := tl (elems r) in
  ({| elems := rest; ringDead := ringDead r |}, (hd_error rest, ringDead r)).

Definition readErrMsg : string := "read from broker errored, killing connection".

Definition readErrNoSaslMsg : string :=
  "read from broker errored, killing connection after 0 successful responses (is sasl missing?)".

Section Worker.

Variable codec : Codec.
Variable config : cfg.
Variable decoder : Decoder.

(** The throttle part of [handleResp], for a response read without
    error. *)
Definition applyThrottle (c : ptr) (pr : promisedResp) (rawResp : bytes)
           (w : respWorker) : M respWorker :=
  match Throttle decoder (resp pr) rawResp with
  | None => ret w
  | Some (millis, throttlesAfterResp) =>
      if 0 <? millis then
        ((if throttlesAfterResp then
            now <- Now ;;
            let until := UnixNano (time.Add now
                                     (Int.int64 (time.Millisecond * millis))) in
            cxn <- getCxn c ;;
            if until >? throttleUntil cxn
            then putCxn c (set_throttleUntil cxn until)
            else ret tt
          else ret tt) ;;
         ret (hookThrottle w (Int.int64 (millis * time.Millisecond))
                           throttlesAfterResp))%go
      else ret w
  end.

(** [handleResp]. *)
Definition handleResp (c : ptr) (requestId : string) (pr : promisedResp)
           (w : respWorker) : M respWorker :=
  (version <- lift (GetVersion (resp pr)) ;;
   '(rawResp, err) <- readResponse codec config c (resp_ctx pr)
                        (ResponseKey (resp pr)) version (resp_corrID pr)
                        (flexibleHeader pr) (readTimeout pr) (bytesWritten pr)
                        (writeWait pr) (timeToWrite pr) (readEnqueue pr) ;;
   match err with
   | Some err =>
       (if negb (errorsIs isErrClientClosed err)
           && negb (errorsIs isContextCanceled err) then
          if (0 <? successes w) || (0 <? len (sasls config))
          then emit (Log LogLevelDebug readErrMsg)
          else emit (Log LogLevelWarn readErrNoSaslMsg)
        else ret tt) ;;
       emit (Log LogLevelWarn "xing-read from broker errored, killing connection ") ;;
       emit (Promise (resp_promise pr) None (Some err)) ;;
       die c ;;
       ret w
   | None =>
       let w := set_successes w ((successes w + 1) mod 2 ^ 64) in
       let readErr := ReadFrom decoder (resp pr) rawResp in
       w <- match readErr with
            | None => applyThrottle c pr rawResp w
            | Some _ =>
                emit (Log LogLevelDebug "read error from broker errored") ;;
                ret w
            end ;;
       emit (Promise (resp_promise pr) (Some (resp pr)) readErr) ;;
       ret w
   end)%go.

(** The body of [handleResps] from the label [start] on, with the loop
    variables [pr] and [dead]; [fuel] bounds the jumps back. *)
Fixpoint handleRespsFrom (fuel : nat) (c : ptr) (requestId : string)
         (pr : promisedResp) (isDead : bool) (w : respWorker) : M respWorker :=
  match fuel with
  | O => outOfFuel
  | S fuel' =>
      (w <- (if isDead then
               emit (Promise (resp_promise pr) None (Some errChosenBrokerDead)) ;;
               hookWriteE2E (ResponseKey (resp pr)) (bytesWritten pr)
                            (writeWait pr) (timeToWrite pr)
                            (Some errChosenBrokerDead) ;;
               ret w
             else handleResp c requestId pr w) ;;
       cxn <- getCxn c ;;
       let '(r, (next, isDead)) := ringResp_dropPeek (resps cxn) in
       putCxn c (set_resps cxn r) ;;
       match next with
       | Some pr => handleRespsFrom fuel' c requestId pr isDead w
       | None => ret w
       end)%go
  end.

(** [handleResps]: every pass drops one response from the queue, and
    nothing the worker calls adds one. *)
Definition handleResps (c : ptr) (requestId : string) (pr : promisedResp)
           (w : respWorker) : M respWorker :=
  (cxn <- getCxn c ;;
   handleRespsFrom (S (List.length (elems (resps cxn)))) c requestId pr false w)%go.

End Worker.

(** The event [e] is a call of the promise of the response [p]. *)
Definition answersTo (e : event) (p : promisedResp) : Prop :=
  exists r err, e = Promise (resp_promise p) r err.

(** How the worker answers a response it finds on a dead queue. *)
Definition deadAnswer (p : promisedResp) : event :=
  Promise (resp_promise p) None (Some errChosenBrokerDead).

(** A decoder for the small instance: every response reads without error
    and reports a throttle of as many seconds as its first byte says, to
    apply after the response. *)
Definition exampleDecoder : Decoder :=
  {| ReadFrom := fun _ _ => None;
     Throttle := fun _ raw =>
       match raw with
       | t :: _ => Some (byteZ t * 1000, true)
       | [] => None
       end |}.

(** A response for the promise [id], awaited under the correlation ID
    [corrID]. *)
Definition examplePending (id : nat) (corrID : Z) : promisedResp :=
  {| resp_ctx := None; resp_corrID := corrID; flexibleHeader := false;
     resp := ResponseKind 3 0; resp_promise := id; readTimeout := 0;
     bytesWritten := 0; writeWait := 0; timeToWrite := 0; readEnqueue := 0 |}.

Definition freshWorker : respWorker := {| successes := 0; throttleHooks := [] |}.

(* ================================================================== *)
(** ** The reaper: [broker.reapConnections] *)
(* ================================================================== *)

(** The four fields of [brokerCxn] that the reaper reads: the Unix
    nanoseconds of the last write and of the last read, and the two flags
    that are 1 while a write or a read is under way.  They are kept beside
    the heap, by pointer; [reapConnections] only reads them. *)
Record reapFields : Type := {
  lastWrite : Z;                       (* int64, atomic *)
  lastRead : Z;                        (* int64, atomic *)
  writing : Z;                         (* uint32, atomic *)
  reading : Z                          (* uint32, atomic *)
}.

Section Reaper.

Variable idleTimeout : time.Duration.
Variable activity : ptr -> reapFields.

(** The body of the loop of [reapConnections] for one of the five
    pointers: whether the connection was reaped. *)
Definition reapCxn (cxn : option ptr) : M bool :=
  match cxn with
  | None => ret false
  | Some c =>
      (x <- getCxn c ;;
       if dead x then ret false
       else
         let lastWrite := time.Unix 0 (lastWrite (activity c)) in
         let lastRead := time.Unix 0 (lastRead (activity c)) in
         sinceWrite <- Since lastWrite ;;
         let writeIdle := (sinceWrite >? idleTimeout)
                          && (writing (activity c) =? 0) in
         sinceRead <- Since lastRead ;;
         let readIdle := (sinceRead >? idleTimeout)
                         && (reading (activity c) =? 0) in
         if writeIdle && readIdle then die c ;; ret true
         else ret false)%go
  end.

(** The loop over the slice of the five pointers. *)
Fixpoint reapEach (cxns : list (option ptr)) (total : Z) : M Z :=
  match cxns with
  | [] => ret total
  | cxn :: rest =>
      (reaped <- reapCxn cxn ;;
       reapEach rest (if reaped then total + 1 else total))%go
  end.

(** [broker.reapConnections]. *)
Definition reapConnections : M Z :=
  (x <- getBroker ;;
   reapEach [cxnNormal x; cxnProduce x; cxnFetch x; cxnGroup x; cxnSlow x] 0)%go.

End Reaper.

(** Whether the reaper, at a time when the clock reads [now], finds the
    connection [c] idle in both directions and not busy. *)
Definition reapable (idleTimeout : time.Duration) (activity : ptr -> reapFields)
           (now : time.Time) (c : ptr) : bool :=
  (time.Sub now (time.Unix 0 (lastWrite (activity c))) >? idleTimeout)
  && (writing (activity c) =? 0)
  && ((time.Sub now (time.Unix 0 (lastRead (activity c))) >? idleTimeout)
      && (reading (activity c) =? 0)).

(** The pointers of the five slots of a broker. *)
Definition slots (x : broker) : list (option ptr) :=
  [cxnNormal x; cxnProduce x; cxnFetch x; cxnGroup x; cxnSlow x].

Definition inSlots (x : broker) (c : ptr) : bool :=
  existsb (fun sl => match sl with
                     | Some c' => Nat.eqb c' c
                     | None => false
                     end) (slots x).

(** An event that is not the closing of a socket that is busy or that no
    slot of the broker [x] points to. *)
Definition spared (activity : ptr -> reapFields) (x : broker) (e : event)
  : Prop :=
  match e with
  | ConnClose c =>
      writing (activity c) = 0 /\ reading (activity c) = 0 /\
      inSlots x c = true
  | _ => True
  end.

(** An activity for the small instance: every connection last wrote at
    1000 ns and last read at 2000 ns, and is not busy. *)
Definition exampleActivity (c : ptr) : reapFields :=
  {| lastWrite := 1000; lastRead := 2000; writing := 0; reading := 0 |}.

(* ================================================================== *)
(** ** The request queue of a broker: [do], [handleReqs], [stopForever] *)
(* ================================================================== *)

(** Modelled from the spec: the queue [ringReq] of a broker (ring.go is
    not part of this development), "a mutex-protected list with push ->
    (was_empty, is_dead), drop_peek -> (new_head?, is_dead), and die"; as
    for [ringResp], a push on a dead queue enqueues nothing. *)
Record ringReq : Type := {
  reqElems : list promisedReq;
  reqDead : bool
}.

Definition ringReq_push (r : ringReq) (pr : promisedReq)
  : ringReq * (bool * bool) :=
  if reqDead r then (r, (false, true))
  else ({| reqElems := reqElems r ++ [pr]; reqDead := false |},
        (match reqElems r with [] => true | _ => false end, false)).

Definition ringReq_dropPeek (r : ringReq)
  : ringReq * (option promisedReq * bool) :=
  let rest := tl (reqElems r) in
  ({| reqElems := rest; reqDead := reqDead r |}, (hd_error rest, reqDead r)).

Definition ringReq_die (r : ringReq) : ringReq :=
  {| reqElems := reqElems r; reqDead := true |}.

(** The two fields of [broker] that only the three functions below touch;
    they are passed from call to call. *)
Record pump : Type := {
  reqs : ringReq;
  brokerDead : bool                    (* [b.dead], an atomic int32 *)
}.

(** [cxn.die()] on one of the five pointers, which may be nil: [die]
    returns at once on a nil receiver. *)
Definition dieNilable (cxn : option ptr) : M unit :=
  match cxn with
  | None => ret tt
  | Some c => die c
  end.

(** [stopForever]. *)
Definition stopForever (p : pump) : M pump :=
  if brokerDead p then ret p           (* atomic.SwapInt32(&b.dead, 1) == 1 *)
  else
    (let p := {| reqs := ringReq_die (reqs p); brokerDead := true |} in
     x <- getBroker ;;
     dieNilable (cxnNormal x) ;;
     dieNilable (cxnProduce x) ;;
     dieNilable (cxnFetch x) ;;
     dieNilable (cxnGroup x) ;;
     dieNilable (cxnSlow x) ;;
     emit (Log LogLevelDebug "xing-stopping all brokers") ;;
     ret p)%go.

(** [do]: the queue as the call leaves it, and the request for which a
    worker ([go b.handleReqs(pr)]) is started, if one is. *)
Definition do (p : pump) (ctx : option Context) (req : Request) (promise : nat)
  : M (pump * option promisedReq) :=
  (now <- Now ;;
   let pr := {| pr_ctx := ctx; pr_req := req; pr_promise := promise;
                pr_enqueue := now |} in
   let '(r, (first, isDead)) := ringReq_push (reqs p) pr in
   let p := {| reqs := r; brokerDead := brokerDead p |} in
   if first then ret (p, Some pr)
   else if isDead then
     emit (Promise promise None (Some errChosenBrokerDead)) ;;
     ret (p, None)
   else ret (p, None))%go.

Section Pump.

Variable codec : Codec.
Variable config : cfg.

(** The body of [handleReqs] from the label [start] on, with the loop
    variables [pr] and [dead]; [fuel] bounds the jumps back. *)
Fixpoint handleReqsFrom (fuel : nat) (p : pump) (pr : promisedReq)
         (isDead : bool) : M pump :=
  match fuel with
  | O => outOfFuel
  | S fuel' =>
      ((if isDead
        then emit (Promise (pr_promise pr) None (Some errChosenBrokerDead))
        else handleReq codec config pr) ;;
       let '(r, (next, isDead)) := ringReq_dropPeek (reqs p) in
       let p := {| reqs := r; brokerDead := brokerDead p |} in
       match next with
       | Some pr => handleReqsFrom fuel' p pr isDead
       | None => ret p
       end)%go
  end.

(** [handleReqs]: every pass drops one request from the queue. *)
Definition handleReqs (p : pump) (pr : promisedReq) : M pump :=
  handleReqsFrom (S (List.length (reqElems (reqs p)))) p pr false.

End Pump.

(** A pump for the small instance: the given requests on a queue that is
    alive or dead, on a broker that is not stopped. *)
Definition examplePump (queue : list promisedReq) (isDead : bool) : pump :=
  {| reqs := {| reqElems := queue; reqDead := isDead |}; brokerDead := false |}.

(* ================================================================== *)
(** ** The exchanges of a SASL authentication *)
(* ================================================================== *)

(** What the statement about the session lifetime speaks of.  One
    SASLAuthenticate exchange of [doSasl]: the time read just before its
    request is written, and the response read back, if the round reads
    one.  The exchanges below are given on the steps of the environment and
    of the connection ([Now], [writeRequest], [readResponse], [Challenge]),
    not on the loop of [doSasl], which is [saslRound] and [saslLoop]; the
    two readings are compared in [exchanged_saslRound] and
    [saslRound_exchanged]. *)
Record exchange : Type := {
  x_prereq : time.Time;
  x_response : option SASLAuthenticateResponse
}.

(** The time read before the last write, and the last response read. *)
Definition finalWrite (xs : list exchange) : option time.Time :=
  fold_left (fun _ x => Some (x_prereq x)) xs None.

Definition finalResponse (xs : list exchange) : option SASLAuthenticateResponse :=
  fold_left (fun r x => match x_response x with
                        | Some resp => Some resp
                        | None => r
                        end) xs None.

Section Exchanges.

Variable codec : Codec.
Variable config : cfg.

(** One exchange, step by step on the environment: in state [s] the
    session has [clientWrite] to send and is [done] or not; the exchange
    [x] takes place, after which the session is [done'] with [clientWrite']
    to send, in state [s'].  A session that is not done reads the response
    and hands its bytes to the mechanism; a session that is done only
    writes. *)
Inductive exchanged (c : ptr) (requestId : string) (clientWrite : bytes)
          (s : State)
  : bool -> exchange -> bool -> bytes -> State -> Prop :=
| exchanged_answered
    v version s0 prereq s1 t s2 w s3 rawResp s4 resp done' clientWrite' s' :
    let req := mkRequest (SASLAuthenticateRequest clientWrite) version in
    let rt := fst (timeouts codec (mkRequest (SASLAuthenticateRequest []) 0)) in
    loadVersions s = (Returns v, s) ->
    versionsAt v 36 s = (Returns version, s) ->
    emit (Log LogLevelDebug "issuing SASLAuthenticate") s = (Returns tt, s0) ->
    Now s0 = (Returns prereq, s1) ->
    Now s1 = (Returns t, s2) ->
    writeRequest codec c None t req requestId s2 = (Returns w, s3) ->
    w_writeErr w = None ->
    readResponse codec config c None (Key req) (Version req) (w_corrID w)
                 (IsFlexible codec req) rt (w_bytesWritten w) (w_writeWait w)
                 (w_timeToWrite w) (w_readEnqueue w) s3
    = (Returns (rawResp, None), s4) ->
    readSASLAuthenticate codec (Version req) rawResp = (resp, None) ->
    ErrorForCode (AuthErrorCode resp) = None ->
    Challenge (AuthBytes resp) s4 = (Returns (done', clientWrite', None), s') ->
    exchanged c requestId clientWrite s
              false {| x_prereq := prereq; x_response := Some resp |}
              done' clientWrite' s'
| exchanged_unanswered
    v version s0 prereq s1 t s2 w s3 s' :
    let req := mkRequest (SASLAuthenticateRequest clientWrite) version in
    loadVersions s = (Returns v, s) ->
    versionsAt v 36 s = (Returns version, s) ->
    emit (Log LogLevelDebug "issuing SASLAuthenticate") s = (Returns tt, s0) ->
    Now s0 = (Returns prereq, s1) ->
    Now s1 = (Returns t, s2) ->
    writeRequest codec c None t req requestId s2 = (Returns w, s3) ->
    w_writeErr w = None ->
    hookWriteE2E (Key req) (w_bytesWritten w) (w_writeWait w) (w_timeToWrite w)
                 None s3
    = (Returns tt, s') ->
    exchanged c requestId clientWrite s
              true {| x_prereq := prereq; x_response := None |}
              true [] s'.

(** The exchanges that follow one another until the session is done and
    has nothing left to send. *)
Inductive exchanges (c : ptr) (requestId : string)
  : bool -> bytes -> State -> list exchange -> State -> Prop :=
| exchanges_end s :
    exchanges c requestId true [] s [] s
| exchanges_more done clientWrite s x done' clientWrite' s1 xs s2 :
    negb done || (0 <? len clientWrite) = true ->
    exchanged c requestId clientWrite s done x done' clientWrite' s1 ->
    exchanges c requestId done' clientWrite' s1 xs s2 ->
    exchanges c requestId done clientWrite s (x :: xs) s2.

(** An authentication over SASLAuthenticate requests from state [s]: the
    mechanism opens the session with something to send, the request ID is
    noted on the connection, the clock is read, and the exchanges [xs]
    follow, ending in state [s']. *)
Inductive authenticated (c : ptr) (requestId : string) (s : State)
  : list exchange -> State -> Prop :=
| authenticated_by clientWrite s0 cxn s1 t s2 xs s' :
    Authenticate s = (Returns (clientWrite, None), s0) ->
    0 < len clientWrite ->
    getCxn c s0 = (Returns cxn, s0) ->
    putCxn c (set_AuthRequestId cxn requestId) s0 = (Returns tt, s1) ->
    Now s1 = (Returns t, s2) ->
    exchanges c requestId false clientWrite s2 xs s' ->
    authenticated c requestId s xs s'.

End Exchanges.

(* ================================================================== *)
(** * Properties *)
(* ================================================================== *)

(** ** Fixed-width integers and byte order *)

Module IntFacts.
Import Int.

Lemma wrap_small w z :
  0 < w -> - 2 ^ (w - 1) <= z < 2 ^ (w - 1) -> wrap w z = z.
Proof.
  intros Hw Hz. unfold wrap.
  assert (E : 2 ^ w = 2 * 2 ^ (w - 1)).
  { replace w with (Z.succ (w - 1)) at 1 by lia.
    rewrite Z.pow_succ_r by lia. reflexivity. }
  rewrite Z.mod_small by lia. lia.
Qed.

Lemma int32_small z : in_int32 z -> int32 z = z.
Proof.
  unfold in_int32, MinInt32, MaxInt32, int32. intros H.
  apply wrap_small; [lia|]. change (2 ^ (32 - 1)) with 2147483648. lia.
Qed.

Lemma int32_range z : in_int32 (int32 z).
Proof.
  unfold in_int32, MinInt32, MaxInt32, int32, wrap.
  change (2 ^ (32 - 1)) with 2147483648. change (2 ^ 32) with 4294967296.
  pose proof (Z.mod_pos_bound (z + 2147483648) 4294967296 ltac:(lia)). lia.
Qed.

(** [int32] of an unsigned 32-bit value, by cases on the sign bit. *)
Lemma int32_of_uint32 u :
  0 <= u < 2 ^ 32 ->
  int32 u = if u <? 2 ^ 31 then u else u - 2 ^ 32.
Proof.
  intros Hu. unfold int32, wrap.
  change (2 ^ (32 - 1)) with 2147483648 in *.
  change (2 ^ 32) with 4294967296 in *. change (2 ^ 31) with 2147483648.
  destruct (Z.ltb_spec u 2147483648).
  - rewrite Z.mod_small by lia. lia.
  - replace (u + 2147483648) with ((u - 2147483648) + 1 * 4294967296) by lia.
    rewrite Z.mod_add by lia. rewrite Z.mod_small by lia. lia.
Qed.

End IntFacts.

Lemma byteZ_range b : 0 <= byteZ b < 256.
Proof.
  unfold byteZ. pose proof (Byte.to_N_bounded b). lia.
Qed.

Lemma byteZ_toByte v : byteZ (toByte v) = v mod 256.
Proof.
  unfold byteZ, toByte.
  pose proof (Z.mod_pos_bound v 256 ltac:(lia)) as Hb.
  destruct (Byte.of_N (Z.to_N (v mod 256))) as [b|] eqn:E.
  - apply Byte.to_of_N in E. rewrite E. lia.
  - apply Byte.of_N_None_iff in E. lia.
Qed.

Lemma toByte_byteZ b : toByte (byteZ b) = b.
Proof.
  unfold toByte. rewrite Z.mod_small by apply byteZ_range.
  unfold byteZ. rewrite N2Z.id, Byte.of_to_N. reflexivity.
Qed.

Module BigEndianFacts.
Import BigEndian.

Lemma PutUint32_zeros n :
  PutUint32 [x00; x00; x00; x00] (Int.uint32 n) = Returns (lenPrefix n).
Proof. reflexivity. Qed.

(** The four bytes of a 32-bit value, glued back together. *)
Lemma glue_bytes v :
  0 <= v < 2 ^ 32 ->
  Z.lor (Z.lor (Z.lor (v mod 256) (Z.shiftl (Z.shiftr v 8 mod 256) 8))
               (Z.shiftl (Z.shiftr v 16 mod 256) 16))
        (Z.shiftl (Z.shiftr v 24 mod 256) 24) = v.
Proof.
  intros Hv. apply Z.bits_inj'. intros n Hn.
  change 256 with (2 ^ 8).
  rewrite !Z.lor_spec, !Z.shiftl_spec by lia.
  rewrite !Z.testbit_mod_pow2 by lia.
  destruct (Z.ltb_spec n 8).
  { rewrite !(Z.testbit_neg_r _ (n - _)) by lia.
    rewrite !andb_false_r, !orb_false_r. reflexivity. }
  destruct (Z.ltb_spec n 16).
  { rewrite !(Z.testbit_neg_r _ (n - 16)), !(Z.testbit_neg_r _ (n - 24)) by lia.
    rewrite Z.shiftr_spec by lia.
    replace (n - 8 <? 8) with true by (symmetry; apply Z.ltb_lt; lia).
    replace (n - 8 + 8) with n by lia.
    rewrite !andb_false_r, !orb_false_r. reflexivity. }
  destruct (Z.ltb_spec n 24).
  { rewrite !(Z.testbit_neg_r _ (n - 24)) by lia.
    rewrite !Z.shiftr_spec by lia.
    replace (n - 8 <? 8) with false by (symmetry; apply Z.ltb_ge; lia).
    replace (n - 16 <? 8) with true by (symmetry; apply Z.ltb_lt; lia).
    replace (n - 16 + 16) with n by lia.
    rewrite !andb_false_r, !orb_false_r. reflexivity. }
  rewrite !Z.shiftr_spec by lia.
  replace (n - 8 <? 8) with false by (symmetry; apply Z.ltb_ge; lia).
  replace (n - 16 <? 8) with false by (symmetry; apply Z.ltb_ge; lia).
  replace (n - 24 + 24) with n by lia.
  destruct (Z.ltb_spec (n - 24) 8).
  { reflexivity. }
  simpl. symmetry. apply Z.bits_above_log2; [lia|].
  destruct (Z.eq_dec v 0) as [->|Hnz]; [simpl; lia|].
  apply Z.log2_lt_pow2; [lia|].
  apply Z.lt_le_trans with (2 ^ 32); [lia|].
  apply Z.pow_le_mono_r; lia.
Qed.

(** Decoding undoes encoding on 32-bit values. *)
Lemma Uint32_lenPrefix n :
  Uint32 (lenPrefix n) = Returns (Int.uint32 n).
Proof.
  unfold Uint32, lenPrefix. rewrite !byteZ_toByte. f_equal.
  apply glue_bytes. unfold Int.uint32. apply Z.mod_pos_bound. lia.
Qed.

Lemma lor_bound a b k :
  0 <= k -> 0 <= a < 2 ^ k -> 0 <= b < 2 ^ k -> 0 <= Z.lor a b < 2 ^ k.
Proof.
  intros Hk Ha Hb.
  assert (N : 0 <= Z.lor a b) by (apply Z.lor_nonneg; lia).
  split; [exact N|].
  destruct (Z.eq_dec (Z.lor a b) 0) as [->|Hnz]; [lia|].
  assert (Hk' : 0 < k).
  { destruct (Z.eq_dec k 0) as [->|]; [|lia].
    exfalso. apply Hnz. replace a with 0 by (simpl in *; lia).
    replace b with 0 by (simpl in *; lia). reflexivity. }
  apply Z.log2_lt_pow2; [lia|].
  rewrite Z.log2_lor by lia.
  apply Z.max_lub_lt.
  - destruct (Z.eq_dec a 0) as [->|]; [simpl; lia|].
    apply Z.log2_lt_pow2; lia.
  - destruct (Z.eq_dec b 0) as [->|]; [simpl; lia|].
    apply Z.log2_lt_pow2; lia.
Qed.

Lemma shiftl_byte_bound x k :
  0 <= k <= 24 -> 0 <= x < 256 -> 0 <= Z.shiftl x k < 2 ^ 32.
Proof.
  intros Hk Hx. rewrite Z.shiftl_mul_pow2 by lia.
  assert (0 < 2 ^ k) by (apply Z.pow_pos_nonneg; lia).
  assert (2 ^ k <= 2 ^ 24) by (apply Z.pow_le_mono_r; lia).
  change (2 ^ 24) with 16777216 in *. change (2 ^ 32) with 4294967296. nia.
Qed.

Lemma Uint32_range b v : Uint32 b = Returns v -> 0 <= v < 2 ^ 32.
Proof.
  destruct b as [|b0 [|b1 [|b2 [|b3 rest]]]]; try discriminate.
  unfold Uint32. intros [= <-].
  pose proof (byteZ_range b0). pose proof (byteZ_range b1).
  pose proof (byteZ_range b2). pose proof (byteZ_range b3).
  assert (0 <= byteZ b3 < 2 ^ 32)
    by (change (2 ^ 32) with 4294967296; lia).
  pose proof (shiftl_byte_bound (byteZ b2) 8 ltac:(lia) ltac:(lia)).
  pose proof (shiftl_byte_bound (byteZ b1) 16 ltac:(lia) ltac:(lia)).
  pose proof (shiftl_byte_bound (byteZ b0) 24 ltac:(lia) ltac:(lia)).
  repeat (apply lor_bound; [lia| |assumption]). assumption.
Qed.

End BigEndianFacts.

(* ================================================================== *)
(** ** [parseReadSize] *)
(* ================================================================== *)

Section ParseReadSize.

Import BigEndian.

(** A slice of four bytes decodes to some unsigned 32-bit value. *)
Lemma Uint32_four b0 b1 b2 b3 :
  exists u, Uint32 [b0; b1; b2; b3] = Returns u /\ 0 <= u < 2 ^ 32.
Proof.
  eexists. split; [reflexivity|].
  apply (BigEndianFacts.Uint32_range [b0; b1; b2; b3]). reflexivity.
Qed.

(** [parseReadSize] by cases, on a slice of four bytes. *)
Lemma parseReadSize_cases maxSize b0 b1 b2 b3 u :
  Uint32 [b0; b1; b2; b3] = Returns u ->
  parseReadSize maxSize [b0; b1; b2; b3] =
  Returns
    (let size := Int.int32 u in
     if size <? 0 then (0, Some (errNegativeSize size))
     else if size >? maxSize then
       if maxSize =? 0x48545450 then (0, Some (errLargeSizeHTTP size maxSize))
       else if (byteZ b0 =? 21) && negb (Z.land (tlsVersionOf b1 b2) 0x0300 =? 0)
            then (0, Some (errLargeSizeTLS size maxSize
                                           (versionGuess (tlsVersionOf b1 b2))))
            else (0, Some (errLargeSize size maxSize))
     else (size, None)).
Proof.
  intros Hu. unfold parseReadSize. rewrite Hu. cbn [run_bind].
  cbv zeta.
  destruct (Int.int32 u <? 0); [reflexivity|].
  destruct (Int.int32 u >? maxSize); [|reflexivity].
  destruct (maxSize =? 0x48545450); [reflexivity|].
  change (index [b0; b1; b2; b3] 0) with (Returns b0).
  change (index [b0; b1; b2; b3] 1) with (Returns b1).
  change (index [b0; b1; b2; b3] 2) with (Returns b2).
  cbn [run_bind].
  destruct ((byteZ b0 =? 21) && negb (Z.land (tlsVersionOf b1 b2) 768 =? 0));
    reflexivity.
Qed.



End ParseReadSize.

Section ParseReadSizeClaims.

Import BigEndian.

(** The names [parseReadSize] has for the versions it knows, and its
    fallback for the others. *)
Lemma versionGuess_values :
  versionGuess 0x0300 = "SSL v3"%string /\
  versionGuess 0x0301 = "TLS v1.0"%string /\
  versionGuess 0x0302 = "TLS v1.1"%string /\
  versionGuess 0x0303 = "TLS v1.2"%string /\
  versionGuess 0x0304 = "TLS v1.3"%string /\
  forall v, ~ (0x0300 <= v <= 0x0304) ->
            versionGuess v =
            String.append "unknown TLS version (hex "
                          (String.append (Fmt.x v) ")").
Proof.
  repeat (split; [reflexivity|]).
  intros v Hv. unfold versionGuess, tlsGuesses.
  unfold tls.VersionSSL30, tls.VersionTLS10, tls.VersionTLS11,
    tls.VersionTLS12, tls.VersionTLS13.
  cbn [fold_left fst snd].
  repeat match goal with
         | |- context [v =? ?k] => destruct (Z.eqb_spec v k); [lia|]
         end.
  reflexivity.
Qed.

(** C9.  [parseReadSize] undoes the length prefix: for a ceiling
    [maxBrokerReadBytes] (an [int32]) and every [N] with
    [0 <= N <= maxBrokerReadBytes], decoding the four big-endian bytes of
    [N] returns [N] and no error; and whatever decodes to a negative
    [int32] is rejected with the negative-size error. *)
Theorem parseReadSize_lenPrefix_roundtrip (maxSize : Z) :
  maxSize <= Int.MaxInt32 ->
  (forall N, 0 <= N <= maxSize ->
             parseReadSize maxSize (lenPrefix N) = Returns (N, None)) /\
  (forall sizeBuf u,
      Uint32 sizeBuf = Returns u -> Int.int32 u < 0 ->
      parseReadSize maxSize sizeBuf
      = Returns (0, Some (errNegativeSize (Int.int32 u)))).
Proof.
  intros Hmax. split.
  - intros N HN. unfold Int.MaxInt32 in Hmax.
    assert (HU : Int.uint32 N = N).
    { unfold Int.uint32. apply Z.mod_small.
      change (2 ^ 32) with 4294967296. lia. }
    pose proof (BigEndianFacts.Uint32_lenPrefix N) as HD. rewrite HU in HD.
    unfold lenPrefix in *.
    rewrite (parseReadSize_cases _ _ _ _ _ _ HD). cbv zeta.
    rewrite IntFacts.int32_small
      by (unfold Int.in_int32, Int.MinInt32, Int.MaxInt32; lia).
    destruct (Z.ltb_spec N 0); [lia|].
    destruct (Z.gtb_spec N maxSize); [lia|]. reflexivity.
  - intros sizeBuf u Hu Hneg. unfold parseReadSize. rewrite Hu.
    cbn [run_bind]. cbv zeta.
    destruct (Z.ltb_spec (Int.int32 u) 0); [reflexivity|lia].
Qed.

Lemma parseReadSize_lenPrefix_roundtrip_witness :
  104857600 <= Int.MaxInt32 /\
  parseReadSize 104857600 (lenPrefix 1000) = Returns (1000, None) /\
  parseReadSize 104857600 [xff; xff; xff; xfe]
  = Returns (0, Some (errNegativeSize (-2))).
Proof.
  assert (H : 104857600 <= Int.MaxInt32) by (unfold Int.MaxInt32; lia).
  destruct (parseReadSize_lenPrefix_roundtrip 104857600 H) as [Hround Hneg].
  split; [exact H|]. split.
  - apply Hround. lia.
  - apply (Hneg [xff; xff; xff; xfe] 4294967294); [reflexivity|].
    vm_compute. reflexivity.
Defined.

(** C3 (the code departs from it).  When the four size bytes spell
    "HTTP" and the ceiling is below their value 0x48545450, [parseReadSize]
    does not give the error that asks whether the broker port is correct:
    it gives the plain "invalid large response size" error, because the
    test for "HTTP" looks at the ceiling instead of at the size. *)
Theorem parseReadSize_HTTP_prefix_plain_error (maxSize : Z) :
  maxSize < 0x48545450 ->
  parseReadSize maxSize [x48; x54; x54; x50]
  = Returns (0, Some (errLargeSize 0x48545450 maxSize)).
Proof.
  intros Hmax.
  rewrite (parseReadSize_cases maxSize x48 x54 x54 x50 0x48545450)
    by reflexivity.
  cbv zeta. change (Int.int32 0x48545450) with 0x48545450.
  change (0x48545450 <? 0) with false. cbv iota.
  destruct (Z.gtb_spec 0x48545450 maxSize); [|lia].
  destruct (Z.eqb_spec maxSize 0x48545450); [lia|].
  reflexivity.
Qed.

Lemma parseReadSize_HTTP_prefix_plain_error_witness :
  104857600 < 0x48545450 /\
  parseReadSize 104857600 [x48; x54; x54; x50]
  = Returns (0, Some (errLargeSize 1213486160 104857600)) /\
  option_map Error (Some (errLargeSize 1213486160 104857600))
  = Some (Some "invalid large response size 1213486160 > limit 104857600"%string).
Proof.
  assert (H : 104857600 < 0x48545450) by lia.
  split; [exact H|]. split.
  - exact (parseReadSize_HTTP_prefix_plain_error 104857600 H).
  - reflexivity.
Defined.




End ParseReadSizeClaims.

(* ================================================================== *)
(** ** Running the monad *)
(* ================================================================== *)

Lemma bind_Returns {A B} (m : M A) (k : A -> M B) s a s' :
  m s = (Returns a, s') -> bind m k s = k a s'.
Proof. intros H. unfold bind. rewrite H. reflexivity. Qed.

Lemma bind_Panics {A B} (m : M A) (k : A -> M B) s p s' :
  m s = (Panics p, s') -> bind m k s = (Panics p, s').
Proof. intros H. unfold bind. rewrite H. reflexivity. Qed.

Lemma bind_OutOfFuel {A B} (m : M A) (k : A -> M B) s s' :
  m s = (OutOfFuel, s') -> bind m k s = (OutOfFuel, s').
Proof. intros H. unfold bind. rewrite H. reflexivity. Qed.

Lemma bind_assoc {A B C} (m : M A) (k0 : A -> M B) (k : B -> M C) s :
  bind (bind m k0) k s = bind m (fun a => bind (k0 a) k) s.
Proof. unfold bind. destruct (m s) as [[a|p|] s']; reflexivity. Qed.

Lemma bind_ret {A B} (a : A) (k : A -> M B) s : bind (ret a) k s = k a s.
Proof. reflexivity. Qed.

(** Runs the first step of a computation whose result is known. *)
Ltac step E :=
  rewrite ?bind_assoc; rewrite (bind_Returns _ _ _ _ _ E); rewrite ?bind_ret.

Lemma quietly_refl s : quietly s s.
Proof. repeat split. Qed.

Lemma quietly_trans s1 s2 s3 : quietly s1 s2 -> quietly s2 s3 -> quietly s1 s3.
Proof. intros (? & ? & ? & ?) (? & ? & ? & ?). repeat split; congruence. Qed.

(** The environment always answers. *)
Lemma Now_returns s : exists t s', Now s = (Returns t, s') /\ quietly s s'.
Proof.
  unfold Now, bind, getWorld, putWorld, ret, quietly.
  destruct (clock (world s)); cbn; eauto 7.
Qed.

Lemma selected_returns s : exists x s', selected s = (Returns x, s') /\ quietly s s'.
Proof.
  unfold selected, bind, getWorld, putWorld, ret, quietly.
  destruct (selects (world s)); cbn; eauto 7.
Qed.

Lemma readFull_returns n s :
  exists bs err s',
    readFull n s = (Returns (bs, err), s') /\
    (err = None -> List.length bs = Z.to_nat n) /\
    (forall e, err = Some e -> exists msg, e = otherError msg) /\
    quietly s s'.
Proof.
  unfold readFull, bind, getWorld, putWorld, ret, quietly. cbn.
  destruct (Nat.leb_spec (Z.to_nat n) (List.length (inbound (world s)))).
  - do 3 eexists. split; [reflexivity|]. cbn. repeat split.
    + intros _. apply firstn_length_le. assumption.
    + intros e He. discriminate.
  - do 3 eexists. split; [reflexivity|]. cbn. repeat split.
    + intros He. discriminate.
    + intros e [= <-]. eauto.
Qed.

(* ================================================================== *)
(** ** [readConn] and [readResponse] *)
(* ================================================================== *)

Section Reading.

Variable codec : Codec.
Variable config : cfg.

(** The errors [parseReadSize] can give are its own four. *)
Lemma parseReadSize_errors maxSize b0 b1 b2 b3 :
  exists size err,
    parseReadSize maxSize [b0; b1; b2; b3] = Returns (size, err) /\
    err <> Some errCorrelationIDMismatch.
Proof.
  destruct (Uint32_four b0 b1 b2 b3) as (u & Hu & _).
  rewrite (parseReadSize_cases _ _ _ _ _ _ Hu). cbv zeta.
  repeat match goal with
         | |- context [if ?x then _ else _] => destruct x
         end; do 2 eexists; (split; [reflexivity|discriminate]).
Qed.

(** The reading goroutine always comes back, and never with the
    correlation-ID error. *)
Lemma readFrame_returns s :
  exists n buf err s',
    readFrame config s = (Returns (n, buf, err), s') /\
    err <> Some errCorrelationIDMismatch /\
    quietly s s'.
Proof.
  unfold readFrame.
  destruct (readFull_returns 4 s) as (bs & err & s1 & E1 & Hlen & Herr & F1).
  rewrite (bind_Returns _ _ _ _ _ E1).
  destruct err as [e|].
  - destruct (Herr e eq_refl) as [msg ->].
    unfold ret. do 4 eexists. split; [reflexivity|]. split; [discriminate|exact F1].
  - specialize (Hlen eq_refl). change (Z.to_nat 4) with 4%nat in Hlen.
    destruct bs as [|b0 [|b1 [|b2 [|b3 [|? ?]]]]]; try discriminate.
    destruct (parseReadSize_errors (maxBrokerReadBytes config) b0 b1 b2 b3)
      as (size & perr & EP & HP).
    unfold lift at 1. unfold bind at 1. rewrite EP.
    destruct perr as [e|].
    + unfold ret. do 4 eexists. split; [reflexivity|]. split; [exact HP|exact F1].
    + destruct (readFull_returns size s1)
        as (buf & err2 & s2 & E2 & _ & Herr2 & F2).
      rewrite (bind_Returns _ _ _ _ _ E2). unfold ret.
      do 4 eexists. split; [reflexivity|]. split.
      * destruct err2 as [e|]; [|discriminate].
        destruct (Herr2 e eq_refl) as [msg ->]. discriminate.
      * eapply quietly_trans; eassumption.
Qed.

(** [readConn] always returns, and never with the correlation-ID error. *)
Lemma readConn_returns c ctx timeout enq s :
  exists r s',
    readConn config c ctx timeout enq s = (Returns r, s') /\
    r_err r <> Some errCorrelationIDMismatch /\
    quietly s s'.
Proof.
  unfold readConn.
  destruct (Now_returns s) as (t & s1 & E1 & F1).
  rewrite (bind_Returns _ _ _ _ _ E1).
  destruct (readFrame_returns s1) as (n & buf & err & s2 & E2 & HE & F2).
  rewrite (bind_Returns _ _ _ _ _ E2).
  unfold Since.
  destruct (Now_returns s2) as (t3 & s3 & E3 & F3).
  rewrite (bind_Returns _ _ _ _ _ (bind_Returns _ _ _ _ _ E3)).
  unfold ret at 1.
  destruct (selected_returns s3) as (sel & s4 & E4 & F4).
  rewrite (bind_Returns _ _ _ _ _ E4).
  unfold ret. do 2 eexists. split; [reflexivity|]. cbn [r_err]. split.
  - destruct sel as [| |e], err as [x|]; try discriminate; try assumption.
    destruct ctx as [cx|]; [|assumption].
    unfold maybeUpdateCtxErr. destruct (isClientCtx cx); [discriminate|].
    destruct e; discriminate.
  - eauto using quietly_trans.
Qed.

(** [readResponse] is [checkResponse] on what [readConn] gave. *)
Lemma readResponse_check c ctx key version corrID flexible timeout bw ww tw renq s r s1 :
  readConn config c ctx timeout renq s = (Returns r, s1) ->
  fst (readResponse codec config c ctx key version corrID flexible timeout
                    bw ww tw renq s)
  = checkResponse codec (r_buf r) (r_err r) corrID flexible.
Proof.
  intros E. unfold readResponse. rewrite (bind_Returns _ _ _ _ _ E).
  unfold bind, emit, lift. cbn. reflexivity.
Qed.

(** C10.  [readResponse] reads a frame with [readConn], which always
    returns.  When the frame was read without error and its payload is
    shorter than 4 bytes, the result is [kbin.ErrNotEnoughData]; the
    correlation-ID mismatch error comes out only of a frame read without
    error whose payload has at least 4 bytes; and on such a frame it comes
    out whenever the first four bytes differ from the expected ID. *)
Theorem readResponse_short_payload
        c ctx key version corrID flexible timeout bw ww tw renq s :
  exists r s1,
    readConn config c ctx timeout renq s = (Returns r, s1) /\
    let result := fst (readResponse codec config c ctx key version corrID
                                    flexible timeout bw ww tw renq s) in
    (r_err r = None -> len (r_buf r) < 4 ->
     result = Returns ([], Some ErrNotEnoughData)) /\
    (forall x, result = Returns (x, Some errCorrelationIDMismatch) ->
               r_err r = None /\ 4 <= len (r_buf r)) /\
    (forall u, r_err r = None -> 4 <= len (r_buf r) ->
               BigEndian.Uint32 (r_buf r) = Returns u ->
               Int.int32 u <> corrID ->
               result = Returns ([], Some errCorrelationIDMismatch)).
Proof.
  destruct (readConn_returns c ctx timeout renq s) as (r & s1 & E & HE & _).
  exists r, s1. split; [exact E|]. cbv zeta.
  rewrite (readResponse_check _ _ _ _ _ _ _ _ _ _ _ _ _ _ E).
  unfold checkResponse. split; [|split].
  - intros -> Hshort.
    destruct (Z.ltb_spec (len (r_buf r)) 4); [reflexivity|lia].
  - intros x. destruct (r_err r) as [e|].
    { intros [= _ ->]. contradiction HE. reflexivity. }
    destruct (Z.ltb_spec (len (r_buf r)) 4); [discriminate|].
    intros _. split; [reflexivity|lia].
  - intros u -> Hlong Hu Hne.
    destruct (Z.ltb_spec (len (r_buf r)) 4); [lia|].
    rewrite Hu. cbn [run_bind].
    destruct (Z.eqb_spec (Int.int32 u) corrID); [contradiction|]. reflexivity.
Qed.

End Reading.

(** A frame whose payload has two bytes: not enough for a correlation ID. *)
Lemma readResponse_short_payload_witness :
  let s := mkState Example.noBroker [Example.freshCxn]
                   (Example.quiet [] [] [x00; x00; x00; x02; x00; x01]) [] in
  fst (readResponse Example.codec (Example.config 1) 0%nat None 3 0 0 false 0
                    0 0 0 0 s)
  = Returns ([], Some ErrNotEnoughData).
Proof.
  intros s.
  destruct (readResponse_short_payload Example.codec (Example.config 1) 0%nat None
                                       3 0 0 false 0 0 0 0 0 s)
    as (r & s1 & E & Hshort & _).
  vm_compute in E. injection E as <- _.
  apply Hshort; [reflexivity|]. vm_compute. reflexivity.
Defined.

(* ================================================================== *)
(** ** [writeRequest] and the correlation ID *)
(* ================================================================== *)

Lemma update_length {A} (l : list A) i x : List.length (update l i x) = List.length l.
Proof.
  revert i. induction l as [|h t IH]; intros [|i]; cbn; congruence.
Qed.

Lemma nth_error_update_eq {A} (l : list A) i x y :
  nth_error l i = Some y -> nth_error (update l i x) i = Some x.
Proof.
  revert i. induction l as [|h t IH]; intros [|i]; cbn; try discriminate; auto.
Qed.

Lemma nth_error_update_neq {A} (l : list A) i j x :
  i <> j -> nth_error (update l i x) j = nth_error l j.
Proof.
  revert i j. induction l as [|h t IH]; intros [|i] [|j] H; cbn; auto; congruence.
Qed.

Lemma getCxn_valid c s x :
  nth_error (heap s) c = Some x -> getCxn c s = (Returns x, s).
Proof. intros H. unfold getCxn. rewrite H. reflexivity. Qed.

Lemma getCxn_invalid c s :
  nth_error (heap s) c = None -> getCxn c s = (Panics NilDereference, s).
Proof. intros H. unfold getCxn. rewrite H. reflexivity. Qed.

Lemma throttleWoken_returns s :
  exists x s', throttleWoken s = (Returns x, s') /\ quietly s s'.
Proof.
  unfold throttleWoken, bind, getWorld, putWorld, ret, quietly.
  destruct (throttleWakes (world s)); cbn; eauto 7.
Qed.

Lemma Now_quietly s : exists t s', Now s = (Returns t, s') /\ quietly s s'.
Proof. exact (Now_returns s). Qed.

Lemma selected_quietly s : exists x s', selected s = (Returns x, s') /\ quietly s s'.
Proof. exact (selected_returns s). Qed.

Lemma Since_returns t s : exists d s', Since t s = (Returns d, s') /\ quietly s s'.
Proof.
  unfold Since. destruct (Now_quietly s) as (n & s' & E & F).
  rewrite (bind_Returns _ _ _ _ _ E). unfold ret. eauto.
Qed.

Lemma Until_returns t s : exists d s', Until t s = (Returns d, s') /\ quietly s s'.
Proof.
  unfold Until. destruct (Now_quietly s) as (n & s' & E & F).
  rewrite (bind_Returns _ _ _ _ _ E). unfold ret. eauto.
Qed.

Lemma connWrite_returns c buf s :
  exists n err s',
    connWrite c buf s = (Returns (n, err), s') /\
    b s' = b s /\ heap s' = heap s /\ trace s' = trace s ++ [ConnWrite c buf] /\
    (err = None -> connWrites (world s) = WriteAll :: connWrites (world s')) /\
    (List.length (connWrites (world s')) <= List.length (connWrites (world s)))%nat /\
    (forall rest, connWrites (world s) = WriteAll :: rest -> err = None).
Proof.
  unfold connWrite, bind, emit, getWorld, putWorld, ret. cbn.
  destruct (connWrites (world s)) as [|[|n msg] rest] eqn:E; cbn;
    do 3 eexists; (split; [reflexivity|]); cbn; rewrite ?E; repeat split;
      try (intros; discriminate); try reflexivity; cbn; try lia.
Qed.

Lemma throttleWait_returns c ctx s x :
  nth_error (heap s) c = Some x ->
  exists r s', throttleWait c ctx s = (Returns r, s') /\ quietly s s'.
Proof.
  intros Hc. unfold throttleWait. destruct ctx as [cx|].
  - rewrite (bind_Returns _ _ _ _ _ (getCxn_valid _ _ _ Hc)).
    destruct (Until_returns (time.Unix 0 (throttleUntil x)) s) as (d & s1 & E1 & F1).
    rewrite (bind_Returns _ _ _ _ _ E1).
    destruct (0 <? d).
    + destruct (throttleWoken_returns s1) as (wk & s2 & E2 & F2).
      rewrite (bind_Returns _ _ _ _ _ E2). unfold ret.
      do 2 eexists. split; [reflexivity|]. eapply quietly_trans; eassumption.
    + unfold ret. eauto.
  - unfold ret. do 2 eexists. split; [reflexivity|apply quietly_refl].
Qed.

Lemma writeConn_returns c ctx buf timeout enq s :
  exists n ww tw re err s',
    writeConn c ctx buf timeout enq s = (Returns (n, ww, tw, re, err), s') /\
    b s' = b s /\ heap s' = heap s /\ trace s' = trace s ++ [ConnWrite c buf] /\
    (err = None -> connWrites (world s) = WriteAll :: connWrites (world s')) /\
    (List.length (connWrites (world s')) <= List.length (connWrites (world s)))%nat /\
    (forall rest, connWrites (world s) = WriteAll :: rest -> err = None).
Proof.
  unfold writeConn.
  destruct (Now_quietly s) as (t1 & s1 & E1 & B1 & H1 & T1 & W1).
  rewrite (bind_Returns _ _ _ _ _ E1).
  destruct (connWrite_returns c buf s1)
    as (n & err & s2 & E2 & B2 & H2 & T2 & W2 & L2 & A2).
  rewrite (bind_Returns _ _ _ _ _ E2).
  destruct (Now_quietly s2) as (t3 & s3 & E3 & B3 & H3 & T3 & W3).
  rewrite (bind_Returns _ _ _ _ _ E3).
  destruct (selected_quietly s3) as (sel & s4 & E4 & B4 & H4 & T4 & W4).
  rewrite (bind_Returns _ _ _ _ _ E4).
  unfold ret. do 6 eexists. split; [reflexivity|].
  split; [congruence|]. split; [congruence|]. split; [congruence|].
  rewrite W4, W3, <- W1. split; [|split].
  - intros Herr. apply W2.
    destruct sel as [| |e], err as [x|]; try discriminate; try reflexivity.
    destruct ctx; discriminate.
  - exact L2.
  - intros rest Hr. rewrite (A2 rest Hr). destruct sel; reflexivity.
Qed.

Section WriteRequest.

Variable codec : Codec.

(** [writeRequest] on a live pointer returns; a successful write returns the
    counter and bumps it, a failed one leaves the heap as it was.  Without
    a context there is no throttling, and the trace gains the write and its
    hook. *)
Lemma writeRequest_spec c ctx enq req id s cxn :
  nth_error (heap s) c = Some cxn ->
  exists w s',
    writeRequest codec c ctx enq req id s = (Returns w, s') /\
    b s' = b s /\
    match w_writeErr w with
    | None =>
        w_corrID w = corrID cxn /\
        heap s' = update (heap s) c (set_corrID cxn (Int.int32 (corrID cxn + 1)))
    | Some _ => heap s' = heap s
    end /\
    (ctx = None ->
     trace s' = trace s ++ [ConnWrite c (AppendRequest codec [] req (corrID cxn));
                            HookWrite (Key req) (w_bytesWritten w) (w_writeWait w)
                                      (w_timeToWrite w) (w_writeErr w)]) /\
    (w_writeErr w = None ->
     exists evs, trace s' = trace s ++ evs /\
                 forall e, In e evs -> match e with
                                       | ConnWrite _ _ | HookWrite _ _ _ _ _ => True
                                       | _ => False
                                       end).
Proof.
  intros Hc. unfold writeRequest.
  destruct (throttleWait_returns c ctx s cxn Hc) as (thr & s1 & E1 & B1 & H1 & T1 & W1).
  rewrite (bind_Returns _ _ _ _ _ E1).
  assert (Hthr : ctx = None -> thr = None).
  { intros ->. unfold throttleWait, ret in E1. congruence. }
  destruct thr as [e|].
  - destruct (Since_returns enq s1) as (d & s2 & E2 & B2 & H2 & T2 & W2).
    rewrite (bind_Returns _ _ _ _ _ E2). unfold ret.
    do 2 eexists. split; [reflexivity|]. cbn.
    split; [congruence|]. split; [congruence|]. split.
    + intros H. specialize (Hthr H). discriminate.
    + discriminate.
  - assert (Hc1 : nth_error (heap s1) c = Some cxn) by congruence.
    rewrite (bind_Returns _ _ _ _ _ (getCxn_valid _ _ _ Hc1)). cbv zeta.
    destruct (writeConn_returns c ctx (AppendRequest codec [] req (corrID cxn))
                                (snd (timeouts codec req)) enq s1)
      as (n & ww & tw & re & err & s2 & E2 & B2 & H2 & T2 & _).
    rewrite (bind_Returns _ _ _ _ _ E2).
    unfold emit at 1. unfold bind at 1.
    destruct err as [e|].
    + unfold ret. do 2 eexists. split; [reflexivity|]. cbn.
      split; [congruence|]. split; [congruence|]. split.
      * intros _. rewrite T2, T1, <- app_assoc. reflexivity.
      * discriminate.
    + set (s3 := mkState _ _ _ _).
      assert (Hc3 : nth_error (heap s3) c = Some cxn) by (subst s3; cbn; congruence).
      rewrite (bind_Returns _ _ _ _ _ (getCxn_valid _ _ _ Hc3)). cbv zeta.
      unfold putCxn, bind, ret. cbn.
      do 2 eexists. split; [reflexivity|]. cbn.
      split; [congruence|]. split; [split; [reflexivity|congruence]|].
      split.
      * intros _. rewrite T2, T1, <- app_assoc. reflexivity.
      * intros _. eexists. split.
        -- rewrite T2, T1, <- app_assoc. reflexivity.
        -- intros e [<-|[<-|[]]]; exact I.
Qed.





End WriteRequest.

Section CorrelationIDs.

Variable codec : Codec.






End CorrelationIDs.



(* ================================================================== *)
(** ** [handleReq] and the range of API keys *)
(* ================================================================== *)

Section UnknownKey.

Variable codec : Codec.
Variable config : cfg.

(** A connection that sits alive in its slot is the one [loadConnection]
    returns, without a word to the environment. *)
Lemma loadConnection_existing requestId ctx req s c cxn :
  getSlot (b s) (route req) = Some c ->
  nth_error (heap s) c = Some cxn ->
  dead cxn = false ->
  loadConnection codec config requestId ctx req s = (Returns (inr c), s).
Proof.
  intros Hslot Hc Hdead. unfold loadConnection. cbv zeta.
  unfold getBroker at 1. unfold bind at 1. rewrite Hslot.
  rewrite (bind_Returns _ _ _ _ _
             (bind_Returns _ _ _ _ _ (getCxn_valid _ _ _ Hc))).
  rewrite Hdead. reflexivity.
Qed.

(** Indexing the versions table outside of it. *)
Lemma versionsAt_outside v key s :
  key < 0 \/ len v <= key ->
  versionsAt (Some v) key s = (Panics (IndexOutOfRange key (len v)), s).
Proof.
  intros H. unfold versionsAt, lift, index.
  destruct (Z.ltb_spec key 0); [reflexivity|].
  destruct H as [H|H]; [lia|].
  destruct (nth_error v (Z.to_nat key)) eqn:E; [|reflexivity].
  exfalso. assert (Hlt : (Z.to_nat key < List.length v)%nat)
    by (apply nth_error_Some; congruence).
  unfold len in H. lia.
Qed.

Lemma versionsAt_inside v key s :
  0 <= key < len v ->
  exists x, versionsAt (Some v) key s = (Returns x, s).
Proof.
  intros H. unfold versionsAt, lift, index.
  destruct (Z.ltb_spec key 0); [lia|].
  destruct (nth_error v (Z.to_nat key)) eqn:E; [eauto|].
  exfalso. apply nth_error_None in E. unfold len in H. lia.
Qed.

(** Past the off-by-one, and for keys that [maxVersions] excludes, the
    guard does what it is there for. *)
Lemma handleReq_unknown_key pr s cx c cxn :
  pr_ctx pr = Some cx ->
  (MaxKey codec + 1 < Key (pr_req pr) \/
   exists mv, maxVersions config = Some mv /\ HasKey mv (Key (pr_req pr)) = false) ->
  getSlot (b s) (route (pr_req pr)) = Some c ->
  nth_error (heap s) c = Some cxn ->
  dead cxn = false ->
  handleReq codec config pr s
  = (Returns tt,
     mkState (b s) (heap s) (world s)
             (trace s ++ [Promise (pr_promise pr) None (Some errUnknownRequestKey)])).
Proof.
  intros Hctx Hkey Hslot Hc Hdead.
  unfold handleReq. cbv zeta. rewrite Hctx.
  unfold ret at 1. unfold bind at 1.
  rewrite (bind_Returns _ _ _ _ _
             (loadConnection_existing _ _ _ _ _ _ Hslot Hc Hdead)).
  unfold loadVersions, getBroker. unfold bind at 1. unfold bind at 1.
  unfold ret at 1. unfold brokerVersions_len.
  destruct Hkey as [Hk | (mv & Hmv & Hhas)].
  - replace (MaxKey codec + 1 <? Key (pr_req pr)) with true
      by (symmetry; apply Z.ltb_lt; lia).
    reflexivity.
  - rewrite Hmv, Hhas. cbn [negb]. rewrite orb_true_r. reflexivity.
Qed.

(** C2 (the code departs from it).  A request whose key is [MaxKey + 1],
    or negative, is not failed with [errUnknownRequestKey] when no
    [maxVersions] is configured: the guard is [int(req.Key()) > v.len()]
    with [v.len() = MaxKey + 1], so such a key gets past it and the next
    [v.versions[req.Key()]] indexes the table out of range.  The run
    panics, and the promise has not been called. *)
Theorem handleReq_key_outside_table pr s cx c cxn v :
  pr_ctx pr = Some cx ->
  maxVersions config = None ->
  0 <= MaxKey codec ->
  Key (pr_req pr) = MaxKey codec + 1 \/ Key (pr_req pr) < 0 ->
  getSlot (b s) (route (pr_req pr)) = Some c ->
  nth_error (heap s) c = Some cxn ->
  dead cxn = false ->
  versions (b s) = Some v ->
  len v = MaxKey codec + 1 ->
  handleReq codec config pr s
  = (Panics (IndexOutOfRange (Key (pr_req pr)) (MaxKey codec + 1)), s).
Proof.
  intros Hctx Hmax HK Hkey Hslot Hc Hdead Hv Hlen.
  unfold handleReq. cbv zeta. rewrite Hctx.
  unfold ret at 1. unfold bind at 1.
  rewrite (bind_Returns _ _ _ _ _
             (loadConnection_existing _ _ _ _ _ _ Hslot Hc Hdead)).
  unfold loadVersions, getBroker. unfold bind at 1. unfold bind at 1.
  unfold ret at 1. rewrite Hv, Hmax.
  unfold brokerVersions_len.
  replace (MaxKey codec + 1 <? Key (pr_req pr)) with false
    by (symmetry; apply Z.ltb_ge; lia).
  cbn [orb].
  assert (Hout : Key (pr_req pr) < 0 \/ len v <= Key (pr_req pr)) by lia.
  destruct (versionsAt_inside v 0 s ltac:(lia)) as [v0 E0].
  rewrite (bind_Returns _ _ _ _ _ E0).
  rewrite <- Hlen.
  destruct (0 <=? v0).
  - rewrite (bind_Panics _ _ _ _ _
               (bind_Panics _ _ _ _ _ (versionsAt_outside v _ s Hout))).
    reflexivity.
  - unfold ret at 1. unfold bind at 1. cbv iota.
    rewrite (bind_Panics _ _ _ _ _ (versionsAt_outside v _ s Hout)).
    reflexivity.
Qed.

End UnknownKey.

(** On the small instance the table has 41 entries; key 41 runs into the
    panic and leaves the trace empty. *)
Lemma handleReq_key_outside_table_witness :
  let pr := Example.request (otherRequest 41 false []) in
  let s := mkState Example.loadedBroker [Example.freshCxn]
                   (Example.quiet [] [] []) [] in
  pr_ctx pr = Some Example.ctx /\
  maxVersions (Example.config 1) = None /\
  0 <= MaxKey Example.codec /\
  (Key (pr_req pr) = MaxKey Example.codec + 1 \/ Key (pr_req pr) < 0) /\
  getSlot (b s) (route (pr_req pr)) = Some 0%nat /\
  nth_error (heap s) 0 = Some Example.freshCxn /\
  dead Example.freshCxn = false /\
  (exists v, versions (b s) = Some v /\ len v = MaxKey Example.codec + 1) /\
  handleReq Example.codec (Example.config 1) pr s
  = (Panics (IndexOutOfRange 41 41), s).
Proof.
  intros pr s.
  assert (H3 : 0 <= MaxKey Example.codec) by (cbn; lia).
  assert (H4 : Key (pr_req pr) = MaxKey Example.codec + 1 \/ Key (pr_req pr) < 0)
    by (left; reflexivity).
  repeat (split; [first [reflexivity | assumption]|]).
  split.
  - eexists. split; reflexivity.
  - exact (handleReq_key_outside_table
             Example.codec (Example.config 1) pr s Example.ctx 0%nat
             Example.freshCxn _ eq_refl eq_refl H3 H4 eq_refl eq_refl eq_refl
             eq_refl eq_refl).
Defined.

(* ================================================================== *)
(** ** Fuel: the bounded loops never run dry *)
(* ================================================================== *)

Lemma noOut_ret {A} (a : A) : noOut (ret a).
Proof. intros s. discriminate. Qed.

Lemma noOut_bind {A B} (m : M A) (k : A -> M B) :
  noOut m -> (forall a, noOut (k a)) -> noOut (bind m k).
Proof.
  intros Hm Hk s. unfold bind. specialize (Hm s).
  destruct (m s) as [[a|p|] s']; cbn in *; [apply Hk|discriminate|congruence].
Qed.

Lemma noOut_lift {A} (r : run A) : r <> OutOfFuel -> noOut (lift r).
Proof. intros H s. exact H. Qed.

Lemma noOut_throw {A} p : noOut (@throw A p).
Proof. intros s. discriminate. Qed.

Lemma noOut_getBroker : noOut getBroker.
Proof. intros s. discriminate. Qed.

Lemma noOut_putBroker x : noOut (putBroker x).
Proof. intros s. discriminate. Qed.

Lemma noOut_getWorld : noOut getWorld.
Proof. intros s. discriminate. Qed.

Lemma noOut_putWorld x : noOut (putWorld x).
Proof. intros s. discriminate. Qed.

Lemma noOut_emit e : noOut (emit e).
Proof. intros s. discriminate. Qed.

Lemma noOut_getCxn c : noOut (getCxn c).
Proof. intros s. unfold getCxn. destruct (nth_error (heap s) c); discriminate. Qed.

Lemma noOut_putCxn c x : noOut (putCxn c x).
Proof. intros s. discriminate. Qed.

Lemma noOut_newCxn x : noOut (newCxn x).
Proof. intros s. discriminate. Qed.

Lemma index_noOut {A} (l : list A) i : index l i <> OutOfFuel.
Proof.
  unfold index. destruct (i <? 0); [discriminate|].
  destruct (nth_error l (Z.to_nat i)); discriminate.
Qed.

Lemma Uint32_noOut x : BigEndian.Uint32 x <> OutOfFuel.
Proof.
  destruct x as [|b0 [|b1 [|b2 [|b3 rest]]]]; discriminate.
Qed.

Lemma parseReadSize_noOut maxSize sizeBuf : parseReadSize maxSize sizeBuf <> OutOfFuel.
Proof.
  unfold parseReadSize.
  pose proof (Uint32_noOut sizeBuf) as HU.
  destruct (BigEndian.Uint32 sizeBuf) as [u|p|]; cbn [run_bind];
    [|discriminate|congruence].
  cbv zeta.
  repeat match goal with
         | |- context [if ?x then _ else _] => destruct x; try discriminate
         end.
  pose proof (index_noOut sizeBuf 1). pose proof (index_noOut sizeBuf 2).
  pose proof (index_noOut sizeBuf 0).
  destruct (index sizeBuf 1); cbn [run_bind]; try congruence; try discriminate.
  destruct (index sizeBuf 2); cbn [run_bind]; try congruence; try discriminate.
  destruct (index sizeBuf 0); cbn [run_bind]; try congruence; try discriminate.
  destruct (_ && _); discriminate.
Qed.

Lemma checkResponse_noOut codec buf err corrID flexible :
  checkResponse codec buf err corrID flexible <> OutOfFuel.
Proof.
  unfold checkResponse. destruct err; [discriminate|].
  destruct (len buf <? 4); [discriminate|].
  pose proof (Uint32_noOut buf) as HU.
  destruct (BigEndian.Uint32 buf); cbn [run_bind]; try congruence; try discriminate.
  destruct (negb _); [discriminate|]. destruct flexible; discriminate.
Qed.

Create HintDb noOut.
#[local] Hint Resolve noOut_ret noOut_throw noOut_getBroker noOut_putBroker
  noOut_getWorld noOut_putWorld noOut_emit noOut_getCxn noOut_putCxn noOut_newCxn
  index_noOut parseReadSize_noOut checkResponse_noOut : noOut.

(** Walks through a computation built from [bind], [match] and the
    operations above. *)
Ltac noOut_walk :=
  repeat first
    [ solve [ auto with noOut ]
    | apply noOut_bind; [ | intros ? ]
    | progress cbv zeta
    | apply noOut_lift; solve [ auto with noOut | discriminate ]
    | match goal with
      | |- noOut (match ?x with _ => _ end) => destruct x
      | |- noOut (if ?x then _ else _) => destruct x
      end ].

Lemma noOut_Now : noOut Now.
Proof. unfold Now. noOut_walk. Qed.

Lemma noOut_Since t : noOut (Since t).
Proof. unfold Since. pose proof noOut_Now. noOut_walk. Qed.

Lemma noOut_Until t : noOut (Until t).
Proof. unfold Until. pose proof noOut_Now. noOut_walk. Qed.

Lemma noOut_dial : noOut dial.
Proof. unfold dial. noOut_walk. Qed.

Lemma noOut_connWrite c buf : noOut (connWrite c buf).
Proof. unfold connWrite. noOut_walk. Qed.

Lemma noOut_readFull n : noOut (readFull n).
Proof. unfold readFull. noOut_walk. Qed.

Lemma noOut_selected : noOut selected.
Proof. unfold selected. noOut_walk. Qed.

Lemma noOut_throttleWoken : noOut throttleWoken.
Proof. unfold throttleWoken. noOut_walk. Qed.

Lemma noOut_ctxDone : noOut ctxDone.
Proof. unfold ctxDone. noOut_walk. Qed.

Lemma noOut_Authenticate : noOut Authenticate.
Proof. unfold Authenticate. noOut_walk. Qed.

Lemma noOut_Challenge x : noOut (Challenge x).
Proof. unfold Challenge. noOut_walk. Qed.

Lemma noOut_saslFuel : noOut saslFuel.
Proof. unfold saslFuel. noOut_walk. Qed.

#[local] Hint Resolve noOut_Now noOut_Since noOut_Until noOut_dial noOut_connWrite
  noOut_readFull noOut_selected noOut_throttleWoken noOut_ctxDone
  noOut_Authenticate noOut_Challenge noOut_saslFuel : noOut.

Section Fuel.

Variable codec : Codec.
Variable config : cfg.

Lemma noOut_loadVersions : noOut loadVersions.
Proof. unfold loadVersions. noOut_walk. Qed.

Lemma noOut_storeVersions v : noOut (storeVersions v).
Proof. unfold storeVersions. noOut_walk. Qed.

Lemma noOut_versionsAt v key : noOut (versionsAt v key).
Proof. unfold versionsAt. noOut_walk. Qed.

Lemma noOut_hookWriteE2E k n ww tw e : noOut (hookWriteE2E k n ww tw e).
Proof. unfold hookWriteE2E. noOut_walk. Qed.

Hint Resolve noOut_loadVersions noOut_storeVersions noOut_versionsAt
  noOut_hookWriteE2E : noOut.

Lemma noOut_writeConn c ctx buf timeout enq : noOut (writeConn c ctx buf timeout enq).
Proof. unfold writeConn. noOut_walk. Qed.

Lemma noOut_throttleWait c ctx : noOut (throttleWait c ctx).
Proof. unfold throttleWait. noOut_walk. Qed.

Hint Resolve noOut_writeConn noOut_throttleWait : noOut.

Lemma noOut_writeRequest c ctx enq req id : noOut (writeRequest codec c ctx enq req id).
Proof. unfold writeRequest. noOut_walk. Qed.

Lemma noOut_readFrame : noOut (readFrame config).
Proof. unfold readFrame. noOut_walk. Qed.

Hint Resolve noOut_writeRequest noOut_readFrame : noOut.

Lemma noOut_readConn c ctx timeout enq : noOut (readConn config c ctx timeout enq).
Proof. unfold readConn. noOut_walk. Qed.

Hint Resolve noOut_readConn : noOut.

Lemma noOut_readResponse c ctx key version corrID flexible timeout bw ww tw renq :
  noOut (readResponse codec config c ctx key version corrID flexible timeout
                      bw ww tw renq).
Proof. unfold readResponse. noOut_walk. Qed.

Lemma noOut_closeConn c : noOut (closeConn c).
Proof. unfold closeConn. noOut_walk. Qed.

Hint Resolve noOut_readResponse noOut_closeConn : noOut.

Lemma noOut_die c : noOut (die c).
Proof. unfold die. noOut_walk. Qed.

Lemma noOut_waitResp c pr : noOut (waitResp c pr).
Proof. unfold waitResp. noOut_walk. Qed.

Hint Resolve noOut_die noOut_waitResp : noOut.

Lemma noOut_apiVersionsExchange c req : noOut (apiVersionsExchange codec config c req).
Proof. unfold apiVersionsExchange. noOut_walk. Qed.

Lemma noOut_apiVersionsDecode v raw : noOut (apiVersionsDecode codec v raw).
Proof. unfold apiVersionsDecode. noOut_walk. Qed.

Hint Resolve noOut_apiVersionsExchange noOut_apiVersionsDecode : noOut.

(** At version 0 the negotiation does not jump back. *)
Lemma noOut_requestAPIVersionsFrom_0 fuel c :
  noOut (requestAPIVersionsFrom codec config (S fuel) c 0).
Proof.
  cbn [requestAPIVersionsFrom]. change (0 =? 0) with true. cbv iota.
  noOut_walk.
Qed.

(** From any version, one jump back is all there is. *)
Lemma noOut_requestAPIVersionsFrom fuel c maxVersion :
  noOut (requestAPIVersionsFrom codec config (S (S fuel)) c maxVersion).
Proof.
  pose proof (noOut_requestAPIVersionsFrom_0 fuel c).
  remember (S fuel) as f. cbn [requestAPIVersionsFrom]. subst f.
  noOut_walk.
Qed.

Lemma noOut_requestAPIVersions c : noOut (requestAPIVersions codec config c).
Proof. unfold requestAPIVersions. apply noOut_requestAPIVersionsFrom. Qed.

Lemma noOut_saslLifetime c prereq lifetimeMillis :
  noOut (saslLifetime c prereq lifetimeMillis).
Proof. unfold saslLifetime. noOut_walk. Qed.

Lemma noOut_saslRound c authenticate id done clientWrite prereq lifetimeMillis :
  noOut (saslRound codec config c authenticate id done clientWrite prereq
                   lifetimeMillis).
Proof. unfold saslRound. noOut_walk. Qed.

Hint Resolve noOut_requestAPIVersions noOut_saslLifetime noOut_saslRound : noOut.

End Fuel.

(* ================================================================== *)
(** ** What a run adds to the trace *)
(* ================================================================== *)

Lemma reauths_app x y : reauths (x ++ y) = (reauths x + reauths y)%nat.
Proof. unfold reauths. rewrite filter_app, length_app. reflexivity. Qed.

Lemma after_refl n s : after n s s.
Proof.
  split; [lia|]. exists []. rewrite app_nil_r. split; [reflexivity|cbn; lia].
Qed.

Lemma after_same n s s' :
  world s' = world s -> trace s' = trace s -> after n s s'.
Proof.
  intros W T. split; [rewrite W; lia|]. exists []. rewrite app_nil_r.
  split; [exact T|cbn; lia].
Qed.

Lemma after_trans n m s1 s2 s3 :
  after n s1 s2 -> after m s2 s3 -> after (n + m) s1 s3.
Proof.
  intros (L1 & e1 & T1 & R1) (L2 & e2 & T2 & R2). split; [lia|].
  exists (e1 ++ e2). rewrite T2, T1, app_assoc, reauths_app.
  split; [reflexivity|lia].
Qed.

Lemma after_weaken n m s s' : (n <= m)%nat -> after n s s' -> after m s s'.
Proof.
  intros H (L & e & T & R). split; [exact L|]. exists e. split; [exact T|lia].
Qed.

Lemma after_emitted n s s' : after n s s' -> (reauths (emitted s s') <= n)%nat.
Proof.
  intros (_ & e & T & R). unfold emitted. rewrite T.
  rewrite skipn_app, skipn_all, Nat.sub_diag. cbn. exact R.
Qed.

Lemma bounded_weaken n m {A} (x : M A) :
  (n <= m)%nat -> bounded n x -> bounded m x.
Proof. intros H Hx s. eapply after_weaken; [exact H|apply Hx]. Qed.

Lemma bounded_bind n m {A B} (x : M A) (k : A -> M B) :
  bounded n x -> (forall a, bounded m (k a)) -> bounded (n + m) (bind x k).
Proof.
  intros Hx Hk s. unfold bind. specialize (Hx s).
  destruct (x s) as [[a|p|] s1]; cbn in *.
  - eapply after_trans; [exact Hx|apply Hk].
  - eapply after_weaken; [|exact Hx]. lia.
  - eapply after_weaken; [|exact Hx]. lia.
Qed.

Lemma bounded_bind_0 {A B} (x : M A) (k : A -> M B) :
  bounded 0 x -> (forall a, bounded 0 (k a)) -> bounded 0 (bind x k).
Proof. apply (bounded_bind 0 0). Qed.

Lemma bounded_ret {A} (a : A) : bounded 0 (ret a).
Proof. intros s. apply after_refl. Qed.

Lemma bounded_lift {A} (r : run A) : bounded 0 (lift r).
Proof. intros s. apply after_refl. Qed.

Lemma bounded_throw {A} p : bounded 0 (@throw A p).
Proof. intros s. apply after_refl. Qed.

Lemma bounded_outOfFuel {A} : bounded 0 (@outOfFuel A).
Proof. intros s. apply after_refl. Qed.

Lemma bounded_getBroker : bounded 0 getBroker.
Proof. intros s. apply after_refl. Qed.

Lemma bounded_putBroker x : bounded 0 (putBroker x).
Proof. intros s. apply after_same; reflexivity. Qed.

Lemma bounded_getWorld : bounded 0 getWorld.
Proof. intros s. apply after_refl. Qed.

Lemma bounded_getCxn c : bounded 0 (getCxn c).
Proof.
  intros s. unfold getCxn. destruct (nth_error (heap s) c); apply after_refl.
Qed.

Lemma bounded_putCxn c x : bounded 0 (putCxn c x).
Proof. intros s. apply after_same; reflexivity. Qed.

Lemma bounded_newCxn x : bounded 0 (newCxn x).
Proof. intros s. apply after_same; reflexivity. Qed.

Lemma bounded_emit e : isReauth e = false -> bounded 0 (emit e).
Proof.
  intros H s. split; [cbn; lia|]. exists [e]. split; [reflexivity|].
  unfold reauths. cbn. rewrite H. cbn. lia.
Qed.

(** A step that changes nothing but the scripts of the environment, and
    does not add to the challenges. *)
Lemma after_world n s w :
  (List.length (challenges w) <= List.length (challenges (world s)))%nat ->
  after n s (mkState (b s) (heap s) w (trace s)).
Proof.
  intros H. split; [exact H|]. exists []. cbn. rewrite app_nil_r.
  split; [reflexivity|cbn; lia].
Qed.

Ltac world_step :=
  intros s; unfold bind, getWorld, putWorld, ret;
  repeat match goal with
         | |- context [match ?x with _ => _ end] => destruct x eqn:?
         end;
  cbn;
  first [ apply after_refl
        | apply after_world; cbn;
          repeat match goal with
                 | H : challenges _ = _ |- _ => rewrite H
                 end;
          cbn; lia ].

Lemma bounded_Now : bounded 0 Now.
Proof. unfold Now. world_step. Qed.

Lemma bounded_dial : bounded 0 dial.
Proof. unfold dial. world_step. Qed.

Lemma bounded_readFull n : bounded 0 (readFull n).
Proof. unfold readFull. world_step. Qed.

Lemma bounded_selected : bounded 0 selected.
Proof. unfold selected. world_step. Qed.

Lemma bounded_throttleWoken : bounded 0 throttleWoken.
Proof. unfold throttleWoken. world_step. Qed.

Lemma bounded_ctxDone : bounded 0 ctxDone.
Proof. unfold ctxDone. world_step. Qed.

Lemma bounded_Authenticate : bounded 0 Authenticate.
Proof. unfold Authenticate. world_step. Qed.

Lemma bounded_Challenge x : bounded 0 (Challenge x).
Proof. unfold Challenge. world_step. Qed.

Lemma bounded_saslFuel : bounded 0 saslFuel.
Proof. unfold saslFuel. world_step. Qed.

Create HintDb bounded.
#[local] Hint Resolve bounded_ret bounded_lift bounded_throw bounded_outOfFuel
  bounded_getBroker bounded_putBroker bounded_getWorld bounded_getCxn
  bounded_putCxn bounded_newCxn bounded_Now bounded_dial bounded_readFull
  bounded_selected bounded_throttleWoken bounded_ctxDone bounded_Authenticate
  bounded_Challenge bounded_saslFuel : bounded.

Ltac bounded_walk :=
  repeat first
    [ solve [ auto with bounded ]
    | apply bounded_emit; reflexivity
    | apply bounded_bind_0; [ | intros ? ]
    | progress cbv zeta
    | match goal with
      | |- bounded 0 (match ?x with _ => _ end) => destruct x
      | |- bounded 0 (if ?x then _ else _) => destruct x
      end ].

Lemma bounded_Since t : bounded 0 (Since t).
Proof. unfold Since. bounded_walk. Qed.

Lemma bounded_Until t : bounded 0 (Until t).
Proof. unfold Until. bounded_walk. Qed.

Lemma bounded_connWrite c buf : bounded 0 (connWrite c buf).
Proof.
  unfold connWrite. apply bounded_bind_0; [apply bounded_emit; reflexivity|].
  intros _. world_step.
Qed.

#[local] Hint Resolve bounded_Since bounded_Until bounded_connWrite : bounded.

Section Frames.

Variable codec : Codec.
Variable config : cfg.

Lemma bounded_loadVersions : bounded 0 loadVersions.
Proof. unfold loadVersions. bounded_walk. Qed.

Lemma bounded_storeVersions v : bounded 0 (storeVersions v).
Proof. unfold storeVersions. bounded_walk. Qed.

Lemma bounded_versionsAt v key : bounded 0 (versionsAt v key).
Proof. unfold versionsAt. bounded_walk. Qed.

Lemma bounded_hookWriteE2E k n ww tw e : bounded 0 (hookWriteE2E k n ww tw e).
Proof. unfold hookWriteE2E. bounded_walk. Qed.

Hint Resolve bounded_loadVersions bounded_storeVersions bounded_versionsAt
  bounded_hookWriteE2E : bounded.

Lemma bounded_writeConn c ctx buf timeout enq :
  bounded 0 (writeConn c ctx buf timeout enq).
Proof. unfold writeConn. bounded_walk. Qed.

Lemma bounded_throttleWait c ctx : bounded 0 (throttleWait c ctx).
Proof. unfold throttleWait. bounded_walk. Qed.

Hint Resolve bounded_writeConn bounded_throttleWait : bounded.

Lemma bounded_writeRequest c ctx enq req id :
  bounded 0 (writeRequest codec c ctx enq req id).
Proof. unfold writeRequest. bounded_walk. Qed.

Lemma bounded_readFrame : bounded 0 (readFrame config).
Proof. unfold readFrame. bounded_walk. Qed.

Hint Resolve bounded_writeRequest bounded_readFrame : bounded.

Lemma bounded_readConn c ctx timeout enq :
  bounded 0 (readConn config c ctx timeout enq).
Proof. unfold readConn. bounded_walk. Qed.

Hint Resolve bounded_readConn : bounded.

Lemma bounded_readResponse c ctx key version corrID flexible timeout bw ww tw renq :
  bounded 0 (readResponse codec config c ctx key version corrID flexible timeout
                          bw ww tw renq).
Proof. unfold readResponse. bounded_walk. Qed.

Lemma bounded_closeConn c : bounded 0 (closeConn c).
Proof. unfold closeConn. bounded_walk. Qed.

Hint Resolve bounded_readResponse bounded_closeConn : bounded.

Lemma bounded_die c : bounded 0 (die c).
Proof. unfold die. bounded_walk. Qed.

Lemma bounded_waitResp c pr : bounded 0 (waitResp c pr).
Proof. unfold waitResp. bounded_walk. Qed.

Hint Resolve bounded_die bounded_waitResp : bounded.

Lemma bounded_apiVersionsExchange c req :
  bounded 0 (apiVersionsExchange codec config c req).
Proof. unfold apiVersionsExchange. bounded_walk. Qed.

Lemma bounded_apiVersionsDecode v raw : bounded 0 (apiVersionsDecode codec v raw).
Proof. unfold apiVersionsDecode. bounded_walk. Qed.

Hint Resolve bounded_apiVersionsExchange bounded_apiVersionsDecode : bounded.

Lemma bounded_requestAPIVersionsFrom fuel :
  forall c maxVersion,
    bounded 0 (requestAPIVersionsFrom codec config fuel c maxVersion).
Proof.
  induction fuel as [|fuel IH]; intros c maxVersion;
    cbn [requestAPIVersionsFrom]; bounded_walk.
Qed.

Lemma bounded_requestAPIVersions c : bounded 0 (requestAPIVersions codec config c).
Proof. apply bounded_requestAPIVersionsFrom. Qed.

Lemma bounded_saslLifetime c prereq lifetimeMillis :
  bounded 0 (saslLifetime c prereq lifetimeMillis).
Proof. unfold saslLifetime. bounded_walk. Qed.

Lemma bounded_saslRound c authenticate id done clientWrite prereq lifetimeMillis :
  bounded 0 (saslRound codec config c authenticate id done clientWrite prereq
                       lifetimeMillis).
Proof. unfold saslRound. bounded_walk. Qed.

Hint Resolve bounded_requestAPIVersions bounded_saslLifetime bounded_saslRound
  : bounded.

Lemma bounded_saslLoop fuel :
  forall c authenticate id done clientWrite prereq lifetimeMillis,
    bounded 0 (saslLoop codec config fuel c authenticate id done clientWrite
                        prereq lifetimeMillis).
Proof.
  induction fuel as [|fuel IH]; intros; cbn [saslLoop]; bounded_walk.
Qed.

Hint Resolve bounded_saslLoop : bounded.

Lemma bounded_saslChallenges c authenticate id :
  bounded 0 (saslChallenges codec config c authenticate id).
Proof. unfold saslChallenges. bounded_walk. Qed.

Hint Resolve bounded_saslChallenges : bounded.

Lemma bounded_doSasl c authenticate id :
  bounded 0 (doSasl codec config c authenticate id).
Proof. unfold doSasl. bounded_walk. Qed.

Hint Resolve bounded_doSasl : bounded.

Lemma bounded_saslFrom fuel :
  forall c id v mech retried,
    bounded 0 (saslFrom codec config fuel c id v mech retried).
Proof.
  induction fuel as [|fuel IH]; intros; cbn [saslFrom]; bounded_walk.
Qed.

Hint Resolve bounded_saslFrom : bounded.

Lemma bounded_sasl c id : bounded 0 (sasl codec config c id).
Proof. unfold sasl. bounded_walk. Qed.

Lemma bounded_connect id : bounded 0 (connect id).
Proof. unfold connect. bounded_walk. Qed.

Hint Resolve bounded_sasl bounded_connect : bounded.

Lemma bounded_init c isProduceCxn id :
  bounded 0 (init codec config c isProduceCxn id).
Proof. unfold init. bounded_walk. Qed.

Hint Resolve bounded_init : bounded.

Lemma bounded_loadConnection id ctx req :
  bounded 0 (loadConnection codec config id ctx req).
Proof. unfold loadConnection. bounded_walk. Qed.

Lemma bounded_dispatch cxn pr req id :
  bounded 0 (dispatch codec config cxn pr req id).
Proof. unfold dispatch. bounded_walk. Qed.

Hint Resolve bounded_loadConnection bounded_dispatch : bounded.

(** The loop of [handleReq] announces a reauthentication only while its
    counter is at most 15, and the counter goes up by one each time. *)
Lemma bounded_reauthenticate fuel :
  forall c promise id k,
    1 <= k ->
    bounded (Z.to_nat (16 - k)) (reauthenticate codec config fuel c promise id k).
Proof.
  induction fuel as [|fuel IH]; intros c promise id k Hk;
    cbn [reauthenticate].
  - eapply bounded_weaken; [|apply bounded_outOfFuel]. lia.
  - apply (bounded_bind 0 (Z.to_nat (16 - k))); [bounded_walk|]. intros cxn.
    apply (bounded_bind 0 (Z.to_nat (16 - k))); [bounded_walk|].
    intros [|].
    + destruct (Z.ltb_spec 15 k).
      * eapply bounded_weaken; [|bounded_walk]. lia.
      * replace (Z.to_nat (16 - k)) with (1 + Z.to_nat (16 - (k + 1)))%nat by lia.
        apply bounded_bind.
        { intros s. split; [cbn; lia|]. eexists. split; [reflexivity|].
          unfold reauths. cbn. lia. }
        intros _.
        apply (bounded_bind 0 (Z.to_nat (16 - (k + 1)))); [bounded_walk|].
        intros [e|].
        -- eapply bounded_weaken; [|bounded_walk]. lia.
        -- apply IH. lia.
    + eapply bounded_weaken; [|bounded_walk]. lia.
Qed.

(** One dispatch announces at most 15 reauthentications. *)
Lemma bounded_handleReq pr : bounded 15 (handleReq codec config pr).
Proof.
  unfold handleReq. cbv zeta.
  pose proof (bounded_reauthenticate 16) as HR.
  repeat first
    [ solve [ bounded_walk ]
    | solve [ eapply bounded_weaken; [|solve [auto with bounded]]; lia ]
    | solve [ eapply bounded_weaken; [|apply bounded_emit; reflexivity]; lia ]
    | apply (bounded_bind 15 0); [ apply (HR _ _ _ 1); lia | intros ? ]
    | apply (bounded_bind 0 15); [ solve [bounded_walk] | intros ? ]
    | progress cbv zeta
    | match goal with
      | |- bounded _ (match ?x with _ => _ end) => destruct x
      | |- bounded _ (if ?x then _ else _) => destruct x
      end ].
Qed.

(** *** The challenge loop of [doSasl] has fuel enough *)

Hint Resolve noOut_loadVersions noOut_storeVersions noOut_versionsAt
  noOut_hookWriteE2E noOut_writeConn noOut_throttleWait noOut_writeRequest
  noOut_readFrame noOut_readConn noOut_readResponse noOut_closeConn noOut_die
  noOut_waitResp noOut_requestAPIVersions noOut_saslLifetime noOut_saslRound
  : noOut.

Lemma bind_Returns_inv {A B} (m : M A) (k : A -> M B) s y s' :
  bind m k s = (Returns y, s') ->
  exists a s1, m s = (Returns a, s1) /\ k a s1 = (Returns y, s').
Proof.
  unfold bind. destruct (m s) as [[a|p|] s1]; try discriminate. eauto.
Qed.

(** An answer of the session without error takes an entry off the script. *)
Lemma Challenge_progress x s d cw s' :
  Challenge x s = (Returns (d, cw, None), s') ->
  (List.length (challenges (world s')) < List.length (challenges (world s)))%nat.
Proof.
  unfold Challenge, bind, getWorld, putWorld, ret.
  destruct (challenges (world s)) as [|[[d0 cw0] [e|]] rest] eqn:E; cbn;
    try discriminate.
  intros [= _ _ <-]. cbn. lia.
Qed.

(** A round entered with the session not done, if it asks for another
    round, has taken an entry off the script of challenges. *)
Lemma saslRound_progress c authenticate id clientWrite prereq lifetimeMillis s y s' :
  saslRound codec config c authenticate id false clientWrite prereq
            lifetimeMillis s = (Returns (inr y), s') ->
  (List.length (challenges (world s')) < List.length (challenges (world s)))%nat.
Proof.
  unfold saslRound. cbv zeta. destruct (timeouts codec _) as [rt wt].
  intros H. apply bind_Returns_inv in H. destruct H as (a & s1 & Hm & Hk).
  assert (L1 : (List.length (challenges (world s1))
                <= List.length (challenges (world s)))%nat).
  { match type of Hm with
    | ?m s = _ => assert (B : bounded 0 m) by bounded_walk
    end.
    specialize (B s). rewrite Hm in B. apply B. }
  destruct a as [e|[[challenge p] l]]; [discriminate|].
  cbn [negb] in Hk. apply bind_Returns_inv in Hk.
  destruct Hk as ([[d cw] err] & s2 & HC & Hr).
  destruct err as [e|]; [discriminate|].
  unfold ret in Hr. injection Hr as _ <-.
  apply Challenge_progress in HC. lia.
Qed.

(** A round entered with the session done leaves nothing to write. *)
Lemma saslRound_done c authenticate id clientWrite prereq lifetimeMillis s d cw p l s' :
  saslRound codec config c authenticate id true clientWrite prereq
            lifetimeMillis s = (Returns (inr (d, cw, p, l)), s') ->
  d = true /\ cw = [].
Proof.
  unfold saslRound. cbv zeta. destruct (timeouts codec _) as [rt wt].
  intros H. apply bind_Returns_inv in H. destruct H as (a & s1 & _ & Hk).
  destruct a as [e|[[challenge p0] l0]]; [discriminate|].
  cbn [negb] in Hk. unfold ret in Hk. injection Hk as <- <- _ _ _. auto.
Qed.

Lemma saslLoop_fuel fuel :
  forall c authenticate id (done : bool) clientWrite prereq lifetimeMillis s,
    ((if done then 1 else List.length (challenges (world s)) + 2) <= fuel)%nat ->
    fst (saslLoop codec config fuel c authenticate id done clientWrite prereq
                  lifetimeMillis s) <> OutOfFuel.
Proof.
  induction fuel as [|fuel IH]; intros c authenticate id done clientWrite prereq
                                       lifetimeMillis s Hfuel.
  - destruct done; lia.
  - cbn [saslLoop].
    destruct (negb done || (0 <? len clientWrite)) eqn:Hcond; [|discriminate].
    unfold bind.
    pose proof (noOut_saslRound codec config c authenticate id done clientWrite
                                prereq lifetimeMillis s) as HN.
    destruct (saslRound codec config c authenticate id done clientWrite prereq
                        lifetimeMillis s) as [[r|p|] s1] eqn:ER;
      cbn in HN; [|discriminate|congruence].
    destruct r as [e|[[[d cw] p] l]]; [discriminate|].
    destruct done.
    + apply saslRound_done in ER. destruct ER as [-> ->].
      destruct fuel; cbn; discriminate.
    + apply saslRound_progress in ER. apply IH. destruct d; lia.
Qed.

Lemma noOut_saslChallenges c authenticate id :
  noOut (saslChallenges codec config c authenticate id).
Proof.
  unfold saslChallenges.
  repeat first
    [ solve [ auto with noOut ]
    | match goal with
      | |- noOut (bind saslFuel _) =>
          let s := fresh "s" in
          intros s; unfold saslFuel at 1;
          unfold bind at 1; unfold getWorld at 1; unfold bind at 1;
          unfold ret at 1;
          apply saslLoop_fuel; cbn; lia
      end
    | apply noOut_bind; [ | intros ? ]
    | progress cbv zeta
    | match goal with
      | |- noOut (match ?x with _ => _ end) => destruct x
      | |- noOut (if ?x then _ else _) => destruct x
      end ].
Qed.

Hint Resolve noOut_saslChallenges : noOut.

Lemma noOut_doSasl c authenticate id : noOut (doSasl codec config c authenticate id).
Proof. unfold doSasl. noOut_walk. Qed.

Hint Resolve noOut_doSasl : noOut.

(** After a retry [sasl] does not jump back again. *)
Lemma noOut_saslFrom_retried fuel c id v mech :
  noOut (saslFrom codec config (S fuel) c id v mech true).
Proof. cbn [saslFrom negb andb]. noOut_walk. Qed.

Lemma noOut_saslFrom fuel c id v mech retried :
  noOut (saslFrom codec config (S (S fuel)) c id v mech retried).
Proof.
  pose proof (noOut_saslFrom_retried fuel c id v).
  remember (S fuel) as f. cbn [saslFrom]. subst f.
  noOut_walk.
Qed.

Hint Resolve noOut_saslFrom : noOut.

Lemma noOut_sasl c id : noOut (sasl codec config c id).
Proof. unfold sasl. noOut_walk. Qed.

Lemma noOut_connect id : noOut (connect id).
Proof. unfold connect. noOut_walk. Qed.

Hint Resolve noOut_sasl noOut_connect : noOut.

Lemma noOut_init c isProduceCxn id : noOut (init codec config c isProduceCxn id).
Proof. unfold init. noOut_walk. Qed.

Hint Resolve noOut_init : noOut.

Lemma noOut_loadConnection id ctx req :
  noOut (loadConnection codec config id ctx req).
Proof. unfold loadConnection. noOut_walk. Qed.

Lemma noOut_dispatch cxn pr req id : noOut (dispatch codec config cxn pr req id).
Proof. unfold dispatch. noOut_walk. Qed.

(** The reauthentication loop stops by itself once its counter has passed
    15: fuel for the counter to get there is enough. *)
Lemma noOut_reauthenticate fuel :
  forall c promise id k,
    (Z.to_nat (17 - k) <= fuel)%nat -> k <= 16 ->
    noOut (reauthenticate codec config fuel c promise id k).
Proof.
  induction fuel as [|fuel IH]; intros c promise id k Hfuel Hk; [lia|].
  cbn [reauthenticate].
  apply noOut_bind; [auto with noOut|]. intros cxn.
  apply noOut_bind; [noOut_walk|]. intros [|]; [|auto with noOut].
  destruct (Z.ltb_spec 15 k); [noOut_walk|].
  apply noOut_bind; [auto with noOut|]. intros _.
  apply noOut_bind; [auto with noOut|]. intros [e|]; [noOut_walk|].
  apply IH; lia.
Qed.

Hint Resolve noOut_loadConnection noOut_dispatch : noOut.

(** [handleReq] never stops for want of fuel. *)
Lemma noOut_handleReq pr : noOut (handleReq codec config pr).
Proof.
  unfold handleReq. cbv zeta.
  pose proof (noOut_reauthenticate 16) as HR.
  repeat first
    [ solve [ auto with noOut ]
    | solve [ apply HR; lia ]
    | apply noOut_bind; [ | intros ? ]
    | progress cbv zeta
    | match goal with
      | |- noOut (match ?x with _ => _ end) => destruct x
      | |- noOut (if ?x then _ else _) => destruct x
      end ].
Qed.

End Frames.

(* ================================================================== *)
(** ** API version negotiation *)
(* ================================================================== *)

Section ApiVersions.

Variable codec : Codec.
Variable config : cfg.

(** A pass of the negotiation first writes its request, at the version it
    was entered with, on the socket. *)
Lemma apiVersionsExchange_writes c req s cxn :
  nth_error (heap s) c = Some cxn ->
  exists evs,
    trace (snd (apiVersionsExchange codec config c req s))
    = trace s ++ Log LogLevelDebug "issuing api versions request"
              :: ConnWrite c (AppendRequest codec [] req (corrID cxn)) :: evs.
Proof.
  intros Hc. unfold apiVersionsExchange.
  unfold emit at 1. unfold bind at 1.
  set (s0 := mkState _ _ _ _).
  destruct (Now_quietly s0) as (t & s1 & E1 & B1 & H1 & T1 & _).
  rewrite (bind_Returns _ _ _ _ _ E1).
  assert (Hc1 : nth_error (heap s1) c = Some cxn) by (rewrite H1; exact Hc).
  destruct (writeRequest_spec codec c None t req "requestAPIVersions" s1 cxn Hc1)
    as (w & s2 & E2 & _ & _ & T2 & _).
  specialize (T2 eq_refl).
  rewrite (bind_Returns _ _ _ _ _ E2).
  match goal with
  | |- context [snd (?k s2)] =>
      assert (BK : bounded 0 k)
        by (pose proof (bounded_readResponse codec config);
            pose proof bounded_hookWriteE2E;
            bounded_walk);
      destruct (BK s2) as (_ & evs & HT & _)
  end.
  rewrite HT, T2, T1. subst s0. cbn [trace].
  eexists. rewrite <- !app_assoc. cbn [app]. reflexivity.
Qed.

(** C5.  During the negotiation, when the raw response to the
    ApiVersionsRequest is exactly [00 23 00 00 00 00] or the ten-byte
    EventHubs variant (byte 1 is 35, UNSUPPORTED_VERSION) and the request
    was not at version 0, the function jumps back to [start] with
    [maxVersion = 0]: it goes on exactly as a pass at version 0, which
    first writes an ApiVersionsRequest of version 0.  When the request was
    already at version 0 and byte 1 of the raw response is 35, the function
    returns an error. *)
Theorem requestAPIVersions_downgrade fuel c maxVersion s raw s1 :
  apiVersionsExchange codec config c
    (mkRequest (ApiVersionsRequest (softwareName config) (softwareVersion config))
               maxVersion) s
  = (Returns (inr raw), s1) ->
  (maxVersion <> 0 ->
   raw = unsupportedV0 \/ raw = unsupportedEventHubs ->
   requestAPIVersionsFrom codec config (S fuel) c maxVersion s
   = requestAPIVersionsFrom codec config fuel c 0
       (mkState (b s1) (heap s1) (world s1)
                (trace s1 ++ [Log LogLevelDebug downgradeMsg]))) /\
  (maxVersion = 0 ->
   2 <= len raw ->
   (exists b1, index raw 1 = Returns b1 /\ byteZ b1 = 35) ->
   requestAPIVersionsFrom codec config (S fuel) c maxVersion s
   = (Returns (Some errUnsupportedApiVersions0), s1)) /\
  (forall fuel' s' cxn,
      nth_error (heap s') c = Some cxn ->
      exists evs,
        trace (snd (requestAPIVersionsFrom codec config (S fuel') c 0 s'))
        = trace s' ++ Log LogLevelDebug "issuing api versions request"
                   :: ConnWrite c
                        (AppendRequest codec []
                           (mkRequest (ApiVersionsRequest (softwareName config)
                                                          (softwareVersion config)) 0)
                           (corrID cxn))
                   :: evs).
Proof.
  intros E. split; [|split].
  - intros Hv Hraw. cbn [requestAPIVersionsFrom]. cbv zeta.
    rewrite (bind_Returns _ _ _ _ _ E).
    destruct (Z.eqb_spec maxVersion 0); [contradiction|].
    destruct Hraw as [-> | ->]; reflexivity.
  - intros -> Hlen (b1 & Hb1 & H35). cbn [requestAPIVersionsFrom]. cbv zeta.
    rewrite (bind_Returns _ _ _ _ _ E).
    destruct (Z.ltb_spec (len raw) 2); [lia|].
    unfold lift at 1. unfold bind at 1. rewrite Hb1, H35. reflexivity.
  - intros fuel' s' cxn Hc.
    destruct (apiVersionsExchange_writes c
                (mkRequest (ApiVersionsRequest (softwareName config)
                                               (softwareVersion config)) 0)
                s' cxn Hc) as (evs & HT).
    cbn [requestAPIVersionsFrom]. cbv zeta. unfold bind at 1.
    match goal with
    | |- context [match ?m s' with _ => _ end] =>
        destruct (m s') as [[r|p|] s2] eqn:EX
    end; cbn [snd] in HT; try (eexists; exact HT).
    match goal with
    | |- context [snd (?k s2)] =>
        assert (BK : bounded 0 k)
          by (pose proof (bounded_apiVersionsDecode codec);
              change (0 =? 0) with true; cbv iota;
              bounded_walk)
    end.
    match type of BK with
    | bounded 0 ?k => destruct (BK s2) as (_ & evs' & HT' & _)
    end.
    rewrite HT', HT. eexists. rewrite <- app_assoc. cbn [app]. reflexivity.
Qed.

End ApiVersions.

(** A broker that only knows version 0 of ApiVersions: the request at
    version 3 is answered with [00 23 00 00 00 00], the retry at version 0
    with a decodable response. *)
Lemma requestAPIVersions_downgrade_witness :
  let s := mkState Example.noBroker [Example.freshCxn]
                   (Example.quiet [] [WriteAll; WriteAll]
                      ([x00; x00; x00; x0a; x00; x00; x00; x00] ++ unsupportedV0
                       ++ [x00; x00; x00; x06; x00; x00; x00; x01; x00; x00]))
                   [] in
  let req3 := mkRequest (ApiVersionsRequest "kgo" "1") 3 in
  let req0 := mkRequest (ApiVersionsRequest "kgo" "1") 0 in
  exists s1 s2,
    apiVersionsExchange Example.codec (Example.config 1) 0%nat req3 s
    = (Returns (inr unsupportedV0), s1) /\
    3 <> 0 /\
    requestAPIVersions Example.codec (Example.config 1) 0%nat s = (Returns None, s2) /\
    filter (fun e => match e with ConnWrite _ _ => true | _ => false end) (trace s2)
    = [ ConnWrite 0%nat (AppendRequest Example.codec [] req3 0);
        ConnWrite 0%nat (AppendRequest Example.codec [] req0 1) ] /\
    versions (b s2)
    = Some (fillVersions Example.codec (fst (readApiVersions Example.codec 0 []))).
Proof.
  intros s req3 req0.
  destruct (apiVersionsExchange Example.codec (Example.config 1) 0%nat req3 s)
    as [r s1] eqn:E1.
  assert (Hr : r = Returns (inr unsupportedV0))
    by (vm_compute in E1; injection E1 as <- _; reflexivity).
  subst r.
  assert (H3 : 3 <> 0) by discriminate.
  pose proof (proj1 (requestAPIVersions_downgrade
                       Example.codec (Example.config 1) 1%nat 0%nat 3 s
                       unsupportedV0 s1 E1) H3 (or_introl eq_refl)) as Hretry.
  exists s1. eexists. split; [reflexivity|]. split; [exact H3|].
  unfold requestAPIVersions.
  change (apiVersionsStart (Example.config 1)) with 3.
  rewrite Hretry.
  vm_compute in E1. injection E1 as <-.
  vm_compute. repeat split; reflexivity.
Defined.

(* ================================================================== *)
(** ** SASL session lifetime *)
(* ================================================================== *)

Section SaslLifetime.

Variable codec : Codec.
Variable config : cfg.

(** The latency taken off a lifetime is the larger of 2500 ms and
    [int64(float64(ms) * 1.1)]. *)
Lemma saslLatency_max d :
  saslLatency d
  = Z.max 2500
      (float64.toInt64
         (float64.mul (float64.ofInt (time.Milliseconds d)) float64.c1_1)).
Proof.
  unfold saslLatency, latencyFloor.
  destruct (Z.ltb_spec
              (float64.toInt64
                 (float64.mul (float64.ofInt (time.Milliseconds d)) float64.c1_1))
              2500); lia.
Qed.

(** What a positive session lifetime does: two readings of the clock, the
    expiry counted from the second, and the nap if the lifetime is used up. *)
Lemma saslLifetime_spec c prereq L s cxn t1 sa t2 sb :
  0 < L ->
  nth_error (heap s) c = Some cxn ->
  Now s = (Returns t1, sa) ->
  Now sa = (Returns t2, sb) ->
  let useLifetime := Int.int64 (L - saslLatency (time.Sub t1 prereq)) in
  exists s2,
    saslLifetime c prereq L s = (Returns tt, s2) /\
    nth_error (heap s2) c
    = Some (set_expiry cxn
              (time.Add t2 (Int.int64 (useLifetime * time.Millisecond)))) /\
    trace s2
    = trace s ++ Log LogLevelDebug lifetimeMsg
              :: (if useLifetime <? 0
                  then [Log LogLevelInfo spinLoopMsg; Sleep (100 * time.Millisecond)]
                  else []).
Proof.
  intros HL Hc E1 E2 useLifetime.
  destruct (Now_quietly s) as (t1' & sa' & E1' & _ & Ha & Ta & _).
  rewrite E1 in E1'. injection E1' as <- <-.
  destruct (Now_quietly sa) as (t2' & sb' & E2' & _ & Hb & Tb & _).
  rewrite E2 in E2'. injection E2' as <- <-.
  assert (Hcb : nth_error (heap sb) c = Some cxn) by congruence.
  unfold saslLifetime.
  destruct (Z.ltb_spec 0 L); [|lia].
  unfold Since. rewrite (bind_Returns _ _ _ _ _ (bind_Returns _ _ _ _ _ E1)).
  unfold ret at 1. cbv zeta.
  rewrite (bind_Returns _ _ _ _ _ E2).
  rewrite (bind_Returns _ _ _ _ _ (getCxn_valid _ _ _ Hcb)).
  fold useLifetime.
  unfold putCxn at 1. unfold bind at 1. unfold emit at 1. unfold bind at 1.
  destruct (useLifetime <? 0).
  - unfold bind, emit, ret. cbn. eexists. split; [reflexivity|]. cbn. split.
    + eapply nth_error_update_eq. exact Hcb.
    + rewrite Tb, Ta, <- !app_assoc. reflexivity.
  - unfold ret. eexists. split; [reflexivity|]. cbn. split.
    + eapply nth_error_update_eq. exact Hcb.
    + rewrite Tb, Ta. reflexivity.
Qed.

(** The time that the last of the exchanges [xs] read before its write,
    or [p] if there was no exchange. *)
Lemma finalWrite_fold xs : forall o p t,
  fold_left (fun _ x => Some (x_prereq x)) xs o = Some t ->
  match o with Some q => p = q | None => True end ->
  fold_left (fun _ x => x_prereq x) xs p = t.
Proof.
  induction xs as [|x xs IH]; intros o p t; cbn [fold_left].
  - intros ->. auto.
  - intros H _. apply (IH _ _ _ H). reflexivity.
Qed.

(** The lifetime in the last response that the exchanges [xs] read, or
    [L] if they read none. *)
Lemma finalResponse_fold xs : forall o L resp,
  fold_left (fun r x => match x_response x with
                        | Some y => Some y
                        | None => r
                        end) xs o = Some resp ->
  match o with Some y => L = SessionLifetimeMillis y | None => True end ->
  fold_left (fun l x => match x_response x with
                        | Some y => SessionLifetimeMillis y
                        | None => l
                        end) xs L = SessionLifetimeMillis resp.
Proof.
  induction xs as [|x xs IH]; intros o L resp; cbn [fold_left].
  - intros ->. auto.
  - intros H Ho. apply (IH _ _ _ H).
    destruct (x_response x); [reflexivity|exact Ho].
Qed.

(** A round of the challenge loop is an exchange: it leaves the time read
    before its write in [prereq] and, if it read a response, that
    response's lifetime in [lifetimeMillis]. *)
Lemma exchanged_saslRound c id clientWrite s done x done' clientWrite' s' :
  exchanged codec config c id clientWrite s done x done' clientWrite' s' ->
  forall prereq L,
    saslRound codec config c true id done clientWrite prereq L s
    = (Returns (inr (done', clientWrite', x_prereq x,
                     match x_response x with
                     | Some resp => SessionLifetimeMillis resp
                     | None => L
                     end)), s').
Proof.
  intros H prereq L.
  destruct H as [v version s0 p s1 t s2 w s3 rawResp s4 resp done' clientWrite' s'
                   req rt EV EA EL EP ET EW Hw ER ED EC ECh
                |v version s0 p s1 t s2 w s3 s' req EV EA EL EP ET EW Hw EH];
    unfold saslRound; cbv zeta;
    destruct (timeouts codec (mkRequest (SASLAuthenticateRequest []) 0))
      as [rt' wt] eqn:Ert; cbn [negb x_prereq x_response].
  - step EV. step EA. step EL. step EP. step ET. step EW.
    rewrite Hw. cbn [orb]. rewrite ?bind_assoc, ?bind_ret.
    subst rt req. cbn [fst] in ER. step ER. cbv beta iota.
    rewrite ED, EC. rewrite ?bind_ret.
    step ECh. reflexivity.
  - step EV. step EA. step EL. step EP. step ET. step EW.
    rewrite Hw. cbn [orb]. subst req. step EH. reflexivity.
Qed.

(** The challenge loop over a sequence of exchanges: it ends where they
    end, with the time read before the last write and the lifetime of the
    last response. *)
Lemma exchanges_saslLoop c id done clientWrite s xs s' :
  exchanges codec config c id done clientWrite s xs s' ->
  forall fuel prereq L,
    fst (saslLoop codec config fuel c true id done clientWrite prereq L s)
    <> OutOfFuel ->
    saslLoop codec config fuel c true id done clientWrite prereq L s
    = (Returns (inr (fold_left (fun _ x => x_prereq x) xs prereq,
                     fold_left (fun l x => match x_response x with
                                           | Some y => SessionLifetimeMillis y
                                           | None => l
                                           end) xs L)), s').
Proof.
  induction 1 as [s|done clientWrite s x done' clientWrite' s1 xs s2 Hc Hx _ IH];
    intros fuel prereq L Hf.
  - destruct fuel; reflexivity.
  - destruct fuel as [|fuel].
    + cbn [saslLoop] in Hf. rewrite Hc in Hf. exfalso. apply Hf. reflexivity.
    + cbn [saslLoop] in *. rewrite Hc in *.
      rewrite (bind_Returns _ _ _ _ _ (exchanged_saslRound _ _ _ _ _ _ _ _ _ Hx prereq L))
        in *.
      cbn [fold_left]. apply IH. exact Hf.
Qed.

(** Conversely, a round of the challenge loop that does not end [doSasl]
    is an exchange. *)
Lemma saslRound_exchanged c id done clientWrite prereq L s done' clientWrite' p' L' s' :
  saslRound codec config c true id done clientWrite prereq L s
  = (Returns (inr (done', clientWrite', p', L')), s') ->
  exists x,
    exchanged codec config c id clientWrite s done x done' clientWrite' s' /\
    p' = x_prereq x /\
    L' = match x_response x with
         | Some resp => SessionLifetimeMillis resp
         | None => L
         end.
Proof.
  unfold saslRound. cbv zeta.
  destruct (timeouts codec (mkRequest (SASLAuthenticateRequest []) 0))
    as [rt wt] eqn:Ert. cbn [negb].
  intros H. apply bind_Returns_inv in H as (ex & sx & H1 & H2).
  apply bind_Returns_inv in H1 as (v & sv & EV & H1).
  assert (sv = s) as ->.
  { unfold loadVersions, bind, getBroker, ret in EV. congruence. }
  apply bind_Returns_inv in H1 as (version & sv & EA & H1).
  assert (sv = s) as ->.
  { destruct v; unfold versionsAt, throw, lift in EA; congruence. }
  apply bind_Returns_inv in H1 as ([] & s0 & EL & H1).
  apply bind_Returns_inv in H1 as (p & s1 & EP & H1).
  apply bind_Returns_inv in H1 as (t & s2 & ET & H1).
  apply bind_Returns_inv in H1 as (w & s3 & EW & H1).
  apply bind_Returns_inv in H1 as ([] & s3' & EH & H1).
  destruct (w_writeErr w) as [e|] eqn:Hw.
  { unfold ret in H1. injection H1 as <- <-. discriminate H2. }
  cbn [orb] in EH. destruct done.
  - unfold ret in H1. injection H1 as <- <-. cbn [negb] in H2.
    unfold ret in H2. injection H2 as <- <- <- <- <-.
    eexists. split; [eapply exchanged_unanswered; eassumption|].
    split; reflexivity.
  - unfold ret in EH. injection EH as <-. cbn [negb] in H1.
    apply bind_Returns_inv in H1 as ([rawResp err] & s4 & ER & H1).
    destruct err as [e|]; [unfold ret in H1; injection H1 as <- <-; discriminate H2|].
    cbn [Version] in H1.
    destruct (readSASLAuthenticate codec version rawResp) as [resp err] eqn:ED.
    destruct err as [e|]; [unfold ret in H1; injection H1 as <- <-; discriminate H2|].
    destruct (ErrorForCode (AuthErrorCode resp)) as [e|] eqn:EC.
    { destruct (ErrorMessage resp); unfold ret in H1; injection H1 as <- <-;
        discriminate H2. }
    unfold ret in H1. injection H1 as <- <-. cbn [negb] in H2.
    apply bind_Returns_inv in H2 as ([[d cw] err] & s5 & ECh & H2).
    destruct err as [e|]; unfold ret in H2; [discriminate H2|].
    injection H2 as <- <- <- <- <-.
    eexists. split;
      [eapply exchanged_answered; try eassumption; cbn [fst]; exact ER|].
    split; reflexivity.
Qed.

(** Every run of the challenge loop that does not end [doSasl] with an
    error is a sequence of exchanges. *)
Lemma saslLoop_exchanges fuel : forall c id done clientWrite prereq L s p' L' s',
  saslLoop codec config fuel c true id done clientWrite prereq L s
  = (Returns (inr (p', L')), s') ->
  exists xs, exchanges codec config c id done clientWrite s xs s'.
Proof.
  induction fuel as [|fuel IH]; intros c id done clientWrite prereq L s p' L' s';
    cbn [saslLoop];
    destruct (negb done || (0 <? len clientWrite)) eqn:Hc;
    try discriminate.
  - apply orb_false_iff in Hc as [Hd Hl]. apply negb_false_iff in Hd. subst done.
    destruct clientWrite; [|discriminate Hl].
    intros [= _ _ <-]. exists []. constructor.
  - intros H. apply bind_Returns_inv in H as ([e|[[[d cw] p1] L1]] & s1 & ER & H);
      [discriminate H|].
    apply saslRound_exchanged in ER as (x & Hx & _ & _).
    apply IH in H as (xs & Hxs).
    exists (x :: xs). econstructor; eassumption.
  - apply orb_false_iff in Hc as [Hd Hl]. apply negb_false_iff in Hd. subst done.
    destruct clientWrite; [|discriminate Hl].
    intros [= _ _ <-]. exists []. constructor.
Qed.

(** Every [doSasl] over SASLAuthenticate requests that gets through its
    challenge loop has authenticated through a sequence of exchanges. *)
Lemma saslChallenges_authenticated c id s p L s' :
  saslChallenges codec config c true id s = (Returns (inr (p, L)), s') ->
  exists xs, authenticated codec config c id s xs s'.
Proof.
  unfold saslChallenges. intros H.
  apply bind_Returns_inv in H as ([clientWrite err] & s0 & EA & H).
  destruct err as [e|]; [discriminate H|].
  destruct (Z.eqb_spec (len clientWrite) 0) as [Hz|Hz].
  { apply bind_Returns_inv in H as (cxn & s1 & _ & H). discriminate H. }
  apply bind_Returns_inv in H as (cxn & s0' & EG & H).
  assert (s0' = s0) as ->.
  { unfold getCxn in EG. destruct (nth_error (heap s0) c);
      unfold ret, throw in EG; congruence. }
  apply bind_Returns_inv in H as ([] & s1 & EP & H).
  apply bind_Returns_inv in H as (t & s2 & EN & H).
  apply bind_Returns_inv in H as (fuel & s2' & EF & H).
  assert (s2' = s2) as ->.
  { unfold saslFuel, bind, getWorld, ret in EF. congruence. }
  apply saslLoop_exchanges in H as (xs & Hxs).
  exists xs. econstructor; try eassumption.
  unfold len in *. lia.
Qed.

(** C6, amended.  Let [doSasl] authenticate over SASLAuthenticate
    requests through the exchanges [xs], one after the other: the last
    request was written just after the clock read [prereq], and the last
    response that was read carries a session lifetime [L > 0].  Then
    [doSasl] reads the clock twice more, [t1] and then [t2], and returns no
    error.  The recorded expiry is [t2] plus
    [L - max(int64(float64(ms(t1 - prereq)) * 1.1), 2500)] milliseconds: it
    is counted from the time read after the exchanges, not from [prereq],
    and it is the last write and the last response that count, whatever
    the exchanges before them read.  If that difference is negative, the
    client sleeps 100 ms before continuing; otherwise it does not sleep.
    Every [doSasl] that gets through its challenge loop has such a sequence
    of exchanges ([saslChallenges_authenticated]). *)
Theorem doSasl_expiry c id s xs s1 prereq resp cxn t1 sa t2 sb :
  authenticated codec config c id s xs s1 ->
  finalWrite xs = Some prereq ->
  finalResponse xs = Some resp ->
  0 < SessionLifetimeMillis resp ->
  nth_error (heap s1) c = Some cxn ->
  Now s1 = (Returns t1, sa) ->
  Now sa = (Returns t2, sb) ->
  let L := SessionLifetimeMillis resp in
  let latency :=
    Z.max 2500
      (float64.toInt64
         (float64.mul (float64.ofInt (time.Milliseconds (time.Sub t1 prereq)))
                      float64.c1_1)) in
  let useLifetime := Int.int64 (L - latency) in
  exists s2,
    doSasl codec config c true id s = (Returns None, s2) /\
    nth_error (heap s2) c
    = Some (set_expiry cxn
              (time.Add t2 (Int.int64 (useLifetime * time.Millisecond)))) /\
    trace s2
    = trace s1 ++ Log LogLevelDebug lifetimeMsg
               :: (if useLifetime <? 0
                   then [Log LogLevelInfo spinLoopMsg; Sleep (100 * time.Millisecond)]
                   else []) /\
    (L <= 9000000000000 -> latency <= 9000000000000 ->
     expiry (set_expiry cxn
               (time.Add t2 (Int.int64 (useLifetime * time.Millisecond))))
     = t2 + (L - latency) * 1000000).
Proof.
  intros HA HW HR HL Hc E1 E2 L latency useLifetime.
  assert (E : saslChallenges codec config c true id s
              = (Returns (inr (prereq, L)), s1)).
  { pose proof (noOut_saslChallenges codec config c true id s) as Hf.
    destruct HA as [clientWrite s0 cxn0 s1' t s2' xs s' EA Hlen EG EPut ENow Hxs].
    unfold saslChallenges in *.
    rewrite (bind_Returns _ _ _ _ _ EA) in *.
    destruct (Z.eqb_spec (len clientWrite) 0) as [Hz|_]; [lia|].
    rewrite (bind_Returns _ _ _ _ _ EG) in *.
    rewrite (bind_Returns _ _ _ _ _ EPut) in *.
    rewrite (bind_Returns _ _ _ _ _ ENow) in *.
    unfold saslFuel in *. unfold bind at 1 in Hf. unfold bind at 1.
    unfold bind at 1 in Hf. unfold bind at 1.
    cbn [getWorld ret fst snd] in *.
    rewrite (exchanges_saslLoop _ _ _ _ _ _ _ Hxs _ t 0 Hf).
    rewrite (finalWrite_fold _ None t _ HW I).
    rewrite (finalResponse_fold _ None 0 _ HR I). reflexivity. }
  destruct (saslLifetime_spec c prereq L s1 cxn t1 sa t2 sb HL Hc E1 E2)
    as (s2 & ES & HH & HT).
  rewrite saslLatency_max in HH, HT.
  fold latency in HH, HT. fold useLifetime in HH, HT.
  exists s2. split; [|split; [exact HH|split; [exact HT|]]].
  - unfold doSasl. rewrite (bind_Returns _ _ _ _ _ E).
    rewrite (bind_Returns _ _ _ _ _ ES). reflexivity.
  - intros HLs Hlat. cbn [expiry set_expiry]. unfold time.Add. f_equal.
    assert (2500 <= latency) by (subst latency; lia).
    assert (HU : useLifetime = L - latency).
    { subst useLifetime. unfold Int.int64. apply IntFacts.wrap_small; [lia|].
      change (2 ^ (64 - 1)) with 9223372036854775808. lia. }
    rewrite HU. unfold time.Millisecond, Int.int64.
    apply IntFacts.wrap_small; [lia|].
    change (2 ^ (64 - 1)) with 9223372036854775808. lia.
Qed.

End SaslLifetime.

(** Steps of a run on the small instance, by evaluation. *)
Ltac ran := vm_compute; reflexivity.

Ltac answered_exchange :=
  eapply exchanged_answered; [ran|ran|ran|ran|ran|ran|ran|ran|ran|ran|ran].

Ltac unanswered_exchange :=
  eapply exchanged_unanswered; [ran|ran|ran|ran|ran|ran|ran|ran].

Lemma doSasl_expiry_witness :
  exists xs s1 s2,
    authenticated Example.codec Example.saslConfig 0%nat "id"
                  Example.saslExchanges xs s1 /\
    map x_prereq xs
    = map (fun ms => ms * time.Millisecond) [1010; 2010; 3010] /\
    map (fun x => option_map SessionLifetimeMillis (x_response x)) xs
    = [Some 5000; Some 10000; None] /\
    doSasl Example.codec Example.saslConfig 0%nat true "id" Example.saslExchanges
    = (Returns None, s2) /\
    option_map expiry (nth_error (heap s2) 0)
    = Some ((6011 + (10000 - 3300)) * time.Millisecond) /\
    filter (fun e => match e with Sleep _ => true | _ => false end) (trace s2) = [].
Proof.
  eassert (HA : authenticated Example.codec Example.saslConfig 0%nat "id"
                              Example.saslExchanges _ _).
  { eapply authenticated_by; [ran|reflexivity|ran|ran|ran|].
    eapply exchanges_more; [reflexivity|answered_exchange|].
    eapply exchanges_more; [reflexivity|answered_exchange|].
    eapply exchanges_more; [reflexivity|unanswered_exchange|].
    apply exchanges_end. }
  assert (HL : 0 < 10000) by lia.
  destruct (doSasl_expiry Example.codec Example.saslConfig 0%nat "id"
                          Example.saslExchanges _ _ _ _ _ _ _ _ _
                          HA eq_refl eq_refl HL eq_refl eq_refl eq_refl)
    as (s2 & ED & HH & HT & _).
  do 2 eexists. exists s2. split; [exact HA|].
  split; [ran|]. split; [ran|]. split; [exact ED|]. split.
  - rewrite HH. ran.
  - rewrite HT. ran.
Defined.

(** C6, as the spec states it, fails: in this run of one exchange the
    time read before the write is 1010 ms, the lifetime 10000 ms and the
    latency taken off 2500 ms, so the spec's expiry is 8510 ms; the code
    records 8701 ms, counted from the clock reading taken after the
    exchange. *)
Lemma expiry_not_counted_from_prereq :
  exists xs s1 s2,
    authenticated Example.codec Example.saslConfig 0%nat "id"
                  Example.saslRun xs s1 /\
    finalWrite xs = Some (1010 * time.Millisecond) /\
    option_map SessionLifetimeMillis (finalResponse xs) = Some 10000 /\
    doSasl Example.codec Example.saslConfig 0%nat true "id" Example.saslRun
    = (Returns None, s2) /\
    option_map expiry (nth_error (heap s2) 0) = Some (8701 * time.Millisecond) /\
    saslLatency (190 * time.Millisecond) = 2500 /\
    8701 * time.Millisecond
    <> 1010 * time.Millisecond + (10000 - 2500) * time.Millisecond.
Proof.
  do 3 eexists. split.
  { eapply authenticated_by; [ran|reflexivity|ran|ran|ran|].
    eapply exchanges_more; [reflexivity|answered_exchange|].
    apply exchanges_end. }
  split; [ran|]. split; [ran|]. split; [ran|]. split; [ran|]. split; [ran|].
  vm_compute. discriminate.
Qed.

(* ================================================================== *)
(** ** The reauthentication loop of [handleReq] *)
(* ================================================================== *)

Lemma dial_returns s : exists r s', dial s = (Returns r, s') /\ quietly s s'.
Proof.
  unfold dial, bind, getWorld, putWorld, ret, quietly.
  destruct (dials (world s)); cbn; eauto 7.
Qed.

Section Reauth.

Variable codec : Codec.
Variable config : cfg.

(** [die] on a live connection: the socket is closed and the connection
    and its queue of responses are marked dead. *)
Lemma die_live c s cxn :
  nth_error (heap s) c = Some cxn ->
  dead cxn = false ->
  die c s
  = (Returns tt,
     mkState (b s)
             (update (heap s) c
                     (set_resps (set_dead cxn true)
                                (ringResp_die (resps (set_dead cxn true)))))
             (world s)
             (trace s ++ [HookDisconnect c; ConnClose c])).
Proof.
  intros Hc Hd. unfold die.
  rewrite (bind_Returns _ _ _ _ _ (getCxn_valid _ _ _ Hc)). rewrite Hd.
  unfold putCxn at 1. unfold bind at 1.
  unfold closeConn, emit. unfold bind at 2. unfold bind at 1.
  set (s1 := mkState _ _ _ _).
  assert (Hc1 : nth_error (heap s1) c = Some (set_dead cxn true)).
  { subst s1. cbn. eapply nth_error_update_eq. exact Hc. }
  rewrite (bind_Returns _ _ _ _ _ (getCxn_valid _ _ _ Hc1)).
  unfold putCxn. subst s1. cbn. f_equal. f_equal.
  - clear Hc1. revert c Hc. generalize (heap s) as l.
    induction l as [|h t IH]; intros [|c] Hc; cbn in *; try discriminate;
      [reflexivity|]. f_equal. apply IH. exact Hc.
  - rewrite <- app_assoc. reflexivity.
Qed.

(** The loop entered with its counter past 15 and the session expired:
    the promise fails with the reauth-loop error and the connection is
    killed. *)
Lemma reauthenticate_gives_up fuel c promise id k s cxn t s1 :
  15 < k ->
  nth_error (heap s) c = Some cxn ->
  dead cxn = false ->
  time.IsZero (expiry cxn) = false ->
  Now s = (Returns t, s1) ->
  time.After t (expiry cxn) = true ->
  exists s2,
    reauthenticate codec config (S fuel) c promise id k s = (Returns true, s2) /\
    trace s2 = trace s ++ [Log LogLevelError reauthLoopMsg;
                           Promise promise None (Some errSaslReauthLoop);
                           HookDisconnect c; ConnClose c] /\
    exists cxn', nth_error (heap s2) c = Some cxn' /\
                 dead cxn' = true /\ ringDead (resps cxn') = true.
Proof.
  intros Hk Hc Hd Hz EN Ha.
  destruct (Now_quietly s) as (t' & s1' & EN' & B1 & H1 & T1 & _).
  rewrite EN in EN'. injection EN' as <- <-.
  cbn [reauthenticate].
  rewrite (bind_Returns _ _ _ _ _ (getCxn_valid _ _ _ Hc)).
  rewrite Hz. rewrite (bind_Returns _ _ _ _ _ (bind_Returns _ _ _ _ _ EN)).
  unfold ret at 1. rewrite Ha.
  destruct (Z.ltb_spec 15 k); [|lia].
  unfold emit at 1. unfold bind at 1. unfold emit at 1. unfold bind at 1.
  set (s2 := mkState _ _ _ _).
  assert (Hc2 : nth_error (heap s2) c = Some cxn) by (subst s2; cbn; congruence).
  rewrite (bind_Returns _ _ _ _ _ (die_live c s2 cxn Hc2 Hd)).
  unfold ret. eexists. split; [reflexivity|]. cbn [trace heap]. split.
  - subst s2. cbn [trace]. rewrite T1, <- !app_assoc. reflexivity.
  - eexists. split; [eapply nth_error_update_eq; exact Hc2|]. split; reflexivity.
Qed.

(** A request routed to a slot whose connection is dead makes
    [loadConnection] dial. *)
Lemma loadConnection_dead_dials id ctx req s c cxn :
  getSlot (b s) (route req) = Some c ->
  nth_error (heap s) c = Some cxn ->
  dead cxn = true ->
  exists derr evs,
    trace (snd (loadConnection codec config id ctx req s))
    = trace s ++ Log LogLevelDebug "opening connection to broker"
              :: HookConnect derr :: evs.
Proof.
  intros Hslot Hc Hd. unfold loadConnection. cbv zeta.
  unfold getBroker at 1. unfold bind at 1. rewrite Hslot.
  rewrite (bind_Returns _ _ _ _ _
             (bind_Returns _ _ _ _ _ (getCxn_valid _ _ _ Hc))).
  rewrite Hd. unfold ret at 1. cbv iota.
  unfold connect. unfold emit at 1. unfold bind at 2. unfold bind at 1.
  set (s0 := mkState _ _ _ _).
  destruct (dial_returns s0) as (derr & s1 & ED & _ & _ & T1 & _).
  rewrite (bind_Returns _ _ _ _ _ ED).
  unfold emit at 1. unfold bind at 1.
  exists derr.
  set (s2 := mkState _ _ _ _).
  assert (T2 : trace s2 = trace s ++ [Log LogLevelDebug "opening connection to broker";
                                      HookConnect derr]).
  { subst s2 s0. cbn [trace] in *. rewrite T1, <- app_assoc. reflexivity. }
  destruct derr as [e|]; cbv iota; unfold ret at 1; cbv iota beta.
  - exists []. exact T2.
  - match goal with
    | |- context [snd (?m s2)] =>
        assert (BM : bounded 0 m)
          by (pose proof (bounded_init codec config);
              pose proof bounded_closeConn; bounded_walk);
        destruct (BM s2) as (_ & evs & HT & _)
    end.
    exists evs. rewrite HT, T2, <- app_assoc. reflexivity.
Qed.

(** C7.  One dispatch of a request announces, and so performs, at most 15
    reauthentications, and always comes to an end.  When the loop of
    [handleReq] comes round for the 16th time with the session still
    expired, it fails the request's promise with the SASL-reauth-loop error
    and kills the connection; a later request routed to that connection
    finds it dead and dials a new socket. *)
Theorem handleReq_reauth_bound :
  (forall pr s,
      fst (handleReq codec config pr s) <> OutOfFuel /\
      (reauths (emitted s (snd (handleReq codec config pr s))) <= 15)%nat) /\
  (forall fuel c promise id s cxn t s1,
      nth_error (heap s) c = Some cxn ->
      dead cxn = false ->
      time.IsZero (expiry cxn) = false ->
      Now s = (Returns t, s1) ->
      time.After t (expiry cxn) = true ->
      exists s2,
        reauthenticate codec config (S fuel) c promise id 16 s = (Returns true, s2) /\
        trace s2 = trace s ++ [Log LogLevelError reauthLoopMsg;
                               Promise promise None (Some errSaslReauthLoop);
                               HookDisconnect c; ConnClose c] /\
        exists cxn', nth_error (heap s2) c = Some cxn' /\
                     dead cxn' = true /\ ringDead (resps cxn') = true) /\
  (forall id ctx req s c cxn,
      getSlot (b s) (route req) = Some c ->
      nth_error (heap s) c = Some cxn ->
      dead cxn = true ->
      exists derr evs,
        trace (snd (loadConnection codec config id ctx req s))
        = trace s ++ Log LogLevelDebug "opening connection to broker"
                  :: HookConnect derr :: evs).
Proof.
  split; [|split].
  - intros pr s. split.
    + apply noOut_handleReq.
    + apply after_emitted. apply bounded_handleReq.
  - intros fuel c promise id s cxn t s1 Hc Hd Hz EN Ha.
    eapply reauthenticate_gives_up; eauto. lia.
  - intros id ctx req s c cxn. apply loadConnection_dead_dials.
Qed.

End Reauth.

Lemma handleReq_reauth_bound_witness :
  let pr := Example.request (otherRequest 3 false []) in
  let run := handleReq Example.codec Example.saslConfig pr Example.shortLifetimes in
  fst run = Returns tt /\
  reauths (emitted Example.shortLifetimes (snd run)) = 15%nat /\
  (reauths (emitted Example.shortLifetimes (snd run)) <= 15)%nat /\
  List.length (filter (fun e => match e with Sleep _ => true | _ => false end)
                      (trace (snd run))) = 15%nat /\
  skipn 225 (trace (snd run))
  = [Log LogLevelError reauthLoopMsg; Promise 1 None (Some errSaslReauthLoop);
     HookDisconnect 0%nat; ConnClose 0%nat] /\
  option_map dead (nth_error (heap (snd run)) 0) = Some true /\
  exists derr evs,
    trace (snd (loadConnection Example.codec Example.saslConfig "id"
                               (Some Example.ctx) (pr_req pr) (snd run)))
    = trace (snd run) ++ Log LogLevelDebug "opening connection to broker"
                      :: HookConnect derr :: evs.
Proof.
  intros pr run.
  destruct (handleReq_reauth_bound Example.codec Example.saslConfig)
    as (HA & _ & HC).
  split; [vm_compute; reflexivity|].
  split; [vm_compute; reflexivity|].
  split; [exact (proj2 (HA pr Example.shortLifetimes))|].
  split; [vm_compute; reflexivity|].
  split; [vm_compute; reflexivity|].
  split; [vm_compute; reflexivity|].
  eapply (HC "id"%string (Some Example.ctx) (pr_req pr) (snd run) 0%nat);
    vm_compute; reflexivity.
Defined.

(* ================================================================== *)
(** ** Produce requests and acks *)
(* ================================================================== *)

Section Dispatch.

Variable codec : Codec.
Variable config : cfg.

(** [waitResp] on a connection whose queue is alive enqueues. *)
Lemma waitResp_live c pr s x :
  nth_error (heap s) c = Some x ->
  ringDead (resps x) = false ->
  waitResp c pr s
  = (Returns tt,
     mkState (b s)
             (update (heap s) c
                     (set_resps x {| elems := elems (resps x) ++ [pr];
                                     ringDead := false |}))
             (world s)
             (trace s ++ match elems (resps x) with
                         | [] => [GoHandleResps c pr]
                         | _ => []
                         end)).
Proof.
  intros Hc Hr. unfold waitResp.
  rewrite (bind_Returns _ _ _ _ _ (getCxn_valid _ _ _ Hc)).
  unfold ringResp_push. rewrite Hr.
  unfold putCxn at 1. unfold bind at 1.
  destruct (elems (resps x)); cbn.
  - reflexivity.
  - unfold ret. rewrite app_nil_r. reflexivity.
Qed.

(** C8, amended.  On a connection whose response queue is alive, once
    the request has been written without error:
    - a [*kmsg.ProduceRequest] has been rewritten with the configured acks
      (and, when these are 0, the produce timeout), its no-response flag is
      "configured acks = 0" and its empty response is a fresh, non-nil
      produce response at the request's version;
    - kgo's own [*produceRequest] is written as it is, its no-response
      flag is taken from its own acks field, and its response is the nil
      produce response;
    - no other request is rewritten or flagged;
    - a flagged request has its promise fulfilled at once with that
      response and no error, and nothing is enqueued;
    - any other request is enqueued as a [promisedResp] on the connection's
      response queue, and its promise is not called. *)
Theorem dispatch_after_write cxn pr req id s x w s1 :
  nth_error (heap s) cxn = Some x ->
  ringDead (resps x) = false ->
  writeRequest codec cxn (pr_ctx pr) (pr_enqueue pr)
               (fst (fst (produceSpecial config req))) id s
  = (Returns w, s1) ->
  w_writeErr w = None ->
  let req' := fst (fst (produceSpecial config req)) in
  let isNoResp := snd (fst (produceSpecial config req)) in
  let noResp := snd (produceSpecial config req) in
  (forall a t,
      body req = ProduceRequest a t ->
      req' = mkRequest
               (ProduceRequest (acks config)
                  (if acks config =? 0
                   then Int.int32 (time.Milliseconds (produceTimeout config))
                   else t))
               (Version req) /\
      isNoResp = (acks config =? 0) /\
      noResp = newProduceResponse (Version req)) /\
  (forall a,
      body req = produceRequest a ->
      req' = req /\ isNoResp = (a =? 0) /\ noResp = nilProduceResponse) /\
  ((forall a t, body req <> ProduceRequest a t) ->
   (forall a, body req <> produceRequest a) ->
   req' = req /\ isNoResp = false) /\
  (isNoResp = true ->
   dispatch codec config cxn pr req id s
   = (Returns tt,
      mkState (b s1) (heap s1) (world s1)
              (trace s1 ++
               [Promise (pr_promise pr) (Some noResp) None;
                HookE2E (Key req')
                  {| BytesWritten := w_bytesWritten w; BytesRead := 0;
                     WriteWait := w_writeWait w; TimeToWrite := w_timeToWrite w;
                     ReadWait := 0; TimeToRead := 0;
                     WriteErr := None; ReadErr := None |}]))) /\
  (isNoResp = false ->
   exists s2 x1,
     dispatch codec config cxn pr req id s = (Returns tt, s2) /\
     nth_error (heap s1) cxn = Some x1 /\
     resps x1 = resps x /\
     nth_error (heap s2) cxn
     = Some (set_resps x1
               {| elems := elems (resps x) ++ [pendingResponse codec pr req' w];
                  ringDead := false |}) /\
     trace s2 = trace s1 ++ match elems (resps x) with
                            | [] => [GoHandleResps cxn (pendingResponse codec pr req' w)]
                            | _ => []
                            end).
Proof.
  intros Hc Hr EW Hok req' isNoResp noResp.
  split; [|split; [|split; [|split]]].
  - intros a t Hb. subst req' isNoResp noResp. unfold produceSpecial.
    rewrite Hb. destruct (acks config =? 0) eqn:Ha; cbn.
    + apply Z.eqb_eq in Ha. rewrite Ha. auto.
    + auto.
  - intros a Hb. subst req' isNoResp noResp. unfold produceSpecial.
    rewrite Hb. cbn. auto.
  - intros H1 H2. subst req' isNoResp. unfold produceSpecial.
    destruct (body req) eqn:Hb; cbn; auto.
    + exfalso. eapply H2. reflexivity.
    + exfalso. eapply H1. reflexivity.
  - intros Hno. unfold dispatch. cbv zeta.
    subst req' isNoResp noResp.
    destruct (produceSpecial config req) as [[r n] nr]. cbn [fst snd] in *.
    rewrite (bind_Returns _ _ _ _ _ EW). rewrite Hok, Hno.
    unfold hookWriteE2E, emit, bind. cbn. rewrite <- app_assoc. reflexivity.
  - intros Hno. unfold dispatch. cbv zeta.
    subst req' isNoResp noResp.
    destruct (produceSpecial config req) as [[r n] nr]. cbn [fst snd] in *.
    rewrite (bind_Returns _ _ _ _ _ EW). rewrite Hok, Hno.
    destruct (writeRequest_spec codec cxn (pr_ctx pr) (pr_enqueue pr) r id s x Hc)
      as (w' & s1' & EW' & _ & Hspec & _).
    rewrite EW in EW'. injection EW' as <- <-.
    rewrite Hok in Hspec. destruct Hspec as [_ Hheap].
    set (x1 := set_corrID x (Int.int32 (corrID x + 1))) in *.
    assert (Hc1 : nth_error (heap s1) cxn = Some x1)
      by (rewrite Hheap; eapply nth_error_update_eq; exact Hc).
    rewrite (waitResp_live cxn _ s1 x1 Hc1 Hr).
    do 2 eexists. split; [reflexivity|]. split; [exact Hc1|].
    split; [reflexivity|]. cbn [heap trace]. split; [|reflexivity].
    eapply nth_error_update_eq. exact Hc1.
Qed.

End Dispatch.

(** A produce request of kmsg with acks configured to 0, written on a
    fresh produce connection: it goes out with acks 0 and the produce
    timeout, and the promise gets its empty response at once. *)
Lemma dispatch_after_write_witness :
  let s := mkState Example.loadedBroker [Example.freshCxn]
                   (Example.quiet [] [WriteAll] []) [] in
  let pr := Example.request (ProduceRequest 1 5) in
  let req := mkRequest (ProduceRequest 1 5) 7 in
  exists w s1,
    nth_error (heap s) 0 = Some Example.freshCxn /\
    ringDead (resps Example.freshCxn) = false /\
    writeRequest Example.codec 0%nat (pr_ctx pr) (pr_enqueue pr)
                 (fst (fst (produceSpecial (Example.config 0) req))) "id" s
    = (Returns w, s1) /\
    w_writeErr w = None /\
    fst (fst (produceSpecial (Example.config 0) req))
    = mkRequest (ProduceRequest 0 10000) 7 /\
    fst (dispatch Example.codec (Example.config 0) 0%nat pr req "id" s) = Returns tt /\
    filter (fun e => match e with Promise _ _ _ => true | _ => false end)
           (trace (snd (dispatch Example.codec (Example.config 0) 0%nat pr req "id" s)))
    = [Promise 1 (Some (newProduceResponse 7)) None] /\
    option_map (fun x => elems (resps x))
               (nth_error (heap (snd (dispatch Example.codec (Example.config 0)
                                               0%nat pr req "id" s))) 0)
    = Some [].
Proof.
  intros s pr req.
  destruct (writeRequest Example.codec 0%nat (pr_ctx pr) (pr_enqueue pr)
              (fst (fst (produceSpecial (Example.config 0) req))) "id" s)
    as [r s1] eqn:EW.
  pose proof EW as EW'. vm_compute in EW. injection EW as <- <-.
  destruct (dispatch_after_write Example.codec (Example.config 0) 0%nat pr req "id"
                                 s Example.freshCxn _ _ eq_refl eq_refl EW' eq_refl)
    as (HA & _ & _ & HB & _).
  destruct (HA 1 5 eq_refl) as (Hreq & Hno & Hresp).
  do 2 eexists. split; [reflexivity|]. split; [reflexivity|].
  split; [reflexivity|]. split; [reflexivity|].
  split; [rewrite Hreq; reflexivity|].
  rewrite (HB Hno). split; [reflexivity|]. split.
  - rewrite Hresp. vm_compute. reflexivity.
  - vm_compute. reflexivity.
Defined.

(** C8, as the spec states it, fails for the producer's own request type:
    with acks configured to 0, a [*produceRequest] (with acks 0) gets its
    promise fulfilled with the nil produce response, not with a non-nil
    empty one. *)
Lemma handleReq_produceRequest_nil_response :
  let s := mkState Example.noBroker []
                   (Example.quiet [] [WriteAll; WriteAll]
                                  (Example.frame 0 [x00; x00])) [] in
  let run := handleReq Example.codec (Example.config 0)
                       (Example.request (produceRequest 0)) s in
  acks (Example.config 0) = 0 /\
  Key (pr_req (Example.request (produceRequest 0))) = 0 /\
  fst run = Returns tt /\
  filter (fun e => match e with Promise _ _ _ => true | _ => false end)
         (trace (snd run))
  = [Promise 1 (Some nilProduceResponse) None].
Proof.
  vm_compute. repeat split; reflexivity.
Qed.

(* ================================================================== *)
(** ** Broker identity *)
(* ================================================================== *)

Lemma int64_small z : - 2 ^ 63 <= z < 2 ^ 63 -> Int.int64 z = z.
Proof.
  intros H. unfold Int.int64. apply IntFacts.wrap_small; [lia|].
  change (2 ^ (64 - 1)) with (2 ^ 63). exact H.
Qed.

(** [%d] tells integers apart. *)
Lemma Fmt_d_inj x y : Fmt.d x = Fmt.d y -> x = y.
Proof.
  unfold Fmt.d. intros H. apply DecimalZ.to_int_inj.
  assert (N : forall z, Z.to_int z <> Decimal.Pos Decimal.Nil /\
                        Z.to_int z <> Decimal.Neg Decimal.Nil).
  { intros [|p|p]; cbn; split; try discriminate;
      intros [= E]; exact (DecimalPos.Unsigned.to_uint_nonnil _ E). }
  pose proof (DecimalString.NilZero.isi _ (proj1 (N x)) (proj2 (N x))) as Hx.
  pose proof (DecimalString.NilZero.isi _ (proj1 (N y)) (proj2 (N y))) as Hy.
  rewrite H in Hx. congruence.
Qed.

(** What [%d] prints starts with a digit or a minus sign. *)
Lemma Fmt_d_head z rest : Fmt.d z <> String "s" rest.
Proof.
  unfold Fmt.d. destruct (Z.to_int z) as [d|d]; cbn; [|discriminate].
  destruct d; cbn; discriminate.
Qed.

(** Seed brokers are numbered up from [math.MinInt32]: the [n]-th seed
    has an ID below every real node ID and below the ID that stands for an
    unknown controller, and is logged as ["seed n"]. *)
Theorem logID_unknownSeedID n :
  0 <= n < 2147483638 ->
  unknownSeedID n = Int.MinInt32 + n /\
  unknownSeedID n < unknownControllerID /\
  logID (unknownSeedID n) = String.append "seed " (Fmt.d n).
Proof.
  intros H.
  assert (E : unknownSeedID n = Int.MinInt32 + n).
  { unfold unknownSeedID. rewrite int64_small by (unfold Int.MinInt32; lia).
    apply IntFacts.int32_small. unfold Int.in_int32, Int.MinInt32, Int.MaxInt32. lia. }
  rewrite E. unfold unknownControllerID, logID.
  split; [reflexivity|]. split; [unfold Int.MinInt32; lia|].
  destruct (Z.geb_spec (Int.MinInt32 + n) (-10)) as [G|G];
    [unfold Int.MinInt32 in G; lia|].
  rewrite (int64_small (Int.MinInt32 + n)) by (unfold Int.MinInt32; lia).
  replace (Int.MinInt32 + n - Int.MinInt32) with n by lia.
  rewrite int64_small by lia. reflexivity.
Qed.

Lemma logID_unknownSeedID_witness :
  unknownSeedID 2 = -2147483646 /\
  logID (unknownSeedID 2) = "seed 2"%string.
Proof.
  destruct (logID_unknownSeedID 2 ltac:(lia)) as (E & _ & L).
  split; [exact E|exact L].
Defined.

Lemma logID_inj a b :
  Int.in_int32 a -> Int.in_int32 b -> logID a = logID b -> a = b.
Proof.
  unfold Int.in_int32, Int.MinInt32, Int.MaxInt32, logID. intros Ha Hb.
  rewrite !(int64_small a), !(int64_small b) by lia.
  rewrite !int64_small by (unfold Int.MinInt32; lia).
  destruct (Z.geb_spec a (-10)) as [Ga|Ga], (Z.geb_spec b (-10)) as [Gb|Gb];
    intros H.
  - apply Fmt_d_inj. exact H.
  - exfalso. exact (Fmt_d_head _ _ H).
  - exfalso. symmetry in H. exact (Fmt_d_head _ _ H).
  - cbn in H. injection H as H1. apply Fmt_d_inj in H1. lia.
Qed.

(** Two different node IDs are never logged alike, be they real IDs,
    seeds or one of each. *)
Theorem logID_distinct a b :
  Int.in_int32 a -> Int.in_int32 b -> a <> b ->
  String.eqb (logID a) (logID b) = false.
Proof.
  intros Ha Hb Hne. apply String.eqb_neq. intros H.
  apply Hne. exact (logID_inj a b Ha Hb H).
Qed.

Lemma logID_distinct_witness :
  String.eqb (logID 2) (logID (unknownSeedID 2)) = false.
Proof.
  apply logID_distinct.
  - unfold Int.in_int32, Int.MinInt32, Int.MaxInt32. lia.
  - vm_compute. split; discriminate.
  - vm_compute. discriminate.
Defined.

(** [equals] holds exactly when the node ID, the port, the host and the
    rack of the two descriptions coincide; a missing rack matches only a
    missing rack. *)
Theorem equals_iff me other :
  equals me other = true <->
  NodeID me = kmsg.NodeID other /\ Port me = kmsg.Port other /\
  Host me = kmsg.Host other /\ Rack me = kmsg.Rack other.
Proof.
  unfold equals. rewrite !andb_true_iff, !Z.eqb_eq, String.eqb_eq.
  destruct (Rack me) as [r|], (kmsg.Rack other) as [r'|]; cbn.
  - rewrite String.eqb_eq. split.
    + intros [[[? ?] ?] ->]. auto.
    + intros (? & ? & ? & [= ->]). auto.
  - split; [intros [_ H]; discriminate|intros (_ & _ & _ & H); discriminate].
  - split; [intros [_ H]; discriminate|intros (_ & _ & _ & H); discriminate].
  - split; [intros [[[? ?] ?] _]; auto|intros (? & ? & ? & _); auto].
Qed.

(* ================================================================== *)
(** ** Reading a frame *)
(* ================================================================== *)

(** Asking for the time or for the winner of a [select] leaves the bytes
    on the wire where they are. *)
Lemma Now_keeps_inbound s :
  exists t s', Now s = (Returns t, s') /\ quietly s s' /\
               inbound (world s') = inbound (world s).
Proof.
  unfold Now, bind, getWorld, putWorld, ret, quietly.
  destruct (clock (world s)); cbn; eauto 8.
Qed.

Lemma selected_keeps_inbound s :
  exists x s', selected s = (Returns x, s') /\ quietly s s' /\
               inbound (world s') = inbound (world s).
Proof.
  unfold selected, bind, getWorld, putWorld, ret, quietly.
  destruct (selects (world s)); cbn; eauto 8.
Qed.

(** [io.ReadFull] when enough bytes are there. *)
Lemma readFull_enough n s front rest :
  0 <= n ->
  inbound (world s) = front ++ rest ->
  len front = n ->
  exists s',
    readFull n s = (Returns (front, None), s') /\ quietly s s' /\
    inbound (world s') = rest.
Proof.
  intros Hn Hin Hlen. unfold readFull, bind, getWorld, putWorld, ret, quietly.
  cbn. unfold len in Hlen.
  assert (E : Z.to_nat n = List.length front) by lia.
  rewrite Hin, E, length_app.
  destruct (Nat.leb_spec (List.length front) (List.length front + List.length rest));
    [|lia].
  eexists. split.
  - rewrite firstn_app, Nat.sub_diag, firstn_all. cbn. rewrite app_nil_r.
    reflexivity.
  - cbn. split; [repeat split|].
    rewrite skipn_app, Nat.sub_diag, skipn_all. reflexivity.
Qed.

Lemma lenPrefix_length n : len (BigEndian.lenPrefix n) = 4.
Proof. reflexivity. Qed.

(** The length prefix of a size within the ceiling is accepted. *)
Lemma parseReadSize_lenPrefix maxSize N :
  maxSize <= Int.MaxInt32 -> 0 <= N <= maxSize ->
  parseReadSize maxSize (BigEndian.lenPrefix N) = Returns (N, None).
Proof.
  intros Hmax HN. unfold Int.MaxInt32 in Hmax.
  assert (HU : Int.uint32 N = N).
  { unfold Int.uint32. apply Z.mod_small.
    change (2 ^ 32) with 4294967296. lia. }
  pose proof (BigEndianFacts.Uint32_lenPrefix N) as HD. rewrite HU in HD.
  unfold BigEndian.lenPrefix in *.
  rewrite (parseReadSize_cases _ _ _ _ _ _ HD). cbv zeta.
  rewrite IntFacts.int32_small
    by (unfold Int.in_int32, Int.MinInt32, Int.MaxInt32; lia).
  destruct (Z.ltb_spec N 0); [lia|].
  destruct (Z.gtb_spec N maxSize); [lia|]. reflexivity.
Qed.

(** A correlation ID survives its four bytes. *)
Lemma int32_uint32 z : Int.in_int32 z -> Int.int32 (Int.uint32 z) = z.
Proof.
  unfold Int.in_int32, Int.MinInt32, Int.MaxInt32. intros H.
  assert (R : 0 <= Int.uint32 z < 2 ^ 32)
    by (unfold Int.uint32; apply Z.mod_pos_bound; lia).
  rewrite (IntFacts.int32_of_uint32 _ R).
  unfold Int.uint32 in *. change (2 ^ 32) with 4294967296 in *.
  change (2 ^ 31) with 2147483648.
  destruct (Z.ltb_spec z 0).
  - assert (E : z mod 4294967296 = z + 4294967296).
    { replace z with ((z + 4294967296) + (-1) * 4294967296) at 1 by lia.
      rewrite Z.mod_add by lia. apply Z.mod_small. lia. }
    rewrite E. destruct (Z.ltb_spec (z + 4294967296) 2147483648); lia.
  - rewrite Z.mod_small by lia.
    destruct (Z.ltb_spec z 2147483648); lia.
Qed.

Lemma Uint32_app_lenPrefix n rest :
  BigEndian.Uint32 (BigEndian.lenPrefix n ++ rest) = Returns (Int.uint32 n).
Proof. exact (BigEndianFacts.Uint32_lenPrefix n). Qed.

(** [io.ReadFull] takes bytes off the front of the wire, never more than
    it was asked for. *)
Lemma readFull_takes n s :
  0 <= n ->
  exists bs err s',
    readFull n s = (Returns (bs, err), s') /\ quietly s s' /\
    len bs <= n /\
    inbound (world s') = skipn (List.length bs) (inbound (world s)).
Proof.
  intros Hn. unfold readFull, bind, getWorld, putWorld, ret, quietly. cbn.
  destruct (Nat.leb_spec (Z.to_nat n) (List.length (inbound (world s)))).
  - do 3 eexists. split; [reflexivity|]. cbn. split; [repeat split|].
    unfold len. rewrite !firstn_length_le by assumption.
    split; [lia|reflexivity].
  - do 3 eexists. split; [reflexivity|]. cbn. split; [repeat split|].
    unfold len. split; [lia|]. rewrite skipn_all. reflexivity.
Qed.

Lemma readFull_long n s :
  (Z.to_nat n <= List.length (inbound (world s)))%nat ->
  readFull n s
  = (Returns (firstn (Z.to_nat n) (inbound (world s)), None),
     mkState (b s) (heap s)
             (set_inbound (world s) (skipn (Z.to_nat n) (inbound (world s))))
             (trace s)).
Proof.
  intros H. unfold readFull, bind, getWorld, putWorld, ret. cbn.
  destruct (Nat.leb_spec (Z.to_nat n) (List.length (inbound (world s))));
    [reflexivity|lia].
Qed.

Lemma readFull_short n s :
  (List.length (inbound (world s)) < Z.to_nat n)%nat ->
  readFull n s
  = (Returns (inbound (world s),
              Some (otherError match inbound (world s) with
                               | [] => "EOF"
                               | _ => "unexpected EOF"
                               end)),
     mkState (b s) (heap s) (set_inbound (world s) []) (trace s)).
Proof.
  intros H. unfold readFull, bind, getWorld, putWorld, ret. cbn.
  destruct (Nat.leb_spec (Z.to_nat n) (List.length (inbound (world s))));
    [lia|reflexivity].
Qed.

(** A prefix that [parseReadSize] accepts announces a size between 0 and
    the ceiling. *)
Lemma parseReadSize_accepts maxSize sizeBuf size :
  parseReadSize maxSize sizeBuf = Returns (size, None) -> 0 <= size <= maxSize.
Proof.
  unfold parseReadSize.
  destruct (BigEndian.Uint32 sizeBuf) as [u|p|]; cbn [run_bind]; try discriminate.
  cbv zeta.
  destruct (Z.ltb_spec (Int.int32 u) 0); [discriminate|].
  destruct (Z.gtb_spec (Int.int32 u) maxSize).
  - destruct (maxSize =? 1213486160); [discriminate|].
    destruct (index sizeBuf 1); cbn [run_bind]; try discriminate.
    destruct (index sizeBuf 2); cbn [run_bind]; try discriminate.
    destruct (index sizeBuf 0); cbn [run_bind]; try discriminate.
    destruct (_ && _); discriminate.
  - intros [= <-]. lia.
Qed.

Lemma parseReadSize_returns maxSize b0 b1 b2 b3 :
  exists size err, parseReadSize maxSize [b0; b1; b2; b3] = Returns (size, err).
Proof.
  destruct (Uint32_four b0 b1 b2 b3) as (u & Hu & _).
  rewrite (parseReadSize_cases _ _ _ _ _ _ Hu). cbv zeta.
  repeat match goal with
         | |- context [if ?x then _ else _] => destruct x
         end; eauto.
Qed.

Section ReadingFrames.

Variable codec : Codec.
Variable config : cfg.

(** A well-formed frame on the wire: [readFrame] hands back its payload
    and stops right behind it. *)
Lemma readFrame_frame s payload rest :
  maxBrokerReadBytes config <= Int.MaxInt32 ->
  len payload <= maxBrokerReadBytes config ->
  inbound (world s) = BigEndian.lenPrefix (len payload) ++ payload ++ rest ->
  exists s',
    readFrame config s = (Returns (4 + len payload, payload, None), s') /\
    quietly s s' /\ inbound (world s') = rest.
Proof.
  intros Hmax Hfit Hin. unfold readFrame.
  destruct (readFull_enough 4 s _ _ ltac:(lia) Hin (lenPrefix_length _))
    as (s1 & E1 & Q1 & I1).
  rewrite (bind_Returns _ _ _ _ _ E1).
  unfold lift at 1. unfold bind at 1.
  rewrite parseReadSize_lenPrefix by (unfold len in *; lia).
  destruct (readFull_enough (len payload) s1 _ _ ltac:(unfold len; lia) I1 eq_refl)
    as (s2 & E2 & Q2 & I2).
  rewrite (bind_Returns _ _ _ _ _ E2). unfold ret.
  eexists. split; [reflexivity|]. split; [|exact I2].
  eapply quietly_trans; eassumption.
Qed.

(** The reading goroutine of [readConn] takes exactly the bytes it counts
    off the front of the wire. *)
Lemma readFrame_ceiling s :
  exists n buf err s',
    readFrame config s = (Returns (n, buf, err), s') /\
    0 <= n <= 4 + Z.max 0 (maxBrokerReadBytes config) /\
    len buf <= Z.max 0 (maxBrokerReadBytes config) /\
    inbound (world s') = skipn (Z.to_nat n) (inbound (world s)) /\
    (forall b0 b1 b2 b3 rest size e,
        inbound (world s) = b0 :: b1 :: b2 :: b3 :: rest ->
        parseReadSize (maxBrokerReadBytes config) [b0; b1; b2; b3]
        = Returns (size, Some e) ->
        n = 4 /\ buf = [] /\ err = Some e /\ inbound (world s') = rest).
Proof.
  unfold readFrame.
  destruct (Nat.leb_spec 4 (List.length (inbound (world s)))) as [Hlen|Hlen].
  - (* the prefix is there *)
    rewrite (bind_Returns _ _ _ _ _ (readFull_long 4 s Hlen)).
    change (Z.to_nat 4) with 4%nat.
    destruct (inbound (world s)) as [|b0 [|b1 [|b2 [|b3 rest]]]] eqn:Hin;
      cbn in Hlen; try lia.
    cbn [firstn skipn].
    change (len [b0; b1; b2; b3]) with 4.
    destruct (parseReadSize_returns (maxBrokerReadBytes config) b0 b1 b2 b3)
      as (size & perr & EP).
    unfold lift at 1. unfold bind at 1. rewrite EP.
    destruct perr as [e|].
    + unfold ret. do 4 eexists. split; [reflexivity|]. cbn [world inbound].
      change (len (@nil byte)) with 0.
      split; [lia|]. split; [lia|]. split; [reflexivity|].
      intros ? ? ? ? ? ? ? [= <- <- <- <- <-]. rewrite EP. intros [= <- <-]. auto.
    + pose proof (parseReadSize_accepts _ _ _ EP) as Hsz.
      destruct (readFull_takes size
                  (mkState (b s) (heap s)
                           (set_inbound (world s) rest) (trace s))
                  ltac:(lia))
        as (buf & err2 & s2 & E2 & Q2 & L2 & I2).
      rewrite (bind_Returns _ _ _ _ _ E2). unfold ret.
      do 4 eexists. split; [reflexivity|].
      cbn [world inbound set_inbound] in I2.
      assert (Hb : 0 <= len buf) by (unfold len; lia).
      split; [lia|]. split; [lia|]. split.
      * rewrite I2. unfold len.
        replace (Z.to_nat (4 + Z.of_nat (List.length buf)))
          with (4 + List.length buf)%nat by lia.
        cbn [skipn Nat.add]. reflexivity.
      * intros ? ? ? ? ? ? ? [= <- <- <- <- <-]. rewrite EP. discriminate.
  - (* the wire ends inside the prefix *)
    rewrite (bind_Returns _ _ _ _ _ (readFull_short 4 s Hlen)). unfold ret.
    do 4 eexists. split; [reflexivity|]. cbn [world inbound set_inbound].
    change (len (@nil byte)) with 0.
    split; [unfold len; lia|]. split; [lia|]. split.
    + unfold len. rewrite Nat2Z.id. rewrite skipn_all. reflexivity.
    + intros ? ? ? ? ? ? ? Hin. rewrite Hin in Hlen. cbn in Hlen. lia.
Qed.

(** The read ceiling.  Whatever the broker sends, [readConn] comes back
    having taken exactly the [nread] bytes it reports off the front of the
    wire: at most the four bytes of the length prefix and
    [maxBrokerReadBytes] of payload, and the buffer it returns is no
    longer than [maxBrokerReadBytes].  When [parseReadSize] rejects the
    prefix, not a byte behind the prefix has been touched. *)
Theorem readConn_ceiling c ctx timeout enq s :
  exists r s',
    readConn config c ctx timeout enq s = (Returns r, s') /\
    0 <= r_nread r <= 4 + Z.max 0 (maxBrokerReadBytes config) /\
    len (r_buf r) <= Z.max 0 (maxBrokerReadBytes config) /\
    inbound (world s') = skipn (Z.to_nat (r_nread r)) (inbound (world s)) /\
    (forall b0 b1 b2 b3 rest size e,
        inbound (world s) = b0 :: b1 :: b2 :: b3 :: rest ->
        parseReadSize (maxBrokerReadBytes config) [b0; b1; b2; b3]
        = Returns (size, Some e) ->
        r_nread r = 4 /\ r_buf r = [] /\ r_err r <> None /\
        inbound (world s') = rest).
Proof.
  unfold readConn.
  destruct (Now_keeps_inbound s) as (t0 & s0 & E0 & Q0 & I0).
  step E0.
  destruct (readFrame_ceiling s0) as (n & buf & err & s1 & E1 & Hn & Hb & I1 & HP).
  step E1. unfold Since.
  destruct (Now_keeps_inbound s1) as (t2 & s2 & E2 & Q2 & I2).
  step E2.
  destruct (selected_keeps_inbound s2) as (sel & s3 & E3 & Q3 & I3).
  step E3. unfold ret.
  do 2 eexists. split; [reflexivity|].
  cbn [r_nread r_buf r_err].
  split; [exact Hn|]. split; [exact Hb|]. split.
  - rewrite I3, I2, I1, I0. reflexivity.
  - intros b0 b1 b2 b3 rest size e Hin EP. rewrite <- I0 in Hin.
    destruct (HP _ _ _ _ _ _ _ Hin EP) as (-> & -> & -> & Hr).
    split; [reflexivity|]. split; [reflexivity|]. split.
    + destruct sel as [| |x]; try discriminate.
      destruct ctx; discriminate.
    + rewrite I3, I2. exact Hr.
Qed.

(** Frame round trip.  When the broker has sent a frame made of the
    length prefix of [4 + len body], the four bytes of the expected
    correlation ID and [body], with a length within
    [maxBrokerReadBytes], [readResponse] on a response header without
    tags returns exactly [body] with no error, whatever case of its
    [select] fires, reports [8 + len body] bytes read to the hooks, and
    leaves what follows the frame on the wire. *)
Theorem readResponse_frame_roundtrip
        c ctx key version corrID timeout bw ww tw renq s body rest :
  Int.in_int32 corrID ->
  maxBrokerReadBytes config <= Int.MaxInt32 ->
  4 + len body <= maxBrokerReadBytes config ->
  inbound (world s)
  = BigEndian.lenPrefix (4 + len body) ++ BigEndian.lenPrefix corrID ++ body ++ rest ->
  exists s' readWait timeToRead,
    readResponse codec config c ctx key version corrID false timeout
                 bw ww tw renq s
    = (Returns (body, None), s') /\
    inbound (world s') = rest /\
    b s' = b s /\ heap s' = heap s /\
    trace s' = trace s ++
      [HookRead key (8 + len body) readWait timeToRead None;
       HookE2E key {| BytesWritten := bw; BytesRead := 8 + len body;
                      WriteWait := ww; TimeToWrite := tw;
                      ReadWait := readWait; TimeToRead := timeToRead;
                      WriteErr := None; ReadErr := None |}].
Proof.
  intros Hid Hmax Hfit Hin.
  set (payload := BigEndian.lenPrefix corrID ++ body).
  assert (Hpl : len payload = 4 + len body).
  { unfold payload, len. rewrite length_app.
    change (List.length (BigEndian.lenPrefix corrID)) with 4%nat. lia. }
  unfold readResponse, readConn.
  destruct (Now_keeps_inbound s) as (t0 & s0 & E0 & Q0 & I0).
  step E0.
  assert (Hin0 : inbound (world s0)
                 = BigEndian.lenPrefix (len payload) ++ payload ++ rest).
  { rewrite I0, Hin, Hpl. unfold payload. rewrite <- app_assoc. reflexivity. }
  destruct (readFrame_frame s0 payload rest Hmax ltac:(lia) Hin0)
    as (s1 & E1 & Q1 & I1).
  step E1.
  unfold Since.
  destruct (Now_keeps_inbound s1) as (t2 & s2 & E2 & Q2 & I2).
  step E2.
  destruct (selected_keeps_inbound s2) as (sel & s3 & E3 & Q3 & I3).
  step E3.
  assert (Q : quietly s s3) by eauto using quietly_trans.
  destruct Q as (QB & QH & QT & _).
  assert (EC : checkResponse codec payload None corrID false = Returns (body, None)).
  { unfold checkResponse. destruct (Z.ltb_spec (len payload) 4); [unfold len in *; lia|].
    unfold payload at 1. rewrite Uint32_app_lenPrefix. cbn [run_bind].
    rewrite int32_uint32 by exact Hid. rewrite Z.eqb_refl. cbn [negb].
    reflexivity. }
  destruct sel as [| |e];
    cbn [r_nread r_buf r_readWait r_timeToRead r_err];
    unfold emit, bind, lift; cbn [b heap world trace]; rewrite EC;
    (do 3 eexists; split; [reflexivity|]);
    cbn [b heap world trace];
    rewrite I3, I2, I1, QB, QH, QT, <- app_assoc, Hpl;
    replace (4 + (4 + len body)) with (8 + len body) by lia;
    repeat split.
Qed.

End ReadingFrames.

(** Two frames on the wire, the first answering correlation ID 7 with
    three bytes: the three bytes come back and the second frame stays. *)
Lemma readResponse_frame_roundtrip_witness :
  let body := [x01; x02; x03] in
  let rest := Example.frame 8 [] in
  let s := mkState Example.noBroker [Example.freshCxn]
                   (Example.quiet [] [] (Example.frame 7 body ++ rest)) [] in
  exists s',
    fst (readResponse Example.codec (Example.config 1) 0%nat None 3 0 7 false 0
                      0 0 0 0 s) = Returns (body, None) /\
    snd (readResponse Example.codec (Example.config 1) 0%nat None 3 0 7 false 0
                      0 0 0 0 s) = s' /\
    inbound (world s') = rest.
Proof.
  intros body rest s.
  destruct (readResponse_frame_roundtrip
              Example.codec (Example.config 1) 0%nat None 3 0 7 0 0 0 0 0 s
              body rest)
    as (s' & rw & tr & E & I & _).
  - unfold Int.in_int32, Int.MinInt32, Int.MaxInt32. lia.
  - unfold Int.MaxInt32. cbn. lia.
  - cbn. lia.
  - reflexivity.
  - exists s'. rewrite E. auto.
Defined.

(* ================================================================== *)
(** ** The table of API versions *)
(* ================================================================== *)

Lemma find_snoc {A} (f : A -> bool) l x :
  find f (l ++ [x])
  = match find f l with
    | Some y => Some y
    | None => if f x then Some x else None
    end.
Proof.
  induction l as [|h t IH]; cbn; [reflexivity|].
  destruct (f h); [reflexivity|exact IH].
Qed.

Lemma index_nth_error {A} (l : list A) k x :
  0 <= k -> nth_error l (Z.to_nat k) = Some x -> index l k = Returns x.
Proof.
  intros Hk H. unfold index. destruct (Z.ltb_spec k 0); [lia|].
  rewrite H. reflexivity.
Qed.

Section VersionsTable.

Variable codec : Codec.
Variable config : cfg.

Lemma newBrokerVersions_length :
  List.length (newBrokerVersions codec) = Z.to_nat (MaxKey codec + 1).
Proof. unfold newBrokerVersions. apply repeat_length. Qed.

Lemma newBrokerVersions_nth k :
  0 <= k <= MaxKey codec ->
  nth_error (newBrokerVersions codec) (Z.to_nat k) = Some (-1).
Proof.
  intros Hk. unfold newBrokerVersions.
  rewrite nth_error_repeat by lia. reflexivity.
Qed.

(** The loop of [requestAPIVersions] over the keys of a response, from any
    table of the right length. *)
Lemma fill_from keys : forall v k x,
  List.length v = Z.to_nat (MaxKey codec + 1) ->
  0 <= k <= MaxKey codec ->
  nth_error v (Z.to_nat k) = Some x ->
  let v' := fold_left
              (fun v key =>
                 if (ApiKey key >? MaxKey codec) || (ApiKey key <? 0) then v
                 else update v (Z.to_nat (ApiKey key)) (ApiKeyMaxVersion key))
              keys v in
  List.length v' = Z.to_nat (MaxKey codec + 1) /\
  nth_error v' (Z.to_nat k)
  = Some match find (fun e => ApiKey e =? k) (rev keys) with
         | Some e => ApiKeyMaxVersion e
         | None => x
         end.
Proof.
  induction keys as [|key keys IH]; intros v k x Hlen Hk Hx; cbn [fold_left rev find].
  - split; assumption.
  - rewrite find_snoc.
    destruct (Z.gtb_spec (ApiKey key) (MaxKey codec)) as [G|G]; cbn [orb].
    { destruct (IH v k x Hlen Hk Hx) as [L N]. split; [exact L|]. rewrite N.
      destruct (find _ (rev keys)); [reflexivity|].
      destruct (Z.eqb_spec (ApiKey key) k); [lia|reflexivity]. }
    destruct (Z.ltb_spec (ApiKey key) 0) as [G0|G0].
    { destruct (IH v k x Hlen Hk Hx) as [L N]. split; [exact L|]. rewrite N.
      destruct (find _ (rev keys)); [reflexivity|].
      destruct (Z.eqb_spec (ApiKey key) k); [lia|reflexivity]. }
    destruct (Z.eqb_spec (ApiKey key) k) as [E|E].
    + assert (Hx' : nth_error (update v (Z.to_nat (ApiKey key)) (ApiKeyMaxVersion key))
                              (Z.to_nat k) = Some (ApiKeyMaxVersion key)).
      { rewrite E. eapply nth_error_update_eq. exact Hx. }
      destruct (IH _ k _ ltac:(rewrite update_length; exact Hlen) Hk Hx') as [L N].
      split; [exact L|]. rewrite N. destruct (find _ (rev keys)); reflexivity.
    + assert (Hx' : nth_error (update v (Z.to_nat (ApiKey key)) (ApiKeyMaxVersion key))
                              (Z.to_nat k) = Some x).
      { rewrite nth_error_update_neq by lia. exact Hx. }
      destruct (IH _ k _ ltac:(rewrite update_length; exact Hlen) Hk Hx') as [L N].
      split; [exact L|]. rewrite N. destruct (find _ (rev keys)); reflexivity.
Qed.

Lemma fillVersions_length keys :
  List.length (fillVersions codec keys) = Z.to_nat (MaxKey codec + 1).
Proof.
  unfold fillVersions. generalize newBrokerVersions_length.
  generalize (newBrokerVersions codec). induction keys as [|key keys IH];
    intros v Hv; cbn [fold_left]; [exact Hv|].
  apply IH. destruct (_ || _); [exact Hv|]. rewrite update_length. exact Hv.
Qed.

(** The table that [requestAPIVersions] builds from the keys of an
    ApiVersions response has one entry for each of the keys 0 to
    [kmsg.MaxKey], whatever the broker sent; the entry of a key is the
    maximum version of the last element of the response that names the key,
    and -1 when no element names it.  Elements that name a key outside of
    0 to [kmsg.MaxKey] change nothing. *)
Theorem fillVersions_lookup keys :
  List.length (fillVersions codec keys) = Z.to_nat (MaxKey codec + 1) /\
  forall k,
    0 <= k <= MaxKey codec ->
    index (fillVersions codec keys) k
    = Returns match find (fun e => ApiKey e =? k) (rev keys) with
              | Some e => ApiKeyMaxVersion e
              | None => -1
              end.
Proof.
  split; [apply fillVersions_length|].
  intros k Hk. apply index_nth_error; [lia|].
  unfold fillVersions.
  exact (proj2 (fill_from keys _ k (-1) newBrokerVersions_length Hk
                          (newBrokerVersions_nth k Hk))).
Qed.

End VersionsTable.

(* ================================================================== *)
(** ** What a function can and cannot do, from what its steps can do *)
(* ================================================================== *)

(** A relation between states that is reflexive and transitive is kept by
    a function as soon as it is kept by the steps the function is made
    of: the questions to the environment, the writes to the broker and to
    the heap of connections, the events.  Each lemma below depends on the
    hypotheses for the steps its function takes, and on no other. *)
Create HintDb frame.

Section Frame.

Variable R : State -> State -> Prop.
Variable promiseOK : nat -> Prop.

Hypothesis R_refl : forall s, R s s.
Hypothesis R_trans : forall s1 s2 s3, R s1 s2 -> R s2 s3 -> R s1 s3.

Hypothesis R_Now : preserves R Now.
Hypothesis R_dial : preserves R dial.
Hypothesis R_connWrite : forall c buf, preserves R (connWrite c buf).
Hypothesis R_readFull : forall n, preserves R (readFull n).
Hypothesis R_selected : preserves R selected.
Hypothesis R_throttleWoken : preserves R throttleWoken.
Hypothesis R_ctxDone : preserves R ctxDone.
Hypothesis R_Authenticate : preserves R Authenticate.
Hypothesis R_Challenge : forall x, preserves R (Challenge x).

Hypothesis R_putBroker : forall x, preserves R (putBroker x).
Hypothesis R_storeVersions : forall v, preserves R (storeVersions v).
Hypothesis R_putCxn : forall c x, preserves R (putCxn c x).
Hypothesis R_newCxn : forall x, preserves R (newCxn x).

Hypothesis R_Log : forall l m, preserves R (emit (Log l m)).
Hypothesis R_Sleep : forall d, preserves R (emit (Sleep d)).
Hypothesis R_HookConnect : forall e, preserves R (emit (HookConnect e)).
Hypothesis R_HookDisconnect : forall c, preserves R (emit (HookDisconnect c)).
Hypothesis R_ConnClose : forall c, preserves R (emit (ConnClose c)).
Hypothesis R_HookWrite :
  forall k n ww tw e, preserves R (emit (HookWrite k n ww tw e)).
Hypothesis R_HookRead :
  forall k n rw tr e, preserves R (emit (HookRead k n rw tr e)).
Hypothesis R_HookE2E : forall k e, preserves R (emit (HookE2E k e)).
Hypothesis R_GoHandleResps : forall c pr, preserves R (emit (GoHandleResps c pr)).
Hypothesis R_GoDiscard : forall c, preserves R (emit (GoDiscard c)).
Hypothesis R_Promise :
  forall id r e, promiseOK id -> preserves R (emit (Promise id r e)).

Lemma preserves_bind {A B} (m : M A) (k : A -> M B) :
  preserves R m -> (forall a, preserves R (k a)) -> preserves R (bind m k).
Proof.
  intros Hm Hk s. unfold bind. specialize (Hm s).
  destruct (m s) as [[a|p|] s1]; cbn in *; [|exact Hm|exact Hm].
  eapply R_trans; [exact Hm|apply Hk].
Qed.

Lemma preserves_ret {A} (a : A) : preserves R (ret a).
Proof. intros s. apply R_refl. Qed.

Lemma preserves_lift {A} (r : run A) : preserves R (lift r).
Proof. intros s. apply R_refl. Qed.

Lemma preserves_throw {A} p : preserves R (@throw A p).
Proof. intros s. apply R_refl. Qed.

Lemma preserves_outOfFuel {A} : preserves R (@outOfFuel A).
Proof. intros s. apply R_refl. Qed.

Lemma preserves_getBroker : preserves R getBroker.
Proof. intros s. apply R_refl. Qed.

Lemma preserves_getWorld : preserves R getWorld.
Proof. intros s. apply R_refl. Qed.

Lemma preserves_getCxn c : preserves R (getCxn c).
Proof.
  intros s. unfold getCxn. destruct (nth_error (heap s) c); apply R_refl.
Qed.

Hint Resolve preserves_ret preserves_lift preserves_throw preserves_outOfFuel
  preserves_getBroker preserves_getWorld preserves_getCxn
  R_Now R_dial R_connWrite R_readFull R_selected R_throttleWoken R_ctxDone
  R_Authenticate R_Challenge R_putBroker R_storeVersions R_putCxn R_newCxn
  R_Log R_Sleep R_HookConnect R_HookDisconnect R_ConnClose R_HookWrite
  R_HookRead R_HookE2E R_GoHandleResps R_GoDiscard : frame.

Ltac frame_walk :=
  repeat first
    [ solve [ auto with frame ]
    | solve [ apply R_Promise; assumption ]
    | apply preserves_bind; [ | intros ? ]
    | progress cbv zeta
    | match goal with
      | |- preserves _ (match ?x with _ => _ end) => destruct x
      | |- preserves _ (if ?x then _ else _) => destruct x
      end ].

Lemma preserves_Since t : preserves R (Since t).
Proof. unfold Since. frame_walk. Qed.

Lemma preserves_Until t : preserves R (Until t).
Proof. unfold Until. frame_walk. Qed.

Lemma preserves_saslFuel : preserves R saslFuel.
Proof. unfold saslFuel. frame_walk. Qed.

Lemma preserves_loadVersions : preserves R loadVersions.
Proof. unfold loadVersions. frame_walk. Qed.

Lemma preserves_versionsAt v key : preserves R (versionsAt v key).
Proof. unfold versionsAt. frame_walk. Qed.

Lemma preserves_hookWriteE2E k n ww tw e : preserves R (hookWriteE2E k n ww tw e).
Proof. unfold hookWriteE2E. frame_walk. Qed.

Hint Resolve preserves_Since preserves_Until preserves_saslFuel
  preserves_loadVersions preserves_versionsAt preserves_hookWriteE2E : frame.

Variable codec : Codec.
Variable config : cfg.

Lemma preserves_writeConn c ctx buf timeout enq :
  preserves R (writeConn c ctx buf timeout enq).
Proof. unfold writeConn. frame_walk. Qed.

Lemma preserves_throttleWait c ctx : preserves R (throttleWait c ctx).
Proof. unfold throttleWait. frame_walk. Qed.

Hint Resolve preserves_writeConn preserves_throttleWait : frame.

Lemma preserves_writeRequest c ctx enq req id :
  preserves R (writeRequest codec c ctx enq req id).
Proof. unfold writeRequest. frame_walk. Qed.

Lemma preserves_readFrame : preserves R (readFrame config).
Proof. unfold readFrame. frame_walk. Qed.

Hint Resolve preserves_writeRequest preserves_readFrame : frame.

Lemma preserves_readConn c ctx timeout enq :
  preserves R (readConn config c ctx timeout enq).
Proof. unfold readConn. frame_walk. Qed.

Hint Resolve preserves_readConn : frame.

Lemma preserves_readResponse c ctx key version corrID flexible timeout bw ww tw renq :
  preserves R (readResponse codec config c ctx key version corrID flexible
                            timeout bw ww tw renq).
Proof. unfold readResponse. frame_walk. Qed.

Lemma preserves_closeConn c : preserves R (closeConn c).
Proof. unfold closeConn. frame_walk. Qed.

Hint Resolve preserves_readResponse preserves_closeConn : frame.

Lemma preserves_die c : preserves R (die c).
Proof. unfold die. frame_walk. Qed.

Lemma preserves_waitResp c pr :
  promiseOK (resp_promise pr) -> preserves R (waitResp c pr).
Proof. intros H. unfold waitResp. frame_walk. Qed.

Hint Resolve preserves_die : frame.

Lemma preserves_apiVersionsExchange c req :
  preserves R (apiVersionsExchange codec config c req).
Proof. unfold apiVersionsExchange. frame_walk. Qed.

Lemma preserves_apiVersionsDecode v raw :
  preserves R (apiVersionsDecode codec v raw).
Proof. unfold apiVersionsDecode. frame_walk. Qed.

Hint Resolve preserves_apiVersionsExchange preserves_apiVersionsDecode : frame.

Lemma preserves_requestAPIVersionsFrom fuel :
  forall c maxVersion,
    preserves R (requestAPIVersionsFrom codec config fuel c maxVersion).
Proof.
  induction fuel as [|fuel IH]; intros c maxVersion;
    cbn [requestAPIVersionsFrom]; frame_walk.
Qed.

Lemma preserves_requestAPIVersions c :
  preserves R (requestAPIVersions codec config c).
Proof. apply preserves_requestAPIVersionsFrom. Qed.

Lemma preserves_saslLifetime c prereq lifetimeMillis :
  preserves R (saslLifetime c prereq lifetimeMillis).
Proof. unfold saslLifetime. frame_walk. Qed.

Lemma preserves_saslRound c authenticate id done clientWrite prereq lifetimeMillis :
  preserves R (saslRound codec config c authenticate id done clientWrite prereq
                         lifetimeMillis).
Proof. unfold saslRound. frame_walk. Qed.

Hint Resolve preserves_requestAPIVersions preserves_saslLifetime
  preserves_saslRound : frame.

Lemma preserves_saslLoop fuel :
  forall c authenticate id done clientWrite prereq lifetimeMillis,
    preserves R (saslLoop codec config fuel c authenticate id done clientWrite
                          prereq lifetimeMillis).
Proof.
  induction fuel as [|fuel IH]; intros; cbn [saslLoop]; frame_walk.
Qed.

Hint Resolve preserves_saslLoop : frame.

Lemma preserves_saslChallenges c authenticate id :
  preserves R (saslChallenges codec config c authenticate id).
Proof. unfold saslChallenges. frame_walk. Qed.

Hint Resolve preserves_saslChallenges : frame.

Lemma preserves_doSasl c authenticate id :
  preserves R (doSasl codec config c authenticate id).
Proof. unfold doSasl. frame_walk. Qed.

Hint Resolve preserves_doSasl : frame.

Lemma preserves_saslFrom fuel :
  forall c id v mech retried,
    preserves R (saslFrom codec config fuel c id v mech retried).
Proof.
  induction fuel as [|fuel IH]; intros; cbn [saslFrom]; frame_walk.
Qed.

Hint Resolve preserves_saslFrom : frame.

Lemma preserves_sasl c id : preserves R (sasl codec config c id).
Proof. unfold sasl. frame_walk. Qed.

Lemma preserves_connect id : preserves R (connect id).
Proof. unfold connect. frame_walk. Qed.

Hint Resolve preserves_sasl preserves_connect : frame.

Lemma preserves_init c isProduceCxn id :
  preserves R (init codec config c isProduceCxn id).
Proof. unfold init. frame_walk. Qed.

Hint Resolve preserves_init : frame.

Lemma preserves_loadConnection id ctx req :
  preserves R (loadConnection codec config id ctx req).
Proof. unfold loadConnection. frame_walk. Qed.

Lemma preserves_dispatch cxn pr req id :
  promiseOK (pr_promise pr) -> preserves R (dispatch codec config cxn pr req id).
Proof.
  intros H. unfold dispatch. cbv zeta.
  destruct (produceSpecial config req) as [[r n] nr].
  pose proof (fun w => preserves_waitResp cxn (pendingResponse codec pr r w) H).
  frame_walk.
Qed.

Lemma preserves_reauthenticate fuel :
  forall c promise id k,
    promiseOK promise ->
    preserves R (reauthenticate codec config fuel c promise id k).
Proof.
  induction fuel as [|fuel IH]; intros c promise id k H;
    cbn [reauthenticate]; frame_walk.
Qed.

Hint Resolve preserves_loadConnection : frame.

Lemma preserves_handleReq pr :
  promiseOK (pr_promise pr) -> preserves R (handleReq codec config pr).
Proof.
  intros H. unfold handleReq. cbv zeta.
  pose proof (preserves_reauthenticate 16 ) as HR.
  pose proof (fun cxn req id => preserves_dispatch cxn pr req id H) as HD.
  frame_walk.
Qed.

End Frame.

(* ================================================================== *)
(** ** The trace of a run *)
(* ================================================================== *)

Ltac world_only :=
  intros s; unfold bind, getWorld, putWorld, ret;
  repeat match goal with
         | |- context [match ?x with _ => _ end] => destruct x
         end;
  cbn; auto.

Lemma worldOnly_Now : worldOnly Now.
Proof. unfold Now. world_only. Qed.

Lemma worldOnly_dial : worldOnly dial.
Proof. unfold dial. world_only. Qed.

Lemma worldOnly_readFull n : worldOnly (readFull n).
Proof. unfold readFull. world_only. Qed.

Lemma worldOnly_selected : worldOnly selected.
Proof. unfold selected. world_only. Qed.

Lemma worldOnly_throttleWoken : worldOnly throttleWoken.
Proof. unfold throttleWoken. world_only. Qed.

Lemma worldOnly_ctxDone : worldOnly ctxDone.
Proof. unfold ctxDone. world_only. Qed.

Lemma worldOnly_Authenticate : worldOnly Authenticate.
Proof. unfold Authenticate. world_only. Qed.

Lemma worldOnly_Challenge x : worldOnly (Challenge x).
Proof. unfold Challenge. world_only. Qed.

Section Extends.

Variable P : event -> Prop.

Lemma extends_refl s : extends P s s.
Proof. exists []. rewrite app_nil_r. auto. Qed.

Lemma extends_trans s1 s2 s3 :
  extends P s1 s2 -> extends P s2 s3 -> extends P s1 s3.
Proof.
  intros (e1 & T1 & F1) (e2 & T2 & F2). exists (e1 ++ e2).
  rewrite T2, T1, app_assoc. split; [reflexivity|].
  apply Forall_app. auto.
Qed.

Lemma extends_same s s' : trace s' = trace s -> extends P s s'.
Proof. intros H. exists []. rewrite app_nil_r. auto. Qed.

Lemma extends_worldOnly {A} (m : M A) : worldOnly m -> preserves (extends P) m.
Proof. intros H s. apply extends_same. apply H. Qed.

Lemma extends_putBroker x : preserves (extends P) (putBroker x).
Proof. intros s. apply extends_same. reflexivity. Qed.

Lemma extends_storeVersions v : preserves (extends P) (storeVersions v).
Proof. intros s. apply extends_same. reflexivity. Qed.

Lemma extends_putCxn c x : preserves (extends P) (putCxn c x).
Proof. intros s. apply extends_same. reflexivity. Qed.

Lemma extends_newCxn x : preserves (extends P) (newCxn x).
Proof. intros s. apply extends_same. reflexivity. Qed.

Lemma extends_emit e : P e -> preserves (extends P) (emit e).
Proof. intros H s. exists [e]. cbn. auto. Qed.

Lemma extends_connWrite c buf :
  P (ConnWrite c buf) -> preserves (extends P) (connWrite c buf).
Proof.
  intros H s. exists [ConnWrite c buf]. split; [|auto].
  unfold connWrite, bind, emit, getWorld, putWorld, ret. cbn.
  destruct (connWrites (world s)) as [|[|n msg] rest]; reflexivity.
Qed.

End Extends.

Lemma extends_weaken (P Q : event -> Prop) s s' :
  (forall e, P e -> Q e) -> extends P s s' -> extends Q s s'.
Proof.
  intros H (evs & T & F). exists evs. split; [exact T|].
  eapply Forall_impl; eassumption.
Qed.

Lemma extends_emitted P s s' : extends P s s' -> Forall P (emitted s s').
Proof.
  intros (evs & T & F). unfold emitted. rewrite T.
  rewrite skipn_app, skipn_all, Nat.sub_diag. exact F.
Qed.

Lemma promises_app x y : promises (x ++ y) = (promises x + promises y)%nat.
Proof. unfold promises. rewrite filter_app, length_app. reflexivity. Qed.

Lemma promises_none evs : Forall notPromise evs -> promises evs = 0%nat.
Proof.
  unfold promises. induction 1 as [|e l He _ IH]; [reflexivity|].
  cbn. unfold notPromise in He. rewrite He. exact IH.
Qed.

(** Solves [preserves (extends P) f] for a function [f] of the
    connection, given a lemma of the section above for [f] and the events
    [P] lets through. *)
Ltac extends_with L :=
  eapply L;
  repeat match goal with
         | |- forall _ : _, _ => intro
         end;
  first [ apply extends_refl
        | eapply extends_trans; eassumption
        | apply extends_worldOnly;
          first [ apply worldOnly_Now | apply worldOnly_dial
                | apply worldOnly_readFull | apply worldOnly_selected
                | apply worldOnly_throttleWoken | apply worldOnly_ctxDone
                | apply worldOnly_Authenticate | apply worldOnly_Challenge ]
        | apply extends_putBroker | apply extends_storeVersions
        | apply extends_putCxn | apply extends_newCxn
        | apply extends_connWrite; solve [ exact I | reflexivity ]
        | apply extends_emit; solve [ exact I | reflexivity | assumption ]
        | exact I
        | idtac ].

(* ================================================================== *)
(** ** Every request is answered once *)
(* ================================================================== *)

Lemma notPromise_promiseOf id e : notPromise e -> promiseOf id e.
Proof. destruct e; cbn; try discriminate; auto. Qed.

Section Answers.

Variable id : nat.

Lemma answersBy_silent {A} (m : M A) q :
  preserves (extends notPromise) m -> answersBy id q m.
Proof.
  intros H s. destruct (H s) as (evs & T & F). exists evs.
  split; [exact T|]. split.
  - eapply Forall_impl; [|exact F]. apply notPromise_promiseOf.
  - rewrite (promises_none _ F). lia.
Qed.

Lemma answersBy_weaken {A} (m : M A) (q q' : run A -> nat) :
  (forall r, (q r <= q' r)%nat) -> answersBy id q m -> answersBy id q' m.
Proof.
  intros H Hm s. destruct (Hm s) as (evs & T & F & C). exists evs.
  split; [exact T|]. split; [exact F|]. specialize (H (fst (m s))). lia.
Qed.

(** A step that calls no promise, then the rest. *)
Lemma silent_then {A B} (m : M A) (k : A -> M B) q :
  preserves (extends notPromise) m ->
  (forall a, answersBy id q (k a)) ->
  answersBy id q (bind m k).
Proof.
  intros Hm Hk s. unfold bind. destruct (Hm s) as (e1 & T1 & F1).
  destruct (m s) as [[a|p|] s1]; cbn [fst snd] in *.
  - destruct (Hk a s1) as (e2 & T2 & F2 & C2). exists (e1 ++ e2).
    rewrite T2, T1, app_assoc. split; [reflexivity|]. split.
    + apply Forall_app. split; [|exact F2].
      eapply Forall_impl; [|exact F1]. apply notPromise_promiseOf.
    + rewrite promises_app, (promises_none _ F1). exact C2.
  - exists e1. split; [exact T1|]. split.
    + eapply Forall_impl; [|exact F1]. apply notPromise_promiseOf.
    + rewrite (promises_none _ F1). lia.
  - exists e1. split; [exact T1|]. split.
    + eapply Forall_impl; [|exact F1]. apply notPromise_promiseOf.
    + rewrite (promises_none _ F1). lia.
Qed.

(** The call of the promise, then steps that call none. *)
Lemma promise_then {B} r e (k : unit -> M B) q :
  preserves (extends notPromise) (k tt) ->
  (forall s, (1 <= q (fst (k tt s)))%nat) ->
  answersBy id q (bind (emit (Promise id r e)) k).
Proof.
  intros Hk Hq s. unfold bind, emit. cbn [fst snd].
  set (s1 := mkState _ _ _ _).
  destruct (Hk s1) as (e2 & T2 & F2). exists (Promise id r e :: e2).
  split; [rewrite T2; subst s1; cbn; rewrite <- app_assoc; reflexivity|].
  split.
  - constructor; [reflexivity|].
    eapply Forall_impl; [|exact F2]. apply notPromise_promiseOf.
  - change (Promise id r e :: e2) with ([Promise id r e] ++ e2).
    rewrite promises_app, (promises_none _ F2). cbn. specialize (Hq s1). lia.
Qed.

Lemma promise_last r e q :
  (1 <= q (Returns tt))%nat -> answersBy id q (emit (Promise id r e)).
Proof.
  intros Hq s. exists [Promise id r e]. cbn. split; [reflexivity|].
  split; [constructor; [reflexivity|constructor]|exact Hq].
Qed.

(** A computation whose bound depends on its result, then a rest that
    fits into what the bound leaves of [n]. *)
Lemma answersBy_bind {A B} (m : M A) (k : A -> M B) (q1 : run A -> nat) n :
  answersBy id q1 m ->
  (forall r, (q1 r <= n)%nat) ->
  (forall a, answersBy id (fun _ => n - q1 (Returns a))%nat (k a)) ->
  answersBy id (fun _ => n) (bind m k).
Proof.
  intros Hm Hn Hk s. unfold bind. destruct (Hm s) as (e1 & T1 & F1 & C1).
  pose proof (Hn (fst (m s))) as Hb.
  destruct (m s) as [[a|p|] s1]; cbn [fst snd] in *.
  - destruct (Hk a s1) as (e2 & T2 & F2 & C2). exists (e1 ++ e2).
    rewrite T2, T1, app_assoc. split; [reflexivity|]. split.
    + apply Forall_app. auto.
    + rewrite promises_app. lia.
  - exists e1. split; [exact T1|]. split; [exact F1|lia].
  - exists e1. split; [exact T1|]. split; [exact F1|lia].
Qed.

End Answers.

Lemma bind_ret_result {A B} (m : M A) (v : B) s :
  fst (bind m (fun _ => ret v) s) <> Returns v ->
  (forall a, fst (m s) <> Returns a).
Proof.
  unfold bind, ret. destruct (m s) as [[a|p|] s1]; cbn; intros H a'; congruence.
Qed.

Section AnsweredOnce.

Variable codec : Codec.
Variable config : cfg.

Lemma silent_die c : preserves (extends notPromise) (die c).
Proof. extends_with preserves_die. Qed.

Lemma silent_sasl c id : preserves (extends notPromise) (sasl codec config c id).
Proof. extends_with preserves_sasl. Qed.

Lemma silent_loadConnection id ctx req :
  preserves (extends notPromise) (loadConnection codec config id ctx req).
Proof. extends_with preserves_loadConnection. Qed.

Lemma silent_writeRequest c ctx enq req id :
  preserves (extends notPromise) (writeRequest codec c ctx enq req id).
Proof. extends_with preserves_writeRequest. Qed.

Lemma silent_hookWriteE2E k n ww tw e :
  preserves (extends notPromise) (hookWriteE2E k n ww tw e).
Proof. extends_with preserves_hookWriteE2E. Qed.

Lemma silent_versionsAt v key : preserves (extends notPromise) (versionsAt v key).
Proof. extends_with preserves_versionsAt. Qed.

Lemma silent_loadVersions : preserves (extends notPromise) loadVersions.
Proof. extends_with preserves_loadVersions. Qed.

Lemma silent_getCxn c : preserves (extends notPromise) (getCxn c).
Proof. extends_with preserves_getCxn. Qed.

Lemma silent_putCxn c x : preserves (extends notPromise) (putCxn c x).
Proof. apply extends_putCxn. Qed.

Lemma silent_Now : preserves (extends notPromise) Now.
Proof. apply extends_worldOnly, worldOnly_Now. Qed.

Lemma silent_ctxDone : preserves (extends notPromise) ctxDone.
Proof. apply extends_worldOnly, worldOnly_ctxDone. Qed.

Lemma silent_ret {A} (a : A) : preserves (extends notPromise) (ret a).
Proof. intros s. apply extends_refl. Qed.

Lemma silent_throw {A} p : preserves (extends notPromise) (@throw A p).
Proof. intros s. apply extends_refl. Qed.

Lemma silent_emit e : notPromise e -> preserves (extends notPromise) (emit e).
Proof. apply extends_emit. Qed.

Lemma silent_bind {A B} (m : M A) (k : A -> M B) :
  preserves (extends notPromise) m ->
  (forall a, preserves (extends notPromise) (k a)) ->
  preserves (extends notPromise) (bind m k).
Proof. apply preserves_bind. apply extends_trans. Qed.

Create HintDb silent.
Hint Resolve silent_die silent_sasl silent_loadConnection silent_writeRequest
  silent_hookWriteE2E silent_versionsAt silent_loadVersions silent_getCxn
  silent_putCxn silent_Now silent_ctxDone silent_ret silent_throw : silent.

Ltac silent_walk :=
  repeat first
    [ solve [ auto with silent ]
    | solve [ apply silent_emit; reflexivity ]
    | apply silent_bind; [ | intros ? ]
    | progress cbv zeta
    | match goal with
      | |- preserves _ (match ?x with _ => _ end) => destruct x
      | |- preserves _ (if ?x then _ else _) => destruct x
      end ].

(** The loop of [handleReq] calls the promise at most once, and not at
    all when it lets [handleReq] go on. *)
Lemma reauthenticate_answers fuel :
  forall c promise id k,
    answersBy promise reauthBound (reauthenticate codec config fuel c promise id k).
Proof.
  induction fuel as [|fuel IH]; intros c promise id k; cbn [reauthenticate].
  - apply answersBy_silent. intros s. apply extends_refl.
  - apply silent_then; [silent_walk|]. intros cxn.
    apply silent_then; [silent_walk|]. intros [|].
    + destruct (15 <? k).
      * apply silent_then; [silent_walk|]. intros _.
        apply promise_then; [silent_walk|].
        intros s. unfold bind, ret.
        destruct (die c _) as [[[]|p|] s1]; cbn; lia.
      * apply silent_then; [silent_walk|]. intros _.
        apply silent_then; [silent_walk|]. intros [e|].
        -- apply silent_then; [silent_walk|]. intros _.
           apply promise_then; [silent_walk|]. intros s. cbn. lia.
        -- apply IH.
    + apply answersBy_silent. silent_walk.
Qed.

Lemma waitResp_answers c pr :
  answersBy (resp_promise pr) (fun _ => 1%nat) (waitResp c pr).
Proof.
  unfold waitResp. apply silent_then; [silent_walk|]. intros cxn.
  destruct (ringResp_push (resps cxn) pr) as [r [first isDead]].
  apply silent_then; [silent_walk|]. intros _.
  destruct first.
  - apply answersBy_silent. silent_walk.
  - destruct isDead.
    + apply promise_then; [silent_walk|]. intros s. lia.
    + apply answersBy_silent. silent_walk.
Qed.

Lemma dispatch_answers cxn pr req id :
  answersBy (pr_promise pr) (fun _ => 1%nat) (dispatch codec config cxn pr req id).
Proof.
  unfold dispatch. cbv zeta.
  destruct (produceSpecial config req) as [[r n] nr].
  apply silent_then; [silent_walk|]. intros w.
  destruct (w_writeErr w).
  - apply promise_then; [silent_walk|]. intros s. lia.
  - destruct n.
    + apply promise_then; [silent_walk|]. intros s. lia.
    + apply (waitResp_answers cxn (pendingResponse codec pr r w)).
Qed.

(** One call of [handleReq] calls no promise but the one of the request it
    was given, and calls it at most once, however the call ends. *)
Theorem handleReq_promise_once pr s :
  exists evs,
    trace (snd (handleReq codec config pr s)) = trace s ++ evs /\
    Forall (promiseOf (pr_promise pr)) evs /\
    (promises evs <= 1)%nat.
Proof.
  revert s. change (answersBy (pr_promise pr) (fun _ => 1%nat)
                              (handleReq codec config pr)).
  unfold handleReq. cbv zeta.
  pose proof (dispatch_answers) as HD.
  assert (HP : forall r e,
             answersBy (pr_promise pr) (fun _ : run unit => 1%nat)
                       (emit (Promise (pr_promise pr) r e)))
    by (intros; apply promise_last; lia).
  apply silent_then; [silent_walk|]. intros ctx.
  apply silent_then; [silent_walk|]. intros [err|cxn]; [apply HP|].
  apply silent_then; [silent_walk|]. intros v.
  destruct (_ || _); [apply HP|].
  apply silent_then; [silent_walk|]. intros v0.
  apply silent_then; [silent_walk|]. intros [|]; [apply HP|].
  apply silent_then; [silent_walk|]. intros brokerMax.
  destruct (match minVersions config with Some _ => _ | None => _ end);
    [apply HP|].
  apply silent_then; [silent_walk|]. intros _.
  eapply answersBy_bind.
  - apply reauthenticate_answers.
  - intros [[|]|p|]; cbn; lia.
  - intros [|]; cbn [reauthBound].
    + apply answersBy_silent. silent_walk.
    + apply silent_then; [silent_walk|]. intros [e|]; [apply HP|].
      apply HD.
Qed.

End AnsweredOnce.

(* ================================================================== *)
(** ** No request is dropped *)
(* ================================================================== *)

Lemma answered_after P id s s1 s' :
  extends P s s1 -> answered id s1 s' -> answered id s s'.
Proof.
  intros (e1 & T1 & _) (e2 & r & e & T2 & I). exists (e1 ++ e2), r, e.
  rewrite T2, T1, app_assoc. split; [reflexivity|].
  apply in_or_app. right. exact I.
Qed.

Lemma answered_before P id s s1 s' :
  answered id s s1 -> extends P s1 s' -> answered id s s'.
Proof.
  intros (e1 & r & e & T1 & I) (e2 & T2 & _). exists (e1 ++ e2), r, e.
  rewrite T2, T1, app_assoc. split; [reflexivity|].
  apply in_or_app. left. exact I.
Qed.

Lemma answered_emitted id s s' :
  answered id s s' -> exists r e, In (Promise id r e) (emitted s s').
Proof.
  intros (evs & r & e & T & I). exists r, e. unfold emitted. rewrite T.
  rewrite skipn_app, skipn_all, Nat.sub_diag. exact I.
Qed.

(** What a run that returned went through. *)
Lemma preserves_Returns R {A} (m : M A) s a s' :
  preserves R m -> m s = (Returns a, s') -> R s s'.
Proof. intros H E. specialize (H s). rewrite E in H. exact H. Qed.

Section Settles.

Variable id : nat.

(** Steps that only add to the trace, then the rest. *)
Lemma settles_bind {A B} (m : M A) (k : A -> M B) Q :
  preserves (extends anyEvent) m ->
  (forall a, settles id Q (k a)) ->
  settles id Q (bind m k).
Proof.
  intros Hm Hk s b s' E HQ. unfold bind in E. specialize (Hm s).
  destruct (m s) as [[a|p|] s1]; cbn [snd] in Hm; try discriminate.
  destruct (Hk a s1 b s' E HQ) as [H|H]; [left|right; exact H].
  eapply answered_after; eassumption.
Qed.

Lemma settles_promise r e Q : settles id Q (emit (Promise id r e)).
Proof.
  intros s a s' E _. unfold emit in E. injection E as _ <-. left.
  exists [Promise id r e], r, e. cbn. auto.
Qed.

(** The call of the promise, then steps that only add to the trace. *)
Lemma settles_promise_then {B} r e (k : unit -> M B) Q :
  preserves (extends anyEvent) (k tt) ->
  settles id Q (bind (emit (Promise id r e)) k).
Proof.
  intros Hk s b s' E _. unfold bind, emit in E. left.
  pose proof (preserves_Returns _ _ _ _ _ Hk E) as G.
  eapply answered_before; [|exact G].
  exists [Promise id r e], r, e. cbn. auto.
Qed.

Lemma settles_unmarked {A} (a : A) (Q : A -> bool) :
  Q a = false -> settles id Q (ret a).
Proof. intros H s a' s' [= <- <-] HQ. congruence. Qed.

End Settles.

Section NoRequestDropped.

Variable codec : Codec.
Variable config : cfg.

Lemma grows_die c : preserves (extends anyEvent) (die c).
Proof. extends_with preserves_die. Qed.

Lemma grows_sasl c id : preserves (extends anyEvent) (sasl codec config c id).
Proof. extends_with preserves_sasl. Qed.

Lemma grows_loadConnection id ctx req :
  preserves (extends anyEvent) (loadConnection codec config id ctx req).
Proof. extends_with preserves_loadConnection. Qed.

Lemma grows_writeRequest c ctx enq req id :
  preserves (extends anyEvent) (writeRequest codec c ctx enq req id).
Proof. extends_with preserves_writeRequest. Qed.

Lemma grows_hookWriteE2E k n ww tw e :
  preserves (extends anyEvent) (hookWriteE2E k n ww tw e).
Proof. extends_with preserves_hookWriteE2E. Qed.

Lemma grows_versionsAt v key : preserves (extends anyEvent) (versionsAt v key).
Proof. extends_with preserves_versionsAt. Qed.

Lemma grows_loadVersions : preserves (extends anyEvent) loadVersions.
Proof. extends_with preserves_loadVersions. Qed.

Lemma grows_getCxn c : preserves (extends anyEvent) (getCxn c).
Proof. extends_with preserves_getCxn. Qed.

Lemma grows_putCxn c x : preserves (extends anyEvent) (putCxn c x).
Proof. apply extends_putCxn. Qed.

Lemma grows_Now : preserves (extends anyEvent) Now.
Proof. apply extends_worldOnly, worldOnly_Now. Qed.

Lemma grows_ctxDone : preserves (extends anyEvent) ctxDone.
Proof. apply extends_worldOnly, worldOnly_ctxDone. Qed.

Lemma grows_ret {A} (a : A) : preserves (extends anyEvent) (ret a).
Proof. intros s. apply extends_refl. Qed.

Lemma grows_throw {A} p : preserves (extends anyEvent) (@throw A p).
Proof. intros s. apply extends_refl. Qed.

Lemma grows_emit e : preserves (extends anyEvent) (emit e).
Proof. apply extends_emit. exact I. Qed.

Lemma grows_bind {A B} (m : M A) (k : A -> M B) :
  preserves (extends anyEvent) m ->
  (forall a, preserves (extends anyEvent) (k a)) ->
  preserves (extends anyEvent) (bind m k).
Proof. apply preserves_bind. apply extends_trans. Qed.

Create HintDb grows.
Hint Resolve grows_die grows_sasl grows_loadConnection grows_writeRequest
  grows_hookWriteE2E grows_versionsAt grows_loadVersions grows_getCxn
  grows_putCxn grows_Now grows_ctxDone grows_ret grows_throw grows_emit : grows.

Ltac grows_walk :=
  repeat first
    [ solve [ auto with grows ]
    | apply grows_bind; [ | intros ? ]
    | progress cbv zeta
    | match goal with
      | |- preserves _ (match ?x with _ => _ end) => destruct x
      | |- preserves _ (if ?x then _ else _) => destruct x
      end ].

(** When the loop of [handleReq] says that [handleReq] returned from
    inside it, the promise has been called. *)
Lemma reauthenticate_settles fuel :
  forall c promise id k,
    settles promise (fun returned : bool => returned)
            (reauthenticate codec config fuel c promise id k).
Proof.
  induction fuel as [|fuel IH]; intros c promise id k; cbn [reauthenticate].
  - intros s a s' E. discriminate.
  - apply settles_bind; [grows_walk|]. intros cxn.
    apply settles_bind; [grows_walk|]. intros [|].
    + destruct (15 <? k).
      * apply settles_bind; [grows_walk|]. intros _.
        apply settles_promise_then. grows_walk.
      * apply settles_bind; [grows_walk|]. intros _.
        apply settles_bind; [grows_walk|]. intros [e|].
        -- apply settles_bind; [grows_walk|]. intros _.
           apply settles_promise_then. grows_walk.
        -- apply IH.
    + apply settles_unmarked. reflexivity.
Qed.

Lemma grows_reauthenticate fuel c promise id k :
  preserves (extends anyEvent) (reauthenticate codec config fuel c promise id k).
Proof.
  extends_with (preserves_reauthenticate (extends anyEvent) (fun _ => True)).
Qed.

(** [waitResp] calls the promise at once or leaves the response on the
    queue of the connection. *)
Lemma waitResp_settles c pr :
  settles (resp_promise pr) always (waitResp c pr).
Proof.
  intros s a s' E _. unfold waitResp in E.
  unfold bind at 1 in E. unfold getCxn in E.
  destruct (nth_error (heap s) c) as [cxn|] eqn:Hc; [|discriminate].
  unfold ringResp_push in E.
  destruct (ringDead (resps cxn)) eqn:Hd.
  - left. unfold putCxn, bind, emit, hookWriteE2E, emit in E.
    cbn in E. injection E as _ <-. cbn [trace].
    eexists _, _, _. rewrite <- app_assoc. split; [reflexivity|].
    cbn. auto.
  - right.
    assert (Q : forall t,
               queued (resp_promise pr)
                      (mkState (b s)
                               (update (heap s) c
                                  (set_resps cxn
                                     {| elems := elems (resps cxn) ++ [pr];
                                        ringDead := false |}))
                               (world s) t)).
    { intros t. exists c, (set_resps cxn {| elems := elems (resps cxn) ++ [pr];
                                            ringDead := false |}), pr.
      cbn [heap]. split; [eapply nth_error_update_eq; exact Hc|].
      cbn. split; [apply in_or_app; right; left; reflexivity|reflexivity]. }
    remember (elems (resps cxn) ++ [pr]) as l eqn:Hl.
    unfold putCxn, bind, emit, ret in E.
    destruct (elems (resps cxn)); cbn [fst snd b heap world trace] in E;
      injection E as _ <-; apply Q.
Qed.

Lemma dispatch_settles cxn pr req id :
  settles (pr_promise pr) always (dispatch codec config cxn pr req id).
Proof.
  unfold dispatch. cbv zeta.
  destruct (produceSpecial config req) as [[r n] nr].
  apply settles_bind; [grows_walk|]. intros w.
  destruct (w_writeErr w).
  - apply settles_promise_then. grows_walk.
  - destruct n.
    + apply settles_promise_then. grows_walk.
    + apply (waitResp_settles cxn (pendingResponse codec pr r w)).
Qed.

(** No request is dropped.  When [handleReq] returns, it has called the
    promise of the request, or it has left a response for this promise on
    the queue of a connection, where the reader of that connection will
    find it. *)
Theorem handleReq_answers_or_queues pr s s' :
  handleReq codec config pr s = (Returns tt, s') ->
  (exists r e, In (Promise (pr_promise pr) r e) (emitted s s')) \/
  (exists c x p,
      nth_error (heap s') c = Some x /\ In p (elems (resps x)) /\
      resp_promise p = pr_promise pr).
Proof.
  intros E.
  assert (H : settles (pr_promise pr) always (handleReq codec config pr)).
  { unfold handleReq. cbv zeta.
    assert (HP : forall r e,
               settles (pr_promise pr) (@always unit)
                       (emit (Promise (pr_promise pr) r e)))
      by (intros; apply settles_promise).
    apply settles_bind; [grows_walk|]. intros ctx.
    apply settles_bind; [grows_walk|]. intros [err|cxn]; [apply HP|].
    apply settles_bind; [grows_walk|]. intros v.
    destruct (_ || _); [apply HP|].
    apply settles_bind; [grows_walk|]. intros v0.
    apply settles_bind; [grows_walk|]. intros [|]; [apply HP|].
    apply settles_bind; [grows_walk|]. intros brokerMax.
    destruct (match minVersions config with Some _ => _ | None => _ end);
      [apply HP|].
    apply settles_bind; [grows_walk|]. intros _.
    intros s0 a s1 E0 _. unfold bind at 1 in E0.
    match type of E0 with
    | match ?m s0 with _ => _ end = _ =>
        destruct (m s0) as [[returned|p|] s2] eqn:ER; try discriminate;
        pose proof (preserves_Returns _ _ _ _ _
                      (grows_reauthenticate _ _ _ _ _) ER) as GR;
        pose proof (reauthenticate_settles _ _ _ _ _ _ _ _ ER) as SR
    end.
    destruct returned.
    - unfold ret in E0. injection E0 as _ <-. apply SR. reflexivity.
    - clear SR. revert E0.
      match goal with
      | |- ?m s2 = _ -> _ =>
          assert (SM : settles (pr_promise pr) always m)
      end.
      { apply settles_bind; [grows_walk|]. intros [e|]; [apply HP|].
        apply dispatch_settles. }
      intros E0. destruct (SM _ _ _ E0 eq_refl) as [HA|HQ];
        [left|right; exact HQ].
      eapply answered_after; eassumption. }
  destruct (H s tt s' E eq_refl) as [HA|HQ]; [left|right; exact HQ].
  apply answered_emitted. exact HA.
Qed.

End NoRequestDropped.

(** A heartbeat-like request on a live connection is written and left on
    the queue of the connection. *)
Lemma handleReq_answers_or_queues_witness :
  let pr := Example.request (otherRequest 3 false []) in
  let s := mkState Example.loadedBroker [Example.freshCxn]
                   (Example.quiet [] [WriteAll] []) [] in
  let s' := snd (handleReq Example.codec (Example.config 1) pr s) in
  (exists r e, In (Promise (pr_promise pr) r e) (emitted s s')) \/
  (exists c x p,
      nth_error (heap s') c = Some x /\ In p (elems (resps x)) /\
      resp_promise p = pr_promise pr).
Proof.
  intros pr s s'.
  apply (handleReq_answers_or_queues Example.codec (Example.config 1) pr s s').
  vm_compute. reflexivity.
Defined.

(* ================================================================== *)
(** ** Killing a connection *)
(* ================================================================== *)

Section Dying.

(** [die] on a connection that is dead already. *)
Lemma die_dead c s cxn :
  nth_error (heap s) c = Some cxn -> dead cxn = true ->
  die c s = (Returns tt, s).
Proof.
  intros Hc Hd. unfold die.
  rewrite (bind_Returns _ _ _ _ _ (getCxn_valid _ _ _ Hc)). rewrite Hd.
  reflexivity.
Qed.

(** [die] closes a connection once and for all.  On a connection that is
    alive it calls the disconnect hook, closes the socket and marks the
    connection and its queue of responses dead; every other connection is
    left as it is.  On a connection that is dead it does nothing, so a
    second [die] neither closes the socket again nor calls the hook
    again. *)
Theorem die_once c s cxn :
  nth_error (heap s) c = Some cxn ->
  exists s1 cxn1,
    die c s = (Returns tt, s1) /\
    nth_error (heap s1) c = Some cxn1 /\
    dead cxn1 = true /\
    (dead cxn = false -> ringDead (resps cxn1) = true) /\
    trace s1 = trace s ++ (if dead cxn then [] else [HookDisconnect c; ConnClose c]) /\
    (forall c', c' <> c -> nth_error (heap s1) c' = nth_error (heap s) c') /\
    b s1 = b s /\ world s1 = world s /\
    die c s1 = (Returns tt, s1).
Proof.
  intros Hc. destruct (dead cxn) eqn:Hd.
  - exists s, cxn. rewrite (die_dead c s cxn Hc Hd), app_nil_r.
    repeat split; auto. discriminate.
  - rewrite (die_live c s cxn Hc Hd).
    set (cxn1 := set_resps _ _).
    set (s1 := mkState _ _ _ _).
    assert (Hc1 : nth_error (heap s1) c = Some cxn1).
    { subst s1. cbn [heap]. eapply nth_error_update_eq. exact Hc. }
    exists s1, cxn1. split; [reflexivity|]. split; [exact Hc1|].
    split; [reflexivity|]. split; [reflexivity|]. split; [reflexivity|].
    split.
    { intros c' Hne. subst s1. cbn [heap].
      apply nth_error_update_neq. congruence. }
    split; [reflexivity|]. split; [reflexivity|].
    apply (die_dead c s1 cxn1 Hc1). reflexivity.
Qed.

End Dying.

(** A live connection is closed by the first [die] and left alone by the
    second. *)
Lemma die_once_witness :
  let s := mkState Example.loadedBroker [Example.freshCxn]
                   (Example.quiet [] [] []) [] in
  exists s1,
    die 0%nat s = (Returns tt, s1) /\
    trace s1 = [HookDisconnect 0%nat; ConnClose 0%nat] /\
    die 0%nat s1 = (Returns tt, s1).
Proof.
  intros s.
  destruct (die_once 0%nat s Example.freshCxn eq_refl)
    as (s1 & cxn1 & E & _ & _ & _ & T & _ & _ & _ & E2).
  exists s1. split; [exact E|]. split; [exact T|exact E2].
Defined.

(* ================================================================== *)
(** ** Waiting out a throttle *)
(* ================================================================== *)

Section Throttle.

Variable codec : Codec.

(** The error a throttle wait ends with when it is not the timer that
    ends it. *)
Lemma throttleWait_woken c cx s cxn t s1 wake rest :
  nth_error (heap s) c = Some cxn ->
  Now s = (Returns t, s1) ->
  0 < time.Sub (time.Unix 0 (throttleUntil cxn)) t ->
  throttleWakes (world s1) = wake :: rest ->
  throttleWait c (Some cx) s
  = (Returns match wake with
             | TimerFired => None
             | ThrottleCtxDone e => Some (maybeUpdateCtxErr cx e)
             | ThrottleClientDone => Some ErrClientClosed
             | ThrottleCxnDead => Some errChosenBrokerDead
             end,
     mkState (b s1) (heap s1) (set_throttleWakes (world s1) rest) (trace s1)).
Proof.
  intros Hc EN Hpos Hw. unfold throttleWait.
  rewrite (bind_Returns _ _ _ _ _ (getCxn_valid _ _ _ Hc)).
  unfold Until. rewrite bind_assoc. rewrite (bind_Returns _ _ _ _ _ EN).
  rewrite bind_ret.
  destruct (Z.ltb_spec 0 (time.Sub (time.Unix 0 (throttleUntil cxn)) t)); [|lia].
  unfold throttleWoken, bind, getWorld, putWorld, ret. cbn. rewrite Hw.
  reflexivity.
Qed.

(** A request that is cancelled while it waits out a throttle is never
    written.  When the connection is throttled past the present time and
    the wait is ended by the context of the request, by the shutdown of
    the client or by the death of the connection, [writeRequest] returns
    the matching error ([ErrClientClosed] in place of the context's error
    when the context is the client's own), and nothing has been written
    to the socket, no hook has been called, and the connection is as it
    was: alive, with the same correlation ID for the next write. *)
Theorem writeRequest_cancelled_in_throttle
        c cx enq req id s cxn t s1 wake rest :
  nth_error (heap s) c = Some cxn ->
  Now s = (Returns t, s1) ->
  0 < time.Sub (time.Unix 0 (throttleUntil cxn)) t ->
  throttleWakes (world s1) = wake :: rest ->
  wake <> TimerFired ->
  exists w s',
    writeRequest codec c (Some cx) enq req id s = (Returns w, s') /\
    w_writeErr w = Some match wake with
                        | ThrottleCtxDone e =>
                            if isClientCtx cx then ErrClientClosed else ctxErr e
                        | ThrottleClientDone => ErrClientClosed
                        | _ => errChosenBrokerDead
                        end /\
    w_bytesWritten w = 0 /\
    trace s' = trace s /\ heap s' = heap s /\ b s' = b s /\
    connWrites (world s') = connWrites (world s) /\
    inbound (world s') = inbound (world s).
Proof.
  intros Hc EN Hpos Hw Hne.
  destruct (Now_keeps_inbound s) as (t' & s1' & EN' & (B1 & H1 & T1 & W1) & I1).
  rewrite EN in EN'. injection EN' as <- <-.
  unfold writeRequest.
  rewrite (bind_Returns _ _ _ _ _
             (throttleWait_woken c cx s cxn t s1 wake rest Hc EN Hpos Hw)).
  set (s2 := mkState _ _ _ _).
  destruct (Now_keeps_inbound s2) as (t3 & s3 & E3 & (B3 & H3 & T3 & W3) & I3).
  destruct wake as [|e| |]; [contradiction| | |];
    unfold Since; rewrite bind_assoc, (bind_Returns _ _ _ _ _ E3);
    unfold ret, bind; (do 2 eexists; split; [reflexivity|]);
    cbn [w_writeErr w_bytesWritten];
    (split; [reflexivity|]); (split; [reflexivity|]);
    subst s2; cbn [b heap world trace connWrites inbound set_throttleWakes] in *;
    repeat split; congruence.
Qed.

End Throttle.

(** A connection throttled until 5 s, a request written at 1 s whose
    context is cancelled during the wait: the context's error comes back
    and the trace stays empty. *)
Lemma writeRequest_cancelled_in_throttle_witness :
  let cxn := set_throttleUntil Example.freshCxn 5000000000 in
  let w := {| clock := [1000000000]; lastNow := 0; dials := [];
              connWrites := [WriteAll]; inbound := []; selects := [];
              throttleWakes := [ThrottleCtxDone Canceled]; ctxPolls := [];
              authenticates := []; challenges := [] |} in
  let s := mkState Example.loadedBroker [cxn] w [] in
  exists wr s',
    writeRequest Example.codec 0%nat (Some Example.ctx) 0
                 (mkRequest (otherRequest 3 false []) 0) EmptyString s
    = (Returns wr, s') /\
    w_writeErr wr = Some ctxCanceled /\ trace s' = [] /\ heap s' = [cxn].
Proof.
  intros cxn w s.
  destruct (writeRequest_cancelled_in_throttle
              Example.codec 0%nat Example.ctx 0
              (mkRequest (otherRequest 3 false []) 0) EmptyString s cxn
              1000000000
              (mkState Example.loadedBroker [cxn]
                       (set_clock w [] 1000000000) [])
              (ThrottleCtxDone Canceled) [])
    as (wr & s' & E & He & _ & T & H & _).
  - reflexivity.
  - reflexivity.
  - vm_compute. reflexivity.
  - reflexivity.
  - discriminate.
  - exists wr, s'. auto.
Defined.

(* ================================================================== *)
(** ** The version a request is written at *)
(* ================================================================== *)

Lemma notConnWrite_writeOf c buf e : notConnWrite e -> writeOf c buf e.
Proof. destruct e; cbn; auto. contradiction. Qed.

Lemma ctxDone_returns s :
  exists r s', ctxDone s = (Returns r, s') /\
               b s' = b s /\ heap s' = heap s /\ trace s' = trace s.
Proof.
  unfold ctxDone, bind, getWorld, putWorld, ret.
  destruct (ctxPolls (world s)); cbn; eauto 7.
Qed.

Section Negotiation.

Variable codec : Codec.
Variable config : cfg.

(** What [writeRequest] adds to the trace: nothing, when the throttle wait
    ends in an error, and else the write of the request under the
    connection's correlation ID, followed by the write hook. *)
Lemma writeRequest_trace c ctx enq req id s cxn :
  nth_error (heap s) c = Some cxn ->
  exists w s',
    writeRequest codec c ctx enq req id s = (Returns w, s') /\
    (exists cxn', nth_error (heap s') c = Some cxn') /\
    extends (writeOf c (AppendRequest codec [] req (corrID cxn))) s s'.
Proof.
  intros Hc. unfold writeRequest.
  destruct (throttleWait_returns c ctx s cxn Hc) as (thr & s1 & E1 & B1 & H1 & T1 & W1).
  rewrite (bind_Returns _ _ _ _ _ E1).
  destruct thr as [e|].
  - destruct (Since_returns enq s1) as (d & s2 & E2 & B2 & H2 & T2 & W2).
    rewrite (bind_Returns _ _ _ _ _ E2). unfold ret.
    do 2 eexists. split; [reflexivity|]. split.
    + exists cxn. congruence.
    + apply extends_same. congruence.
  - assert (Hc1 : nth_error (heap s1) c = Some cxn) by congruence.
    rewrite (bind_Returns _ _ _ _ _ (getCxn_valid _ _ _ Hc1)). cbv zeta.
    destruct (writeConn_returns c ctx (AppendRequest codec [] req (corrID cxn))
                                (snd (timeouts codec req)) enq s1)
      as (n & ww & tw & re & err & s2 & E2 & B2 & H2 & T2 & _).
    rewrite (bind_Returns _ _ _ _ _ E2).
    unfold emit at 1. unfold bind at 1.
    destruct err as [e|].
    + unfold ret. do 2 eexists. split; [reflexivity|]. cbn [heap trace]. split.
      * exists cxn. congruence.
      * eexists. cbn [trace]. rewrite T2, T1, <- app_assoc. split; [reflexivity|].
        repeat constructor.
    + set (s3 := mkState _ _ _ _).
      assert (Hc3 : nth_error (heap s3) c = Some cxn) by (subst s3; cbn; congruence).
      rewrite (bind_Returns _ _ _ _ _ (getCxn_valid _ _ _ Hc3)). cbv zeta.
      unfold putCxn, bind, ret. cbn.
      do 2 eexists. split; [reflexivity|]. cbn [heap trace]. split.
      * eexists. eapply nth_error_update_eq. rewrite H2. exact Hc1.
      * eexists. rewrite T2, T1, <- app_assoc. split; [reflexivity|].
        repeat constructor.
Qed.

Lemma quiet_die c : preserves (extends notConnWrite) (die c).
Proof. extends_with preserves_die. Qed.

Lemma quiet_hookWriteE2E k n ww tw e :
  preserves (extends notConnWrite) (hookWriteE2E k n ww tw e).
Proof. extends_with preserves_hookWriteE2E. Qed.

Lemma quiet_waitResp c pr : preserves (extends notConnWrite) (waitResp c pr).
Proof.
  extends_with (preserves_waitResp (extends notConnWrite) (fun _ => True)).
Qed.

Lemma quiet_emit e : notConnWrite e -> preserves (extends notConnWrite) (emit e).
Proof. apply extends_emit. Qed.

Lemma quiet_bind {A B} (m : M A) (k : A -> M B) :
  preserves (extends notConnWrite) m ->
  (forall a, preserves (extends notConnWrite) (k a)) ->
  preserves (extends notConnWrite) (bind m k).
Proof. apply preserves_bind. apply extends_trans. Qed.

(** [dispatch] writes the request it was given, as the type switch left
    it, and nothing else. *)
Lemma dispatch_writes cxn pr req id s x :
  nth_error (heap s) cxn = Some x ->
  extends (writeOf cxn (AppendRequest codec []
                          (fst (fst (produceSpecial config req))) (corrID x)))
          s (snd (dispatch codec config cxn pr req id s)).
Proof.
  intros Hc. unfold dispatch. cbv zeta.
  destruct (produceSpecial config req) as [[r n] nr]. cbn [fst].
  destruct (writeRequest_trace cxn (pr_ctx pr) (pr_enqueue pr) r id s x Hc)
    as (w & s1 & E & _ & X).
  rewrite (bind_Returns _ _ _ _ _ E).
  eapply extends_trans; [exact X|].
  eapply extends_weaken; [intros e; apply notConnWrite_writeOf|].
  match goal with
  | |- extends _ s1 (snd (?m s1)) =>
      assert (Q : preserves (extends notConnWrite) m); [|apply Q]
  end.
  destruct (w_writeErr w).
  - apply quiet_bind; [apply quiet_emit; exact I|]. intros _.
    apply quiet_bind; [apply quiet_die|]. intros _. apply quiet_hookWriteE2E.
  - destruct n.
    + apply quiet_bind; [apply quiet_emit; exact I|]. intros _.
      apply quiet_hookWriteE2E.
    + apply quiet_waitResp.
Qed.

(** The loop of [handleReq] on a connection without a SASL expiry. *)
Lemma reauthenticate_no_expiry fuel c promise id k s cxn :
  nth_error (heap s) c = Some cxn ->
  time.IsZero (expiry cxn) = true ->
  reauthenticate codec config (S fuel) c promise id k s = (Returns false, s).
Proof.
  intros Hc Hz. cbn [reauthenticate].
  rewrite (bind_Returns _ _ _ _ _ (getCxn_valid _ _ _ Hc)). rewrite Hz.
  reflexivity.
Qed.

(** Version negotiation.  A request for a key of the table, on a broker
    whose versions are loaded and whose connection for the request is
    alive and has no SASL expiry.  Whatever [handleReq] writes to a socket
    is this request, on this connection, under the connection's
    correlation ID, at a version that is
    - at most the highest version the client knows for the request;
    - at most the highest version the broker advertises for the key, when
      it advertises one;
    - at most the version the user pinned with [maxVersions], when it is
      set;
    - at least the version the user set with [minVersions] for the key,
      when there is one;
    and nothing is written for a key that the broker, having advertised
    its versions, does not list. *)
Theorem handleReq_negotiates pr s cx c cxn v v0 brokerMax :
  pr_ctx pr = Some cx ->
  getSlot (b s) (route (pr_req pr)) = Some c ->
  nth_error (heap s) c = Some cxn ->
  dead cxn = false ->
  time.IsZero (expiry cxn) = true ->
  versions (b s) = Some v ->
  index v 0 = Returns v0 ->
  index v (Key (pr_req pr)) = Returns brokerMax ->
  forall c' buf,
    In (ConnWrite c' buf) (emitted s (snd (handleReq codec config pr s))) ->
    exists version,
      c' = c /\
      buf = AppendRequest codec []
              (fst (fst (produceSpecial config (SetVersion (pr_req pr) version))))
              (corrID cxn) /\
      version <= MaxVersion codec (pr_req pr) /\
      (0 <= brokerMax -> version <= brokerMax) /\
      (forall mv, maxVersions config = Some mv ->
                  version <= fst (LookupMaxKeyVersion mv (Key (pr_req pr)))) /\
      (forall mv m, minVersions config = Some mv ->
                    LookupMaxKeyVersion mv (Key (pr_req pr)) = (m, true) ->
                    m <= version) /\
      (0 <= v0 -> 0 <= brokerMax).
Proof.
  intros Hctx Hslot Hc Hdead Hz Hv Hv0 Hvk c' buf.
  set (req := pr_req pr) in *.
  set (ourMax0 := MaxVersion codec req).
  set (ourMax := match maxVersions config with
                 | None => ourMax0
                 | Some mv =>
                     let userMax := fst (LookupMaxKeyVersion mv (Key req)) in
                     if userMax <? ourMax0 then userMax else ourMax0
                 end).
  set (version := if (0 <=? brokerMax) && (brokerMax <? ourMax)
                  then brokerMax else ourMax).
  (* every exit through the promise alone writes nothing *)
  assert (HP : forall r e,
             In (ConnWrite c' buf)
                (emitted s (mkState (b s) (heap s) (world s)
                                    (trace s ++ [Promise (pr_promise pr) r e]))) ->
             False).
  { intros r e. unfold emitted. cbn [trace].
    rewrite skipn_app, skipn_all, Nat.sub_diag. cbn.
    intros [H|[]]. discriminate. }
  unfold handleReq. cbv zeta. rewrite Hctx.
  unfold ret at 1. unfold bind at 1.
  rewrite (bind_Returns _ _ _ _ _
             (loadConnection_existing _ _ _ _ _ _ _ _ Hslot Hc Hdead)).
  unfold loadVersions, getBroker. unfold bind at 1. unfold bind at 1.
  unfold ret at 1. rewrite Hv.
  destruct (_ || _).
  { unfold emit. cbn [snd]. intros H. destruct (HP _ _ H). }
  unfold versionsAt, lift. fold req. rewrite Hv0, Hvk.
  unfold bind at 1.
  assert (Etoo : (if 0 <=? v0
                  then bind (fun s0 : State => (Returns brokerMax, s0))
                            (fun vk => ret (vk <? 0))
                  else ret false) s
                 = (Returns ((0 <=? v0) && (brokerMax <? 0)), s)).
  { destruct (0 <=? v0); reflexivity. }
  rewrite (bind_Returns _ _ _ _ _ Etoo).
  destruct ((0 <=? v0) && (brokerMax <? 0)) eqn:Htoo.
  { unfold emit. cbn [snd]. intros H. destruct (HP _ _ H). }
  unfold bind at 1. fold ourMax0. fold ourMax. fold version.
  destruct (match minVersions config with Some _ => _ | None => _ end) eqn:Hmin.
  { unfold emit. cbn [snd]. intros H. destruct (HP _ _ H). }
  destruct (Now_quietly s) as (t1 & s1 & EN & B1 & H1 & T1 & W1).
  rewrite (bind_Returns _ _ _ _ _ EN).
  assert (Hc1 : nth_error (heap s1) c = Some cxn) by congruence.
  rewrite (bind_Returns _ _ _ _ _
             (reauthenticate_no_expiry 15 c _ _ _ s1 cxn Hc1 Hz)).
  destruct (ctxDone_returns s1) as (cd & s2 & EC & B2 & H2 & T2).
  rewrite (bind_Returns _ _ _ _ _ EC).
  assert (Hc2 : nth_error (heap s2) c = Some cxn) by congruence.
  assert (T02 : trace s2 = trace s) by congruence.
  intros HIn.
  assert (HW : writeOf c (AppendRequest codec []
                            (fst (fst (produceSpecial config (SetVersion req version))))
                            (corrID cxn)) (ConnWrite c' buf)).
  { destruct cd as [e|].
    - exfalso. revert HIn. unfold emit, emitted. cbn [snd trace].
      rewrite T02, skipn_app, skipn_all, Nat.sub_diag. cbn.
      intros [H|[]]. discriminate.
    - pose proof (dispatch_writes c pr (SetVersion req version)
                                  (match requestIdValue cx with
                                   | Some id => id
                                   | None => "empty-request-id"%string
                                   end) s2 cxn Hc2) as (evs & TE & FE).
      revert HIn. unfold emitted. rewrite TE, T02.
      rewrite skipn_app, skipn_all, Nat.sub_diag. cbn [skipn app].
      intros HIn. rewrite Forall_forall in FE. exact (FE _ HIn). }
  destruct HW as [-> ->].
  exists version. split; [reflexivity|]. split; [reflexivity|].
  assert (Hour : ourMax <= ourMax0).
  { subst ourMax. destruct (maxVersions config); [|lia]. cbv zeta.
    destruct (Z.ltb_spec (fst (LookupMaxKeyVersion v1 (Key req))) ourMax0); lia. }
  assert (Hver : version <= ourMax).
  { subst version.
    destruct (Z.leb_spec 0 brokerMax), (Z.ltb_spec brokerMax ourMax); cbn; lia. }
  split; [lia|]. split.
  { intros Hb. subst version.
    destruct (Z.leb_spec 0 brokerMax), (Z.ltb_spec brokerMax ourMax); cbn; lia. }
  split.
  { intros mv Hmv. subst ourMax. rewrite Hmv in Hver. cbv zeta in Hver.
    destruct (Z.ltb_spec (fst (LookupMaxKeyVersion mv (Key req))) ourMax0); lia. }
  split.
  { intros mv m Hmv Hlook. rewrite Hmv, Hlook in Hmin. cbn [andb] in Hmin.
    destruct (Z.ltb_spec version m); [discriminate|lia]. }
  intros H0. apply andb_false_iff in Htoo.
  destruct Htoo as [Ht|Ht].
  - destruct (Z.leb_spec 0 v0); [discriminate|lia].
  - destruct (Z.ltb_spec brokerMax 0); [discriminate|lia].
Qed.

End Negotiation.

(** The small instance knows version 9 of every request and its broker
    advertises version 1 of key 17: a request for key 17 goes out at a
    version that is at most 1. *)
Lemma handleReq_negotiates_witness :
  let pr := Example.request (otherRequest 17 false []) in
  let s := mkState Example.loadedBroker [Example.freshCxn]
                   (Example.quiet [] [WriteAll] []) [] in
  In (ConnWrite 0%nat [x11; x01; x00; x00; x00; x00])
     (emitted s (snd (handleReq Example.codec (Example.config 1) pr s))) /\
  exists version,
    [x11; x01; x00; x00; x00; x00]
    = AppendRequest Example.codec []
        (fst (fst (produceSpecial (Example.config 1)
                                  (SetVersion (pr_req pr) version)))) 0 /\
    version <= 9 /\ version <= 1.
Proof.
  intros pr s.
  assert (HIn : In (ConnWrite 0%nat [x11; x01; x00; x00; x00; x00])
                   (emitted s (snd (handleReq Example.codec (Example.config 1) pr s))))
    by (vm_compute; auto).
  split; [exact HIn|].
  destruct (handleReq_negotiates
              Example.codec (Example.config 1) pr s Example.ctx 0%nat
              Example.freshCxn
              (fillVersions Example.codec (fst (readApiVersions Example.codec 0 [])))
              7 1
              eq_refl eq_refl eq_refl eq_refl eq_refl eq_refl eq_refl eq_refl
              _ _ HIn)
    as (version & _ & Hbuf & Hmax & Hbroker & _).
  exists version. split; [exact Hbuf|]. split; [exact Hmax|].
  apply Hbroker. lia.
Defined.

(* ================================================================== *)
(** ** The response worker *)
(* ================================================================== *)

Lemma checkResponse_returns codec buf err corrID flexible :
  exists x, checkResponse codec buf err corrID flexible = Returns x.
Proof.
  unfold checkResponse. destruct err as [e|]; [eauto|].
  destruct (Z.ltb_spec (len buf) 4); [eauto|].
  destruct buf as [|b0 [|b1 [|b2 [|b3 rest]]]]; try (unfold len in *; cbn in *; lia).
  cbn [BigEndian.Uint32 run_bind].
  destruct (negb _); [eauto|]. destruct flexible; eauto.
Qed.

Lemma filter_promises_none evs :
  Forall notPromise evs -> filter isPromise evs = [].
Proof.
  induction 1 as [|e l He _ IH]; [reflexivity|].
  cbn. unfold notPromise in He. rewrite He. exact IH.
Qed.

Section WorkerFacts.

Variable codec : Codec.
Variable config : cfg.
Variable decoder : Decoder.

(** [readResponse] always comes back, having touched neither the broker
    nor a connection nor a promise. *)
Lemma readResponse_returns c ctx key version corrID flexible timeout bw ww tw renq s :
  exists raw err s' evs,
    readResponse codec config c ctx key version corrID flexible timeout
                 bw ww tw renq s = (Returns (raw, err), s') /\
    b s' = b s /\ heap s' = heap s /\
    trace s' = trace s ++ evs /\ Forall notPromise evs.
Proof.
  unfold readResponse.
  destruct (readConn_returns config c ctx timeout renq s)
    as (r & s1 & E & _ & B1 & H1 & T1 & _).
  rewrite (bind_Returns _ _ _ _ _ E).
  destruct (checkResponse_returns codec (r_buf r) (r_err r) corrID flexible)
    as ([raw err] & EC).
  unfold emit, bind, lift. cbn [fst snd b heap world trace]. rewrite EC.
  do 4 eexists. split; [reflexivity|]. cbn [b heap trace].
  split; [exact B1|]. split; [exact H1|]. split.
  - rewrite T1, <- app_assoc. reflexivity.
  - repeat constructor.
Qed.

(** The throttle part of [handleResp] on a live pointer: it returns, calls
    no promise, and either leaves the connection alone or moves its
    throttle deadline forward. *)
Lemma applyThrottle_spec c pr raw w s cxn :
  nth_error (heap s) c = Some cxn ->
  exists w' s',
    applyThrottle decoder c pr raw w s = (Returns w', s') /\
    b s' = b s /\ trace s' = trace s /\
    successes w' = successes w /\
    (heap s' = heap s \/
     exists until, throttleUntil cxn < until /\
                   heap s' = update (heap s) c (set_throttleUntil cxn until)).
Proof.
  intros Hc. unfold applyThrottle.
  destruct (Throttle decoder (resp pr) raw) as [[millis after]|].
  2:{ unfold ret. do 2 eexists. split; [reflexivity|]. auto. }
  destruct (0 <? millis).
  2:{ unfold ret. do 2 eexists. split; [reflexivity|]. auto. }
  destruct after.
  2:{ unfold ret, bind. do 2 eexists. split; [reflexivity|]. cbn. auto. }
  destruct (Now_quietly s) as (now & s1 & EN & B1 & H1 & T1 & _).
  rewrite bind_assoc. rewrite (bind_Returns _ _ _ _ _ EN). cbv zeta.
  assert (Hc1 : nth_error (heap s1) c = Some cxn) by congruence.
  rewrite bind_assoc. rewrite (bind_Returns _ _ _ _ _ (getCxn_valid _ _ _ Hc1)).
  set (until := UnixNano (time.Add now (Int.int64 (time.Millisecond * millis)))).
  destruct (Z.gtb_spec until (throttleUntil cxn)) as [Hgt|Hle].
  - unfold putCxn, bind, ret. cbn [fst snd b heap world trace].
    do 2 eexists. split; [reflexivity|].
    cbn [b heap trace successes hookThrottle].
    split; [exact B1|]. split; [exact T1|]. split; [reflexivity|].
    right. exists until. split; [exact Hgt|]. rewrite H1. reflexivity.
  - unfold bind, ret. cbn [fst snd]. do 2 eexists. split; [reflexivity|].
    cbn [successes hookThrottle]. auto.
Qed.

Lemma filter_promises_app x y :
  filter isPromise (x ++ y) = filter isPromise x ++ filter isPromise y.
Proof. apply filter_app. Qed.

(** One response handled, on a live pointer and a response shell that is
    not nil. *)
Lemma handleResp_step c id pr w s cxn v :
  nth_error (heap s) c = Some cxn ->
  GetVersion (resp pr) = Returns v ->
  exists raw err s1,
    readResponse codec config c (resp_ctx pr) (ResponseKey (resp pr)) v
                 (resp_corrID pr) (flexibleHeader pr) (readTimeout pr)
                 (bytesWritten pr) (writeWait pr) (timeToWrite pr)
                 (readEnqueue pr) s = (Returns (raw, err), s1) /\
    exists w' s' cxn' evs,
      handleResp codec config decoder c id pr w s = (Returns w', s') /\
      b s' = b s /\
      nth_error (heap s') c = Some cxn' /\
      (forall c', c' <> c -> nth_error (heap s') c' = nth_error (heap s) c') /\
      elems (resps cxn') = elems (resps cxn) /\
      throttleUntil cxn <= throttleUntil cxn' /\
      trace s' = trace s ++ evs /\
      match err with
      | Some e =>
          filter isPromise evs = [Promise (resp_promise pr) None (Some e)] /\
          dead cxn' = true /\
          (dead cxn = false -> ringDead (resps cxn') = true) /\
          w' = w /\ world s' = world s1
      | None =>
          filter isPromise evs
          = [Promise (resp_promise pr) (Some (resp pr))
                     (ReadFrom decoder (resp pr) raw)] /\
          dead cxn' = dead cxn /\
          ringDead (resps cxn') = ringDead (resps cxn) /\
          successes w' = (successes w + 1) mod 2 ^ 64
      end.
Proof.
  intros Hc Hv. unfold handleResp. rewrite Hv.
  unfold lift at 1. unfold bind at 1.
  destruct (readResponse_returns c (resp_ctx pr) (ResponseKey (resp pr)) v
              (resp_corrID pr) (flexibleHeader pr) (readTimeout pr)
              (bytesWritten pr) (writeWait pr) (timeToWrite pr)
              (readEnqueue pr) s)
    as (raw & err & s1 & ev1 & E1 & B1 & H1 & T1 & F1).
  exists raw, err, s1. split; [exact E1|].
  rewrite (bind_Returns _ _ _ _ _ E1).
  assert (Hc1 : nth_error (heap s1) c = Some cxn) by congruence.
  destruct err as [e|].
  - (* the read failed *)
    match goal with
    | |- context [bind ?m _ s1] =>
        assert (EL : exists s2 evl,
                   m s1 = (Returns tt, s2) /\ b s2 = b s1 /\ heap s2 = heap s1 /\
                   world s2 = world s1 /\
                   trace s2 = trace s1 ++ evl /\ Forall notPromise evl)
    end.
    { destruct (_ && _).
      - destruct (_ || _); unfold emit; do 2 eexists;
          (split; [reflexivity|]); cbn; repeat split; repeat constructor.
      - unfold ret. exists s1, []. rewrite app_nil_r. repeat split. constructor. }
    destruct EL as (s2 & evl & E2 & B2 & H2 & W2 & T2 & F2).
    rewrite (bind_Returns _ _ _ _ _ E2).
    unfold emit at 1. unfold bind at 1. unfold emit at 1. unfold bind at 1.
    set (s3 := mkState _ _ _ _).
    assert (Hc3 : nth_error (heap s3) c = Some cxn) by (subst s3; cbn; congruence).
    assert (T3 : trace s3 = trace s ++ ev1 ++ evl ++
                            [Log LogLevelWarn "xing-read from broker errored, killing connection ";
                             Promise (resp_promise pr) None (Some e)]).
    { subst s3. cbn [trace]. rewrite T2, T1, <- !app_assoc. reflexivity. }
    assert (FP : filter isPromise
                   (ev1 ++ evl ++
                    [Log LogLevelWarn "xing-read from broker errored, killing connection ";
                     Promise (resp_promise pr) None (Some e)])
                 = [Promise (resp_promise pr) None (Some e)]).
    { rewrite !filter_promises_app, (filter_promises_none _ F1),
        (filter_promises_none _ F2). reflexivity. }
    destruct (dead cxn) eqn:Hd.
    + rewrite (bind_Returns _ _ _ _ _ (die_dead c s3 cxn Hc3 Hd)). unfold ret.
      exists w, s3, cxn. eexists. split; [reflexivity|].
      split; [subst s3; cbn; congruence|]. split; [exact Hc3|].
      split; [intros; subst s3; cbn; congruence|].
      split; [reflexivity|]. split; [lia|]. split; [exact T3|].
      split; [exact FP|]. split; [exact Hd|]. split; [discriminate|].
      split; [reflexivity|]. subst s3. cbn. exact W2.
    + rewrite (bind_Returns _ _ _ _ _ (die_live c s3 cxn Hc3 Hd)). unfold ret.
      do 4 eexists. split; [reflexivity|]. cbn [b heap world trace].
      split; [subst s3; cbn; congruence|].
      split; [eapply nth_error_update_eq; exact Hc3|].
      split.
      { intros c' Hne. rewrite nth_error_update_neq by congruence.
        subst s3. cbn. congruence. }
      split; [reflexivity|]. split; [cbn; lia|].
      split; [rewrite T3, <- !app_assoc; reflexivity|].
      split.
      { rewrite !filter_promises_app, (filter_promises_none _ F1),
          (filter_promises_none _ F2). reflexivity. }
      split; [reflexivity|]. split; [reflexivity|].
      split; [reflexivity|]. subst s3. cbn. exact W2.
  - (* the read succeeded *)
    cbv zeta.
    set (w1 := set_successes w ((successes w + 1) mod 2 ^ 64)).
    match goal with
    | |- context [bind ?m _ s1] =>
        assert (ET : exists w' s2 cxn',
                   m s1 = (Returns w', s2) /\ b s2 = b s1 /\
                   nth_error (heap s2) c = Some cxn' /\
                   (forall c', c' <> c ->
                               nth_error (heap s2) c' = nth_error (heap s1) c') /\
                   resps cxn' = resps cxn /\ dead cxn' = dead cxn /\
                   throttleUntil cxn <= throttleUntil cxn' /\
                   successes w' = successes w1 /\
                   exists evl, trace s2 = trace s1 ++ evl /\ Forall notPromise evl)
    end.
    { destruct (ReadFrom decoder (resp pr) raw) as [re|].
      - unfold emit, bind, ret. cbn. exists w1. do 2 eexists.
        split; [reflexivity|]. cbn. split; [reflexivity|].
        split; [exact Hc1|]. split; [reflexivity|].
        split; [reflexivity|]. split; [reflexivity|]. split; [lia|].
        split; [reflexivity|]. eexists. split; [reflexivity|].
        repeat constructor.
      - destruct (applyThrottle_spec c pr raw w1 s1 cxn Hc1)
          as (w' & s2 & EA & BA & TA & SA & [HA|(until & Hu & HA)]).
        + exists w', s2, cxn. split; [exact EA|]. split; [exact BA|].
          split; [congruence|]. split; [intros; congruence|].
          split; [reflexivity|]. split; [reflexivity|]. split; [lia|].
          split; [exact SA|]. exists []. rewrite app_nil_r. split; [exact TA|].
          constructor.
        + exists w', s2, (set_throttleUntil cxn until).
          split; [exact EA|]. split; [exact BA|].
          split; [rewrite HA; eapply nth_error_update_eq; exact Hc1|].
          split; [intros c' Hne; rewrite HA;
                  apply nth_error_update_neq; congruence|].
          split; [reflexivity|]. split; [reflexivity|]. split; [cbn; lia|].
          split; [exact SA|]. exists []. rewrite app_nil_r. split; [exact TA|].
          constructor. }
    destruct ET as (w' & s2 & cxn' & E2 & B2 & Hc2 & Ho2 & R2 & D2 & Th2 & S2
                    & evl & T2 & F2).
    rewrite (bind_Returns _ _ _ _ _ E2).
    unfold emit, bind, ret. cbn [fst snd b heap world trace].
    exists w', (mkState (b s2) (heap s2) (world s2)
                        (trace s2 ++ [Promise (resp_promise pr) (Some (resp pr))
                                              (ReadFrom decoder (resp pr) raw)])),
           cxn'.
    eexists. split; [reflexivity|]. cbn [b heap world trace].
    split; [congruence|]. split; [exact Hc2|].
    split; [intros c' Hne; rewrite (Ho2 c' Hne); congruence|].
    split; [rewrite R2; reflexivity|]. split; [exact Th2|].
    split; [rewrite T2, T1, <- !app_assoc; reflexivity|].
    split.
    { rewrite !filter_promises_app, (filter_promises_none _ F1),
        (filter_promises_none _ F2). reflexivity. }
    split; [exact D2|]. split; [rewrite R2; reflexivity|]. exact S2.
Qed.

Lemma emitted_app s s' evs : trace s' = trace s ++ evs -> emitted s s' = evs.
Proof.
  intros T. unfold emitted. rewrite T, skipn_app, skipn_all, Nat.sub_diag.
  reflexivity.
Qed.


(** A throttling response moves the deadline.  When a response is read
    and decoded without error and reports a throttle of [millis > 0] that
    applies after the response, [handleResp] reads the clock and sets the
    throttle deadline of the connection to the later of the deadline it
    had and [now + millis] milliseconds (as Unix nanoseconds); it calls
    the throttle hook once, with the interval and the flag, and leaves the
    rest of the connection as it was. *)
Theorem handleResp_throttle c id pr w s cxn v raw s1 millis now s2 :
  nth_error (heap s) c = Some cxn ->
  GetVersion (resp pr) = Returns v ->
  readResponse codec config c (resp_ctx pr) (ResponseKey (resp pr)) v
               (resp_corrID pr) (flexibleHeader pr) (readTimeout pr)
               (bytesWritten pr) (writeWait pr) (timeToWrite pr)
               (readEnqueue pr) s = (Returns (raw, None), s1) ->
  ReadFrom decoder (resp pr) raw = None ->
  Throttle decoder (resp pr) raw = Some (millis, true) ->
  0 < millis ->
  Now s1 = (Returns now, s2) ->
  let until := UnixNano (time.Add now (Int.int64 (time.Millisecond * millis))) in
  exists w' s',
    handleResp codec config decoder c id pr w s = (Returns w', s') /\
    nth_error (heap s') c
    = Some (if until >? throttleUntil cxn
            then set_throttleUntil cxn until else cxn) /\
    throttleHooks w'
    = throttleHooks w ++ [(Int.int64 (millis * time.Millisecond), true)] /\
    trace s' = trace s1 ++ [Promise (resp_promise pr) (Some (resp pr)) None].
Proof.
  intros Hc Hv ER HRF HT Hpos EN until.
  destruct (readResponse_returns c (resp_ctx pr) (ResponseKey (resp pr)) v
              (resp_corrID pr) (flexibleHeader pr) (readTimeout pr)
              (bytesWritten pr) (writeWait pr) (timeToWrite pr)
              (readEnqueue pr) s)
    as (raw' & err' & s1' & ev1 & E1 & B1 & H1 & T1 & F1).
  rewrite ER in E1. injection E1 as <- <- <-.
  destruct (Now_quietly s1) as (now' & s2' & EN' & B2 & H2 & T2 & _).
  rewrite EN in EN'. injection EN' as <- <-.
  assert (Hc2 : nth_error (heap s2) c = Some cxn) by congruence.
  unfold handleResp. rewrite Hv. unfold lift at 1. unfold bind at 1.
  rewrite (bind_Returns _ _ _ _ _ ER). cbv zeta. rewrite HRF.
  unfold applyThrottle. rewrite HT.
  destruct (Z.ltb_spec 0 millis); [|lia].
  rewrite !bind_assoc. rewrite (bind_Returns _ _ _ _ _ EN). cbv zeta.
  rewrite !bind_assoc. rewrite (bind_Returns _ _ _ _ _ (getCxn_valid _ _ _ Hc2)).
  fold until.
  destruct (until >? throttleUntil cxn).
  - unfold putCxn, bind, emit, ret. cbn [fst snd b heap world trace].
    do 2 eexists. split; [reflexivity|]. cbn [heap trace throttleHooks hookThrottle set_successes].
    split; [eapply nth_error_update_eq; exact Hc2|].
    split; [reflexivity|]. rewrite T2. reflexivity.
  - unfold bind, emit, ret. cbn [fst snd b heap world trace].
    do 2 eexists. split; [reflexivity|]. cbn [heap trace throttleHooks hookThrottle set_successes].
    split; [exact Hc2|]. split; [reflexivity|]. rewrite T2. reflexivity.
Qed.

(** One pass of the worker over a response found on a dead queue. *)
Lemma deadPass_returns pr (w : respWorker) s :
  bind (emit (Promise (resp_promise pr) None (Some errChosenBrokerDead)))
       (fun _ => bind (hookWriteE2E (ResponseKey (resp pr)) (bytesWritten pr)
                                    (writeWait pr) (timeToWrite pr)
                                    (Some errChosenBrokerDead))
                      (fun _ => ret w)) s
  = (Returns w,
     mkState (b s) (heap s) (world s)
             (trace s ++ [deadAnswer pr;
                          HookE2E (ResponseKey (resp pr))
                            {| BytesWritten := bytesWritten pr; BytesRead := 0;
                               WriteWait := writeWait pr;
                               TimeToWrite := timeToWrite pr;
                               ReadWait := 0; TimeToRead := 0;
                               WriteErr := Some errChosenBrokerDead;
                               ReadErr := None |}])).
Proof.
  unfold hookWriteE2E, emit, bind, ret. cbn. rewrite <- app_assoc. reflexivity.
Qed.

(** The worker on a dead queue: every response that is left is answered
    with [errChosenBrokerDead], in order, and the environment is not
    asked a thing. *)
Lemma handleRespsFrom_dead c id : forall rest fuel pr w s cxn,
  nth_error (heap s) c = Some cxn ->
  elems (resps cxn) = pr :: rest ->
  ringDead (resps cxn) = true ->
  (List.length rest < fuel)%nat ->
  exists w' s' cxn' evs,
    handleRespsFrom codec config decoder fuel c id pr true w s = (Returns w', s') /\
    trace s' = trace s ++ evs /\
    filter isPromise evs = map deadAnswer (pr :: rest) /\
    nth_error (heap s') c = Some cxn' /\ elems (resps cxn') = [] /\
    dead cxn' = dead cxn /\
    b s' = b s /\ world s' = world s /\ w' = w.
Proof.
  induction rest as [|p rest IH]; intros fuel pr w s cxn Hc He Hd Hf;
    (destruct fuel as [|fuel]; [cbn in Hf; lia|]); cbn [handleRespsFrom].
  - rewrite (bind_Returns _ _ _ _ _ (deadPass_returns pr w s)).
    set (s1 := mkState _ _ _ _).
    assert (Hc1 : nth_error (heap s1) c = Some cxn) by (subst s1; exact Hc).
    rewrite (bind_Returns _ _ _ _ _ (getCxn_valid _ _ _ Hc1)).
    unfold ringResp_dropPeek. rewrite He. cbn [tl hd_error].
    unfold putCxn, bind, ret. cbn [fst snd b heap world trace].
    do 4 eexists. split; [reflexivity|]. cbn [b heap world trace].
    split; [subst s1; cbn [trace]; reflexivity|].
    split; [reflexivity|].
    split; [eapply nth_error_update_eq; exact Hc1|].
    repeat split.
  - rewrite (bind_Returns _ _ _ _ _ (deadPass_returns pr w s)).
    set (s1 := mkState _ _ _ _).
    assert (Hc1 : nth_error (heap s1) c = Some cxn) by (subst s1; exact Hc).
    rewrite (bind_Returns _ _ _ _ _ (getCxn_valid _ _ _ Hc1)).
    unfold ringResp_dropPeek. rewrite He, Hd. cbn [tl hd_error].
    unfold putCxn at 1. unfold bind at 1.
    set (cxn1 := set_resps cxn _). set (s2 := mkState _ _ _ _).
    assert (Hc2 : nth_error (heap s2) c = Some cxn1)
      by (subst s2; cbn [heap]; eapply nth_error_update_eq; exact Hc1).
    destruct (IH fuel p w s2 cxn1 Hc2 eq_refl eq_refl ltac:(cbn in Hf; lia))
      as (w' & s' & cxn' & evs & E & T & FP & Hc' & He' & Hd' & B' & W' & Hw).
    exists w', s', cxn'. eexists. split; [exact E|].
    split; [rewrite T; subst s2 s1; cbn [trace]; rewrite <- !app_assoc; reflexivity|].
    split.
    { rewrite filter_promises_app, FP. reflexivity. }
    split; [exact Hc'|]. split; [exact He'|]. split; [rewrite Hd'; reflexivity|].
    split; [rewrite B'; reflexivity|]. split; [rewrite W'; reflexivity|exact Hw].
Qed.

(** The worker answers every response on the queue once, in order. *)
Lemma handleRespsFrom_all c id : forall rest fuel pr isDead w s cxn,
  nth_error (heap s) c = Some cxn ->
  elems (resps cxn) = pr :: rest ->
  Forall (fun p => exists v, GetVersion (resp p) = Returns v) (pr :: rest) ->
  (List.length rest < fuel)%nat ->
  exists w' s' cxn' evs,
    handleRespsFrom codec config decoder fuel c id pr isDead w s = (Returns w', s') /\
    trace s' = trace s ++ evs /\
    Forall2 answersTo (filter isPromise evs) (pr :: rest) /\
    nth_error (heap s') c = Some cxn' /\ elems (resps cxn') = [] /\
    b s' = b s.
Proof.
  induction rest as [|p rest IH]; intros fuel pr isDead w s cxn Hc He Hv Hf;
    (destruct fuel as [|fuel]; [cbn in Hf; lia|]); cbn [handleRespsFrom];
    inversion Hv as [|? ? [v Hpv] Hvr]; subst.
  - (* the last response *)
    assert (ST : exists w1 s1 cxn1 ev1,
               (if isDead
                then bind (emit (Promise (resp_promise pr) None (Some errChosenBrokerDead)))
                          (fun _ => bind (hookWriteE2E (ResponseKey (resp pr))
                                            (bytesWritten pr) (writeWait pr)
                                            (timeToWrite pr) (Some errChosenBrokerDead))
                                         (fun _ => ret w))
                else handleResp codec config decoder c id pr w) s = (Returns w1, s1) /\
               nth_error (heap s1) c = Some cxn1 /\
               elems (resps cxn1) = elems (resps cxn) /\ b s1 = b s /\
               trace s1 = trace s ++ ev1 /\
               Forall2 answersTo (filter isPromise ev1) [pr]).
    { destruct isDead.
      - rewrite deadPass_returns.
        do 4 eexists. split; [reflexivity|]. cbn [b heap trace].
        split; [exact Hc|]. split; [reflexivity|]. split; [reflexivity|].
        split; [reflexivity|].
        cbn. constructor; [|constructor]. eexists _, _. reflexivity.
      - destruct (handleResp_step c id pr w s cxn v Hc Hpv)
          as (raw & err & s0 & _ & w1 & s1 & cxn1 & ev1 & E & B & Hc1 & _ & He1
              & _ & T & Hm).
        exists w1, s1, cxn1, ev1. split; [exact E|]. split; [exact Hc1|].
        split; [exact He1|]. split; [exact B|]. split; [exact T|].
        destruct err; destruct Hm as (-> & _);
          (constructor; [|constructor]); eexists _, _; reflexivity. }
    destruct ST as (w1 & s1 & cxn1 & ev1 & E1 & Hc1 & He1 & B1 & T1 & F1).
    rewrite (bind_Returns _ _ _ _ _ E1).
    rewrite (bind_Returns _ _ _ _ _ (getCxn_valid _ _ _ Hc1)).
    unfold ringResp_dropPeek. rewrite He1, He. cbn [tl hd_error].
    unfold putCxn, bind, ret. cbn [fst snd b heap world trace].
    do 4 eexists. split; [reflexivity|]. cbn [b heap world trace].
    split; [exact T1|]. split; [exact F1|].
    split; [eapply nth_error_update_eq; exact Hc1|].
    split; [reflexivity|exact B1].
  - (* a response with more behind it *)
    assert (ST : exists w1 s1 cxn1 ev1,
               (if isDead
                then bind (emit (Promise (resp_promise pr) None (Some errChosenBrokerDead)))
                          (fun _ => bind (hookWriteE2E (ResponseKey (resp pr))
                                            (bytesWritten pr) (writeWait pr)
                                            (timeToWrite pr) (Some errChosenBrokerDead))
                                         (fun _ => ret w))
                else handleResp codec config decoder c id pr w) s = (Returns w1, s1) /\
               nth_error (heap s1) c = Some cxn1 /\
               elems (resps cxn1) = elems (resps cxn) /\ b s1 = b s /\
               trace s1 = trace s ++ ev1 /\
               Forall2 answersTo (filter isPromise ev1) [pr]).
    { destruct isDead.
      - rewrite deadPass_returns.
        do 4 eexists. split; [reflexivity|]. cbn [b heap trace].
        split; [exact Hc|]. split; [reflexivity|]. split; [reflexivity|].
        split; [reflexivity|].
        cbn. constructor; [|constructor]. eexists _, _. reflexivity.
      - destruct (handleResp_step c id pr w s cxn v Hc Hpv)
          as (raw & err & s0 & _ & w1 & s1 & cxn1 & ev1 & E & B & Hc1 & _ & He1
              & _ & T & Hm).
        exists w1, s1, cxn1, ev1. split; [exact E|]. split; [exact Hc1|].
        split; [exact He1|]. split; [exact B|]. split; [exact T|].
        destruct err; destruct Hm as (-> & _);
          (constructor; [|constructor]); eexists _, _; reflexivity. }
    destruct ST as (w1 & s1 & cxn1 & ev1 & E1 & Hc1 & He1 & B1 & T1 & F1).
    rewrite (bind_Returns _ _ _ _ _ E1).
    rewrite (bind_Returns _ _ _ _ _ (getCxn_valid _ _ _ Hc1)).
    unfold ringResp_dropPeek. rewrite He1, He. cbn [tl hd_error].
    unfold putCxn at 1. unfold bind at 1.
    set (cxn2 := set_resps cxn1 _). set (s2 := mkState _ _ _ _).
    assert (Hc2 : nth_error (heap s2) c = Some cxn2)
      by (subst s2; cbn [heap]; eapply nth_error_update_eq; exact Hc1).
    destruct (IH fuel p (ringDead (resps cxn1)) w1 s2 cxn2 Hc2 eq_refl Hvr
                 ltac:(cbn in Hf; lia))
      as (w' & s' & cxn' & evs & E & T & FP & Hc' & He' & B').
    exists w', s', cxn'. eexists. split; [exact E|].
    split; [rewrite T; subst s2; cbn [trace]; rewrite T1, <- app_assoc; reflexivity|].
    split.
    { rewrite filter_promises_app.
      change (pr :: p :: rest) with ([pr] ++ p :: rest).
      apply Forall2_app; assumption. }
    split; [exact Hc'|]. split; [exact He'|]. rewrite B'. exact B1.
Qed.

(** The worker drains the queue.  Started on the response at the head of
    the queue of a connection, [handleResps] returns once the queue is
    empty, having called the promise of every response that was on it
    exactly once and in the order of the queue, and no other promise. *)
Theorem handleResps_answers_all c id pr rest w s cxn :
  nth_error (heap s) c = Some cxn ->
  elems (resps cxn) = pr :: rest ->
  Forall (fun p => exists v, GetVersion (resp p) = Returns v) (pr :: rest) ->
  exists w' s' cxn',
    handleResps codec config decoder c id pr w s = (Returns w', s') /\
    Forall2 answersTo (filter isPromise (emitted s s')) (pr :: rest) /\
    nth_error (heap s') c = Some cxn' /\ elems (resps cxn') = [] /\
    b s' = b s.
Proof.
  intros Hc He Hv. unfold handleResps.
  rewrite (bind_Returns _ _ _ _ _ (getCxn_valid _ _ _ Hc)). rewrite He.
  destruct (handleRespsFrom_all c id rest (S (List.length (pr :: rest))) pr false
                                w s cxn Hc He Hv ltac:(cbn; lia))
    as (w' & s' & cxn' & evs & E & T & FP & Hc' & He' & B').
  exists w', s', cxn'. split; [exact E|].
  rewrite (emitted_app _ _ _ T). auto.
Qed.

(** A failed read fails the rest of the queue.  When the read for the
    response at the head of the queue of a live connection fails, the
    promise of that response gets the error of the read, the promise of
    every response behind it gets [errChosenBrokerDead], in order, and
    after the failed read the worker asks nothing more of the
    environment: not a byte is read for the responses behind. *)
Theorem handleResps_failed_read c id pr rest w s cxn v raw e s1 :
  nth_error (heap s) c = Some cxn ->
  elems (resps cxn) = pr :: rest ->
  dead cxn = false ->
  GetVersion (resp pr) = Returns v ->
  readResponse codec config c (resp_ctx pr) (ResponseKey (resp pr)) v
               (resp_corrID pr) (flexibleHeader pr) (readTimeout pr)
               (bytesWritten pr) (writeWait pr) (timeToWrite pr)
               (readEnqueue pr) s = (Returns (raw, Some e), s1) ->
  exists s' cxn',
    handleResps codec config decoder c id pr w s = (Returns w, s') /\
    filter isPromise (emitted s s')
    = Promise (resp_promise pr) None (Some e) :: map deadAnswer rest /\
    world s' = world s1 /\
    nth_error (heap s') c = Some cxn' /\ dead cxn' = true /\
    elems (resps cxn') = [].
Proof.
  intros Hc He Hd Hv ER. unfold handleResps.
  rewrite (bind_Returns _ _ _ _ _ (getCxn_valid _ _ _ Hc)). rewrite He.
  cbn [List.length handleRespsFrom].
  destruct (handleResp_step c id pr w s cxn v Hc Hv)
    as (raw' & err & s0 & ER' & w1 & s2 & cxn2 & ev1 & E & B & Hc2 & _ & He2
        & _ & T & Hm).
  rewrite ER in ER'. injection ER' as <- <- <-.
  destruct Hm as (FP & Hd2 & Hr2 & -> & W2). specialize (Hr2 Hd).
  rewrite (bind_Returns _ _ _ _ _ E).
  rewrite (bind_Returns _ _ _ _ _ (getCxn_valid _ _ _ Hc2)).
  unfold ringResp_dropPeek. rewrite He2, He, Hr2. cbn [tl hd_error].
  destruct rest as [|p rest].
  - unfold putCxn, bind, ret. cbn [fst snd].
    do 2 eexists. split; [reflexivity|].
    rewrite (emitted_app s _ ev1) by exact T.
    split; [exact FP|]. split; [exact W2|]. cbn [heap].
    split; [eapply nth_error_update_eq; exact Hc2|]. split; [exact Hd2|reflexivity].
  - unfold putCxn at 1. unfold bind at 1.
    set (cxn3 := set_resps cxn2 _). set (s3 := mkState _ _ _ _).
    assert (Hc3 : nth_error (heap s3) c = Some cxn3)
      by (subst s3; cbn [heap]; eapply nth_error_update_eq; exact Hc2).
    destruct (handleRespsFrom_dead c id rest (S (S (List.length rest))) p w s3 cxn3
                                   Hc3 eq_refl eq_refl ltac:(lia))
      as (w' & s' & cxn' & evs & E' & T' & FP' & Hc' & He' & Hd' & B' & W' & ->).
    assert (Hd3 : dead cxn' = true) by (rewrite Hd'; exact Hd2).
    exists s', cxn'. split; [exact E'|].
    assert (TT : trace s' = trace s ++ ev1 ++ evs).
    { rewrite T'. subst s3. cbn [trace]. rewrite T, app_assoc. reflexivity. }
    rewrite (emitted_app s s' _ TT).
    split; [rewrite filter_promises_app, FP, FP'; reflexivity|].
    split; [rewrite W'; subst s3; cbn [world]; exact W2|].
    split; [exact Hc'|]. split; [exact Hd3|exact He'].
Qed.

End WorkerFacts.


(** A response that reports a throttle of two seconds, read when the
    clock stands at 1000 ns: the deadline becomes 2000001000 ns. *)
Lemma handleResp_throttle_witness :
  let s := mkState Example.loadedBroker [Example.freshCxn]
                   (Example.env [] 1000 [] (Example.frame 0 [x02]) [] []) [] in
  exists w' s',
    handleResp Example.codec (Example.config 1) exampleDecoder 0%nat EmptyString
               (examplePending 1 0) freshWorker s = (Returns w', s') /\
    nth_error (heap s') 0 = Some (set_throttleUntil Example.freshCxn 2000001000) /\
    throttleHooks w' = [(2000000000, true)].
Proof.
  intros s.
  set (s1 := snd (readResponse Example.codec (Example.config 1) 0%nat None 3 0 0
                               false 0 0 0 0 0 s)).
  destruct (handleResp_throttle
              Example.codec (Example.config 1) exampleDecoder 0%nat EmptyString
              (examplePending 1 0) freshWorker s Example.freshCxn 0
              [x02] s1 2000 1000 s1)
    as (w' & s' & E & Hc & Hh & _).
  - reflexivity.
  - reflexivity.
  - vm_compute. reflexivity.
  - reflexivity.
  - reflexivity.
  - lia.
  - vm_compute. reflexivity.
  - exists w', s'. split; [exact E|]. split; [exact Hc|exact Hh].
Defined.

(** Two responses on the queue and their frames on the wire: both
    promises are called, in the order of the queue. *)
Lemma handleResps_answers_all_witness :
  let queue := [examplePending 1 0; examplePending 2 1] in
  let cxn := set_resps Example.freshCxn {| elems := queue; ringDead := false |} in
  let s := mkState Example.loadedBroker [cxn]
                   (Example.quiet [] [] (Example.frame 0 [] ++ Example.frame 1 []))
                   [] in
  exists w' s',
    handleResps Example.codec (Example.config 1) exampleDecoder 0%nat EmptyString
                (examplePending 1 0) freshWorker s = (Returns w', s') /\
    Forall2 answersTo (filter isPromise (emitted s s')) queue.
Proof.
  intros queue cxn s.
  destruct (handleResps_answers_all
              Example.codec (Example.config 1) exampleDecoder 0%nat EmptyString
              (examplePending 1 0) [examplePending 2 1] freshWorker s cxn
              eq_refl eq_refl)
    as (w' & s' & cxn' & E & F & _).
  - repeat constructor; exists 0; reflexivity.
  - exists w', s'. split; [exact E|exact F].
Defined.

(** Two responses on the queue and a socket that is closed: the first
    promise gets the end of file, the second [errChosenBrokerDead]. *)
Lemma handleResps_failed_read_witness :
  let queue := [examplePending 1 0; examplePending 2 1] in
  let cxn := set_resps Example.freshCxn {| elems := queue; ringDead := false |} in
  let s := mkState Example.loadedBroker [cxn] (Example.quiet [] [] []) [] in
  exists s',
    handleResps Example.codec (Example.config 1) exampleDecoder 0%nat EmptyString
                (examplePending 1 0) freshWorker s = (Returns freshWorker, s') /\
    filter isPromise (emitted s s')
    = [Promise 1%nat None (Some (otherError "EOF"));
       Promise 2%nat None (Some errChosenBrokerDead)].
Proof.
  intros queue cxn s.
  set (s1 := snd (readResponse Example.codec (Example.config 1) 0%nat None 3 0 0
                               false 0 0 0 0 0 s)).
  destruct (handleResps_failed_read
              Example.codec (Example.config 1) exampleDecoder 0%nat EmptyString
              (examplePending 1 0) [examplePending 2 1] freshWorker s cxn 0
              [] (otherError "EOF") s1)
    as (s' & cxn' & E & F & _).
  - reflexivity.
  - reflexivity.
  - reflexivity.
  - reflexivity.
  - vm_compute. reflexivity.
  - exists s'. split; [exact E|exact F].
Defined.

(* ================================================================== *)
(** ** The reaper *)
(* ================================================================== *)

(** What [die] adds to the trace concerns the connection it is called
    on. *)
Lemma die_events c :
  preserves (extends (fun e => e = HookDisconnect c \/ e = ConnClose c)) (die c).
Proof.
  intros s. destruct (nth_error (heap s) c) as [cxn|] eqn:Hc.
  - destruct (dead cxn) eqn:Hd.
    + rewrite (die_dead c s cxn Hc Hd). apply extends_refl.
    + rewrite (die_live c s cxn Hc Hd). cbn [snd].
      exists [HookDisconnect c; ConnClose c]. split; [reflexivity|].
      constructor; [left; reflexivity|].
      constructor; [right; reflexivity|constructor].
  - unfold die. rewrite (bind_Panics _ _ _ _ _ (getCxn_invalid _ _ Hc)).
    apply extends_refl.
Qed.

(** A clock that has run out of readings stands still. *)
Lemma Now_still s :
  clock (world s) = [] -> Now s = (Returns (lastNow (world s)), s).
Proof.
  intros H. unfold Now, bind, getWorld, ret. cbn. rewrite H. reflexivity.
Qed.

Lemma Since_still t s :
  clock (world s) = [] ->
  Since t s = (Returns (time.Sub (lastNow (world s)) t), s).
Proof.
  intros H. unfold Since. rewrite (bind_Returns _ _ _ _ _ (Now_still s H)).
  reflexivity.
Qed.

Section ReaperFacts.

Variable idleTimeout : time.Duration.
Variable activity : ptr -> reapFields.

Lemma reapCxn_spares x cxn :
  In cxn (slots x) ->
  preserves (extends (spared activity x)) (reapCxn idleTimeout activity cxn).
Proof.
  intros Hin. destruct cxn as [c|]; cbn [reapCxn];
    [|intros s; apply extends_refl].
  assert (Hs : inSlots x c = true).
  { unfold inSlots. apply existsb_exists. exists (Some c).
    split; [exact Hin|apply Nat.eqb_refl]. }
  apply preserves_bind; [apply extends_trans| |].
  { intros s. unfold getCxn. destruct (nth_error (heap s) c); apply extends_refl. }
  intros cxn. destruct (dead cxn); [intros s; apply extends_refl|]. cbv zeta.
  apply preserves_bind; [apply extends_trans| |].
  { apply extends_worldOnly. intros s. unfold Since.
    pose proof (worldOnly_Now s) as H. unfold bind.
    destruct (Now s) as [[t|p|] s1]; cbn in *; exact H. }
  intros sinceWrite.
  apply preserves_bind; [apply extends_trans| |].
  { apply extends_worldOnly. intros s. unfold Since.
    pose proof (worldOnly_Now s) as H. unfold bind.
    destruct (Now s) as [[t|p|] s1]; cbn in *; exact H. }
  intros sinceRead.
  destruct ((sinceWrite >? idleTimeout) && (writing (activity c) =? 0)) eqn:HW;
    [|intros s; apply extends_refl].
  destruct ((sinceRead >? idleTimeout) && (reading (activity c) =? 0)) eqn:HR;
    [|intros s; apply extends_refl].
  cbn [andb].
  apply andb_true_iff in HW. apply andb_true_iff in HR.
  destruct HW as [_ HW], HR as [_ HR]. apply Z.eqb_eq in HW, HR.
  apply preserves_bind; [apply extends_trans| |].
  - intros s. eapply extends_weaken; [|apply die_events].
    intros e [->| ->]; cbn; auto.
  - intros _ s. apply extends_refl.
Qed.

Lemma reapEach_spares x cxns : forall total,
  (forall cxn, In cxn cxns -> In cxn (slots x)) ->
  preserves (extends (spared activity x)) (reapEach idleTimeout activity cxns total).
Proof.
  induction cxns as [|cxn rest IH]; intros total Hin; cbn [reapEach].
  - intros s. apply extends_refl.
  - apply preserves_bind; [apply extends_trans| |].
    + apply reapCxn_spares. apply Hin. left. reflexivity.
    + intros reaped. apply IH. intros c Hc. apply Hin. right. exact Hc.
Qed.

Lemma reapEach_total cxns : forall total s t s',
  reapEach idleTimeout activity cxns total s = (Returns t, s') ->
  total <= t <= total + len cxns.
Proof.
  induction cxns as [|cxn rest IH]; intros total s t s'; cbn [reapEach].
  - intros [= <- _]. unfold len. cbn. lia.
  - unfold bind at 1.
    destruct (reapCxn idleTimeout activity cxn s) as [[reaped|p|] s1];
      try discriminate.
    intros E. apply IH in E. unfold len in *. cbn [List.length].
    destruct reaped; lia.
Qed.

(** The reaper spares what is busy.  Whatever the clock says, every
    socket that [reapConnections] closes belongs to a connection in one of
    the five slots of the broker on which no write and no read was under
    way; and the count it returns lies between 0 and 5. *)
Theorem reapConnections_spares_busy s :
  (forall c,
      In (ConnClose c)
         (emitted s (snd (reapConnections idleTimeout activity s))) ->
      writing (activity c) = 0 /\ reading (activity c) = 0 /\
      inSlots (b s) c = true) /\
  (forall total,
      fst (reapConnections idleTimeout activity s) = Returns total ->
      0 <= total <= 5).
Proof.
  unfold reapConnections, getBroker. unfold bind at 1 2. split.
  - intros c HIn.
    pose proof (reapEach_spares (b s) (slots (b s)) 0 (fun _ H => H) s) as X.
    apply extends_emitted in X. rewrite Forall_forall in X.
    exact (X _ HIn).
  - intros total E.
    destruct (reapEach idleTimeout activity _ 0 s) as [r s'] eqn:ER.
    cbn [fst] in E. subst r. apply reapEach_total in ER.
    unfold len in ER. cbn in ER. lia.
Qed.

(** One pointer under a clock that stands still. *)
Lemma reapCxn_still c0 s x0 :
  clock (world s) = [] ->
  nth_error (heap s) c0 = Some x0 ->
  exists reaped s',
    reapCxn idleTimeout activity (Some c0) s = (Returns reaped, s') /\
    b s' = b s /\ world s' = world s /\
    List.length (heap s') = List.length (heap s) /\
    forall c cxn,
      nth_error (heap s) c = Some cxn ->
      exists cxn',
        nth_error (heap s') c = Some cxn' /\
        dead cxn' = dead cxn
                    || (Nat.eqb c0 c
                        && reapable idleTimeout activity (lastNow (world s)) c).
Proof.
  intros Hclock Hc0. cbn [reapCxn].
  rewrite (bind_Returns _ _ _ _ _ (getCxn_valid _ _ _ Hc0)).
  destruct (dead x0) eqn:Hd.
  - unfold ret. exists false, s. split; [reflexivity|]. repeat split.
    intros c cxn Hc. exists cxn. split; [exact Hc|].
    destruct (Nat.eqb_spec c0 c) as [->|]; cbn [andb].
    + rewrite Hc0 in Hc. injection Hc as <-. rewrite Hd. reflexivity.
    + rewrite orb_false_r. reflexivity.
  - cbv zeta.
    rewrite (bind_Returns _ _ _ _ _ (Since_still _ s Hclock)).
    rewrite (bind_Returns _ _ _ _ _ (Since_still _ s Hclock)).
    fold (reapable idleTimeout activity (lastNow (world s)) c0).
    destruct (reapable idleTimeout activity (lastNow (world s)) c0) eqn:HR.
    + rewrite (bind_Returns _ _ _ _ _ (die_live c0 s x0 Hc0 Hd)). unfold ret.
      do 2 eexists. split; [reflexivity|]. cbn [b heap world].
      split; [reflexivity|]. split; [reflexivity|].
      split; [apply update_length|].
      intros c cxn Hc. destruct (Nat.eqb_spec c0 c) as [->|Hne].
      * eexists. split; [eapply nth_error_update_eq; exact Hc|].
        cbn. rewrite HR. rewrite orb_true_r. reflexivity.
      * exists cxn. rewrite nth_error_update_neq by exact Hne.
        split; [exact Hc|]. cbn [andb]. rewrite orb_false_r. reflexivity.
    + unfold ret. exists false, s. split; [reflexivity|]. repeat split.
      intros c cxn Hc. exists cxn. split; [exact Hc|].
      destruct (Nat.eqb_spec c0 c) as [->|]; cbn [andb].
      * rewrite HR, orb_false_r. reflexivity.
      * rewrite orb_false_r. reflexivity.
Qed.

Lemma reapEach_still cxns : forall total s,
  clock (world s) = [] ->
  (forall c, In (Some c) cxns -> (c < List.length (heap s))%nat) ->
  exists t s',
    reapEach idleTimeout activity cxns total s = (Returns t, s') /\
    b s' = b s /\ world s' = world s /\
    forall c cxn,
      nth_error (heap s) c = Some cxn ->
      exists cxn',
        nth_error (heap s') c = Some cxn' /\
        dead cxn' = dead cxn
                    || (existsb (fun sl => match sl with
                                           | Some c' => Nat.eqb c' c
                                           | None => false
                                           end) cxns
                        && reapable idleTimeout activity (lastNow (world s)) c).
Proof.
  induction cxns as [|sl rest IH]; intros total s Hclock Hvalid; cbn [reapEach].
  - unfold ret. exists total, s. split; [reflexivity|]. repeat split.
    intros c cxn Hc. exists cxn. split; [exact Hc|].
    cbn. rewrite orb_false_r. reflexivity.
  - assert (ST : exists reaped s1,
               reapCxn idleTimeout activity sl s = (Returns reaped, s1) /\
               b s1 = b s /\ world s1 = world s /\
               List.length (heap s1) = List.length (heap s) /\
               forall c cxn,
                 nth_error (heap s) c = Some cxn ->
                 exists cxn',
                   nth_error (heap s1) c = Some cxn' /\
                   dead cxn' = dead cxn
                               || (match sl with
                                   | Some c' => Nat.eqb c' c
                                   | None => false
                                   end
                                   && reapable idleTimeout activity
                                               (lastNow (world s)) c)).
    { destruct sl as [c0|].
      - assert (Hlt : (c0 < List.length (heap s))%nat)
          by (apply Hvalid; left; reflexivity).
        destruct (nth_error (heap s) c0) as [x0|] eqn:Hc0.
        + exact (reapCxn_still c0 s x0 Hclock Hc0).
        + apply nth_error_None in Hc0. lia.
      - cbn [reapCxn]. unfold ret. exists false, s. split; [reflexivity|].
        repeat split. intros c cxn Hc. exists cxn. split; [exact Hc|].
        cbn. rewrite orb_false_r. reflexivity. }
    destruct ST as (reaped & s1 & E1 & B1 & W1 & L1 & H1).
    rewrite (bind_Returns _ _ _ _ _ E1).
    destruct (IH (if reaped then total + 1 else total) s1)
      as (t & s' & E & B & W & H).
    { rewrite W1. exact Hclock. }
    { intros c Hc. rewrite L1. apply Hvalid. right. exact Hc. }
    exists t, s'. split; [exact E|]. split; [congruence|]. split; [congruence|].
    intros c cxn Hc. destruct (H1 c cxn Hc) as (cxn1 & Hc1 & Hd1).
    destruct (H c cxn1 Hc1) as (cxn' & Hc' & Hd').
    exists cxn'. split; [exact Hc'|]. rewrite Hd', Hd1, W1. cbn [existsb].
    destruct (dead cxn), (match sl with Some c' => Nat.eqb c' c | None => false end),
      (existsb _ rest), (reapable _ _ _ _); reflexivity.
Qed.

(** Idle reap.  Under a clock that stands at [now], on a broker whose
    slots point into the heap, [reapConnections] returns, and a connection
    is dead afterwards exactly when it was dead before or one of the five
    slots points to it and it is idle: the last write and the last read
    both lie more than [idleTimeout] before [now], and neither a write nor
    a read is under way.  The broker and the environment are as they
    were. *)
Theorem reapConnections_idle s :
  clock (world s) = [] ->
  (forall c, In (Some c) (slots (b s)) -> (c < List.length (heap s))%nat) ->
  exists total s',
    reapConnections idleTimeout activity s = (Returns total, s') /\
    b s' = b s /\ world s' = world s /\
    forall c cxn,
      nth_error (heap s) c = Some cxn ->
      exists cxn',
        nth_error (heap s') c = Some cxn' /\
        dead cxn' = dead cxn
                    || (inSlots (b s) c
                        && reapable idleTimeout activity (lastNow (world s)) c).
Proof.
  intros Hclock Hvalid. unfold reapConnections, getBroker. unfold bind at 1.
  exact (reapEach_still (slots (b s)) 0 s Hclock Hvalid).
Qed.

End ReaperFacts.

(** One connection in the slot for ordinary requests, last used at
    2000 ns, under a clock that stands at 10000 ns and an idle timeout of
    5000 ns: it is reaped. *)
Lemma reapConnections_idle_witness :
  let s := mkState Example.loadedBroker [Example.freshCxn]
                   (Example.env [] 10000 [] [] [] []) [] in
  exists total s',
    reapConnections 5000 exampleActivity s = (Returns total, s') /\
    total = 1 /\
    option_map dead (nth_error (heap s') 0) = Some true.
Proof.
  intros s.
  assert (Hvalid : forall c, In (Some c) (slots (b s)) ->
                             (c < List.length (heap s))%nat).
  { intros c H. cbn in H.
    destruct H as [H|[H|[H|[H|[H|[]]]]]]; try discriminate H.
    injection H as <-. cbn. lia. }
  destruct (reapConnections_idle 5000 exampleActivity s eq_refl Hvalid)
    as (total & s' & E & _ & _ & H).
  exists total, s'. split; [exact E|].
  destruct (H 0%nat Example.freshCxn eq_refl) as (cxn' & Hc & Hd).
  split.
  - vm_compute in E. injection E as <- _. reflexivity.
  - rewrite Hc. cbn [option_map]. rewrite Hd. reflexivity.
Defined.

(* ================================================================== *)
(** ** Stopping a broker *)
(* ================================================================== *)

(** [die] on one of the five pointers: the connection it points to is
    dead afterwards, every other connection is as it was. *)
Lemma dieNilable_kills sl s :
  (forall c, sl = Some c -> (c < List.length (heap s))%nat) ->
  exists s',
    dieNilable sl s = (Returns tt, s') /\
    b s' = b s /\ world s' = world s /\
    List.length (heap s') = List.length (heap s) /\
    forall c cxn,
      nth_error (heap s) c = Some cxn ->
      exists cxn',
        nth_error (heap s') c = Some cxn' /\
        dead cxn' = dead cxn
                    || match sl with
                       | Some c' => Nat.eqb c' c
                       | None => false
                       end.
Proof.
  intros Hvalid. destruct sl as [c0|]; cbn [dieNilable].
  - specialize (Hvalid c0 eq_refl).
    destruct (nth_error (heap s) c0) as [x0|] eqn:Hc0;
      [|apply nth_error_None in Hc0; lia].
    destruct (dead x0) eqn:Hd.
    + rewrite (die_dead c0 s x0 Hc0 Hd). exists s. repeat split.
      intros c cxn Hc. exists cxn. split; [exact Hc|].
      destruct (Nat.eqb_spec c0 c) as [->|].
      * rewrite Hc0 in Hc. injection Hc as <-. rewrite Hd. reflexivity.
      * rewrite orb_false_r. reflexivity.
    + rewrite (die_live c0 s x0 Hc0 Hd). eexists. split; [reflexivity|].
      cbn [b heap world]. split; [reflexivity|]. split; [reflexivity|].
      split; [apply update_length|].
      intros c cxn Hc. destruct (Nat.eqb_spec c0 c) as [->|Hne].
      * eexists. split; [eapply nth_error_update_eq; exact Hc|].
        cbn. rewrite orb_true_r. reflexivity.
      * exists cxn. rewrite nth_error_update_neq by exact Hne.
        split; [exact Hc|]. rewrite orb_false_r. reflexivity.
  - exists s. repeat split. intros c cxn Hc. exists cxn.
    split; [exact Hc|]. rewrite orb_false_r. reflexivity.
Qed.

(** [stopForever] kills what the broker has.  On a broker that is not
    stopped yet and whose slots point into the heap, [stopForever] returns
    with the broker marked dead and its queue of requests dead, the
    requests on the queue still there; a connection is dead afterwards
    exactly when it was dead before or one of the five slots points to it;
    the slots and the environment are as they were.  A second
    [stopForever] does nothing at all. *)
Theorem stopForever_kills p s :
  brokerDead p = false ->
  (forall c, In (Some c) (slots (b s)) -> (c < List.length (heap s))%nat) ->
  exists p' s',
    stopForever p s = (Returns p', s') /\
    brokerDead p' = true /\
    reqDead (reqs p') = true /\
    reqElems (reqs p') = reqElems (reqs p) /\
    b s' = b s /\ world s' = world s /\
    (forall c cxn,
        nth_error (heap s) c = Some cxn ->
        exists cxn',
          nth_error (heap s') c = Some cxn' /\
          dead cxn' = dead cxn || inSlots (b s) c) /\
    stopForever p' s' = (Returns p', s').
Proof.
  intros Hp Hvalid. unfold stopForever at 1. rewrite Hp. cbv zeta.
  unfold getBroker at 1. unfold bind at 1.
  assert (V : forall sl, In sl (slots (b s)) ->
                         forall c, sl = Some c -> (c < List.length (heap s))%nat).
  { intros sl Hin c ->. apply Hvalid. exact Hin. }
  destruct (dieNilable_kills (cxnNormal (b s)) s) as (s1 & E1 & B1 & W1 & L1 & H1).
  { apply V. cbn. auto. }
  rewrite (bind_Returns _ _ _ _ _ E1).
  destruct (dieNilable_kills (cxnProduce (b s)) s1) as (s2 & E2 & B2 & W2 & L2 & H2).
  { rewrite L1. apply V. cbn. auto. }
  rewrite (bind_Returns _ _ _ _ _ E2).
  destruct (dieNilable_kills (cxnFetch (b s)) s2) as (s3 & E3 & B3 & W3 & L3 & H3).
  { rewrite L2, L1. apply V. cbn. auto. }
  rewrite (bind_Returns _ _ _ _ _ E3).
  destruct (dieNilable_kills (cxnGroup (b s)) s3) as (s4 & E4 & B4 & W4 & L4 & H4).
  { rewrite L3, L2, L1. apply V. cbn. auto. }
  rewrite (bind_Returns _ _ _ _ _ E4).
  destruct (dieNilable_kills (cxnSlow (b s)) s4) as (s5 & E5 & B5 & W5 & L5 & H5).
  { rewrite L4, L3, L2, L1. apply V. cbn. auto 6. }
  rewrite (bind_Returns _ _ _ _ _ E5).
  unfold emit, bind, ret. cbn.
  do 2 eexists. split; [reflexivity|]. cbn.
  split; [reflexivity|]. split; [reflexivity|]. split; [reflexivity|].
  split; [congruence|]. split; [congruence|].
  split; [|reflexivity].
  intros c cxn Hc.
  destruct (H1 c cxn Hc) as (x1 & Hc1 & D1).
  destruct (H2 c x1 Hc1) as (x2 & Hc2 & D2).
  destruct (H3 c x2 Hc2) as (x3 & Hc3 & D3).
  destruct (H4 c x3 Hc3) as (x4 & Hc4 & D4).
  destruct (H5 c x4 Hc4) as (x5 & Hc5 & D5).
  exists x5. split; [exact Hc5|].
  rewrite D5, D4, D3, D2, D1. unfold inSlots, slots. cbn [existsb].
  repeat match goal with
         | |- context [match ?x with Some _ => _ | None => _ end] => destruct x
         end;
    repeat match goal with
           | |- context [Nat.eqb ?i ?j] => destruct (Nat.eqb i j)
           end;
    destruct (dead cxn); reflexivity.
Qed.

(** No request is taken after [stopForever].  On a pump whose dead flag
    is only ever set by [stopForever] (a dead broker has a dead queue),
    once [stopForever] has returned, [do] calls the promise at once with
    [errChosenBrokerDead] and no response; it starts no worker, enqueues
    nothing, and touches neither a connection nor the broker. *)
Theorem do_after_stopForever p s p' s' ctx req promise now s1 :
  (brokerDead p = true -> reqDead (reqs p) = true) ->
  stopForever p s = (Returns p', s') ->
  Now s' = (Returns now, s1) ->
  do p' ctx req promise s'
  = (Returns (p', None),
     mkState (b s1) (heap s1) (world s1)
             (trace s1 ++ [Promise promise None (Some errChosenBrokerDead)])) /\
  b s1 = b s' /\ heap s1 = heap s' /\ trace s1 = trace s'.
Proof.
  intros Hinv E EN.
  assert (Hd : reqDead (reqs p') = true).
  { unfold stopForever in E. destruct (brokerDead p) eqn:Hp.
    - unfold ret in E. injection E as <- _. auto.
    - cbv zeta in E.
      repeat (apply bind_Returns_inv in E as (? & ? & _ & E)).
      unfold ret in E. injection E as <- _. reflexivity. }
  split.
  - unfold do. rewrite (bind_Returns _ _ _ _ _ EN). cbv zeta.
    unfold ringReq_push. rewrite Hd. cbv beta iota.
    unfold emit, bind, ret. cbn. destruct p' as [r d]. reflexivity.
  - destruct (Now_quietly s') as (t & s1' & EN' & Hb & Hh & Ht & _).
    rewrite EN in EN'. injection EN' as _ <-. auto.
Qed.

Section PumpFacts.

Variable codec : Codec.
Variable config : cfg.

(** One pass of the worker. *)
Lemma handleReqsFrom_pass fuel p pr isDead s :
  handleReqsFrom codec config (S fuel) p pr isDead s
  = bind (if isDead
          then emit (Promise (pr_promise pr) None (Some errChosenBrokerDead))
          else handleReq codec config pr)
         (fun _ =>
            let '(r, (next, isDead)) := ringReq_dropPeek (reqs p) in
            let p := {| reqs := r; brokerDead := brokerDead p |} in
            match next with
            | Some pr => handleReqsFrom codec config fuel p pr isDead
            | None => ret p
            end) s.
Proof. reflexivity. Qed.

(** How the worker fails a request it finds on a dead queue. *)
Lemma handleReqsFrom_dead : forall rest fuel p pr s,
  reqElems (reqs p) = pr :: rest ->
  reqDead (reqs p) = true ->
  (List.length rest < fuel)%nat ->
  exists p',
    handleReqsFrom codec config fuel p pr true s
    = (Returns p',
       mkState (b s) (heap s) (world s)
               (trace s ++ map (fun q => Promise (pr_promise q) None
                                                 (Some errChosenBrokerDead))
                               (pr :: rest))) /\
    reqElems (reqs p') = [] /\ reqDead (reqs p') = true /\
    brokerDead p' = brokerDead p.
Proof.
  induction rest as [|q rest IH]; intros fuel p pr s He Hd Hf;
    (destruct fuel as [|fuel]; [cbn in Hf; lia|]); cbn [handleReqsFrom].
  - unfold emit at 1. unfold bind at 1. unfold ringReq_dropPeek.
    rewrite He. cbn [tl hd_error]. cbv beta iota.
    eexists. split; [reflexivity|]. cbn. auto.
  - unfold emit at 1. unfold bind at 1. unfold ringReq_dropPeek.
    rewrite He, Hd. cbn [tl hd_error]. cbv beta iota.
    edestruct (IH fuel) as (p' & E & He' & Hd' & Hb);
      [| |cbn in Hf; apply Nat.succ_lt_mono in Hf; exact Hf|].
    3: { rewrite E. eexists. split; [|split; [exact He'|split; [exact Hd'|exact Hb]]].
         cbn [b heap world trace map]. rewrite <- app_assoc. reflexivity. }
    + reflexivity.
    + reflexivity.
Qed.

(** A stopped broker fails what is waiting.  When the broker has been
    stopped while its worker was at the request at the head of the queue,
    and [handleReq] returns for that request, [handleReqs] fails every
    request behind it, in the order of the queue, by calling its promise
    with [errChosenBrokerDead] and no response; for those requests it
    touches neither the broker nor a connection nor the environment, and
    it leaves the queue empty. *)
Theorem handleReqs_stopped p pr rest s s1 :
  reqElems (reqs p) = pr :: rest ->
  reqDead (reqs p) = true ->
  handleReq codec config pr s = (Returns tt, s1) ->
  exists p',
    handleReqs codec config p pr s
    = (Returns p',
       mkState (b s1) (heap s1) (world s1)
               (trace s1 ++ map (fun q => Promise (pr_promise q) None
                                                  (Some errChosenBrokerDead))
                                rest)) /\
    reqElems (reqs p') = [] /\
    brokerDead p' = brokerDead p.
Proof.
  intros He Hd E. unfold handleReqs. rewrite He. cbn [List.length].
  rewrite handleReqsFrom_pass.
  rewrite (bind_Returns _ _ _ _ _ E).
  unfold ringReq_dropPeek. rewrite He, Hd. cbn [tl]. cbv beta iota.
  destruct rest as [|q rest]; cbn [hd_error].
  - eexists. split;
      [unfold ret; cbn [map]; rewrite app_nil_r; destruct s1; reflexivity|].
    split; reflexivity.
  - edestruct (handleReqsFrom_dead rest (S (List.length (q :: rest)))
                 {| reqs := {| reqElems := q :: rest; reqDead := true |};
                    brokerDead := brokerDead p |} q s1)
      as (p' & E' & He' & _ & Hb); [reflexivity|reflexivity|cbn; lia|].
    rewrite E'. exists p'. split; [reflexivity|]. split; [exact He'|exact Hb].
Qed.

End PumpFacts.

(** A broker with one live connection in the slot for ordinary requests:
    after [stopForever] the broker and the connection are dead. *)
Lemma stopForever_kills_witness :
  let s := mkState Example.loadedBroker [Example.freshCxn]
                   (Example.quiet [] [] []) [] in
  exists p' s',
    stopForever (examplePump [] false) s = (Returns p', s') /\
    brokerDead p' = true /\
    option_map dead (nth_error (heap s') 0) = Some true.
Proof.
  intros s.
  assert (Hvalid : forall c, In (Some c) (slots (b s)) ->
                             (c < List.length (heap s))%nat).
  { intros c H. cbn in H.
    destruct H as [H|[H|[H|[H|[H|[]]]]]]; try discriminate H.
    injection H as <-. cbn. lia. }
  destruct (stopForever_kills (examplePump [] false) s eq_refl Hvalid)
    as (p' & s' & E & Hb & _ & _ & _ & _ & H & _).
  exists p', s'. split; [exact E|]. split; [exact Hb|].
  destruct (H 0%nat Example.freshCxn eq_refl) as (cxn' & Hc & Hd).
  rewrite Hc. cbn [option_map]. rewrite Hd. reflexivity.
Defined.

(** The same broker, stopped: a request handed to [do] afterwards is
    failed at once. *)
Lemma do_after_stopForever_witness :
  let s := mkState Example.loadedBroker [Example.freshCxn]
                   (Example.quiet [] [] []) [] in
  let req := mkRequest (otherRequest 3 false []) 0 in
  exists p' s' s2,
    stopForever (examplePump [] false) s = (Returns p', s') /\
    do p' None req 7%nat s' = (Returns (p', None), s2) /\
    trace s2 = trace s' ++ [Promise 7%nat None (Some errChosenBrokerDead)].
Proof.
  intros s req.
  destruct (stopForever (examplePump [] false) s) as [r s'] eqn:E.
  assert (E' := E). vm_compute in E'. injection E' as <- <-.
  assert (Hinv : brokerDead (examplePump [] false) = true ->
                 reqDead (reqs (examplePump [] false)) = true)
    by (intros H; discriminate H).
  destruct (do_after_stopForever (examplePump [] false) s _ _ None req 7%nat
                                 _ _ Hinv E eq_refl)
    as (ED & _).
  do 3 eexists. split; [reflexivity|]. split; [exact ED|].
  vm_compute. reflexivity.
Defined.

(** Two requests on a queue that died while the first was under way: the
    first is written and waits for its response, the second is failed. *)
Lemma handleReqs_stopped_witness :
  let pr := Example.request (otherRequest 3 false []) in
  let q := {| pr_ctx := Some Example.ctx;
              pr_req := mkRequest (otherRequest 3 false []) 0;
              pr_promise := 2%nat; pr_enqueue := 60 |} in
  let s := mkState Example.loadedBroker [Example.freshCxn]
                   (Example.quiet [] [WriteAll] []) [] in
  exists p' s',
    handleReqs Example.codec (Example.config 1) (examplePump [pr; q] true) pr s
    = (Returns p', s') /\
    reqElems (reqs p') = [] /\
    filter isPromise (trace s') = [Promise 2%nat None (Some errChosenBrokerDead)].
Proof.
  intros pr q s.
  destruct (handleReq Example.codec (Example.config 1) pr s) as [r s1] eqn:E.
  assert (E' := E). vm_compute in E'. injection E' as <- <-.
  destruct (handleReqs_stopped Example.codec (Example.config 1)
                               (examplePump [pr; q] true) pr [q] s _
                               eq_refl eq_refl E)
    as (p' & EH & He & _).
  do 2 eexists. split; [exact EH|]. split; [exact He|].
  vm_compute. reflexivity.
Defined.
